(** * Finite-element notebooks: Poisson demo, cantilever beam, shape optimisation

    A shallow embedding of the Python notebooks of the repository.  The
    notebooks are thin drivers over NGSolve: the mesh generator, the assembly
    of forms, the sparse factorisation, the Newton solver and the vector norm
    are library calls.  They appear here as the fields of the records
    [Backend] and [Numerics]; everything the notebooks themselves do (the
    order of the calls, the residual update, the name look-ups in the module
    namespace, the aliasing of grid functions, the loops) is written out.

    Numbers are exact rationals ([Q]); equality of vectors is equality of
    their representations, entry by entry. *)

From Stdlib Require Import QArith Qabs ZArith Lia Ascii.
From stdpp Require Import gmap strings list.

Local Open Scope Q_scope.

(** ** Python exceptions and the result of a statement

    An exception raised in a method of [Beam] ends the cell that called it;
    what the method had stored by then is not kept.  The optimisation loop
    keeps the state at the point of the exception ([outcome] below). *)

Inductive exn :=
  | NameError (name : string)
  | AttributeError (attr : string)
  | TypeError (what : string)
  | IndexError
  | RecursionError
  | ZeroDivisionError.

Inductive result (A : Type) :=
  | Ok (a : A)
  | Raise (e : exn).
Arguments Ok {A} a.
Arguments Raise {A} e.

Definition rbind {A B} (m : result A) (k : A -> result B) : result B :=
  match m with
  | Ok a => k a
  | Raise e => Raise e
  end.

Notation "'let*' x ':=' m 'in' k" := (rbind m (fun x => k))
  (at level 10, x name, m at level 100, k at level 200).
Notation "'let*' ' p ':=' m 'in' k" := (rbind m (fun x => match x with p => k end))
  (at level 10, p strict pattern, m at level 100, k at level 200).

Definition from_attr {A} (attr : string) (o : option A) : result A :=
  match o with
  | Some a => Ok a
  | None => Raise (AttributeError attr)
  end.

(** ** Vectors and matrices of the linear-algebra layer *)

Module LinAlg.

Abbreviation Vec := (list Q).
Abbreviation Matrix := (list (list Q)).

#[export] Instance Q_inhabited : Inhabited Q := populate 0.

Definition zeros (n : nat) : Vec := replicate n 0.

Definition vadd (x y : Vec) : Vec := zip_with Qplus x y.
Definition vsub (x y : Vec) : Vec := zip_with Qminus x y.
Definition vscale (c : Q) (x : Vec) : Vec := map (Qmult c) x.

Definition dot (x y : Vec) : Q := foldr Qplus 0 (zip_with Qmult x y).

(** [A * x] *)
Definition matvec (A : Matrix) (x : Vec) : Vec := map (fun row => dot row x) A.

(** column [j] of [A], and [A.T] for a matrix with [n] columns *)
Definition column (A : Matrix) (j : nat) : Vec := map (fun row => row !!! j) A.
Definition transpose (n : nat) (A : Matrix) : Matrix := map (column A) (seq 0 n).

(** Zero extension outside the free degrees of freedom: the result has one
    entry per degree of freedom, the entry of [x] where the flag is set and
    [0] elsewhere. *)
Definition mask (free : list bool) (x : Vec) : Vec :=
  imap (fun i (fr : bool) => if fr then x !!! i else 0) free.

(** [A.Inverse(freedofs=free) * r]: the factorisation of the block of [A] on
    the free degrees of freedom is the library's ([solver]); the operator it
    returns acts on the free entries only and yields zero elsewhere. *)
Definition Inverse_mul (solver : Matrix -> list bool -> Vec -> Vec)
    (A : Matrix) (free : list bool) (r : Vec) : Vec :=
  mask free (solver A free r).

(** The three statements shared by [main] and [Beam.solve_system]:
<<
    r = f.vec.CreateVector()
    r.data = f.vec - a.mat * gfu.vec
    gfu.vec.data += a.mat.Inverse(freedofs=fes.FreeDofs()) * r
>>  *)
Definition eliminate (solver : Matrix -> list bool -> Vec -> Vec)
    (A : Matrix) (f : Vec) (free : list bool) (ug : Vec) : Vec :=
  let r := vsub f (matvec A ug) in
  vadd ug (Inverse_mul solver A free r).

End LinAlg.
Import LinAlg.

(** ** Values of coefficient functions at a point

    A coefficient function of NGSolve has a tuple of dimensions and, at every
    point, one number per component, stored row by row.  The operators the
    notebooks use are the library's; their definitions below follow its
    Python interface: [cf[i]] with an integer selects the [i]-th stored
    component, [+] needs equal dimensions, [*] scales when one side has a
    single component. *)

Module CF.

Record Tensor := mkT { dims : list nat; data : list Q }.

Definition Dimension (t : Tensor) : nat := length (data t).

Definition scalar (q : Q) : Tensor := mkT [] [q].

(** the number held by a one-component value *)
Definition value (t : Tensor) : Q := data t !!! 0%nat.

Definition matrix (r c : nat) (entry : nat -> nat -> Q) : Tensor :=
  mkT [r; c] (flat_map (fun i => map (entry i) (seq 0 c)) (seq 0 r)).

(** entry [(i, j)] of a matrix value: component [i * columns + j] *)
Definition entry (t : Tensor) (i j : nat) : Q :=
  match dims t with
  | [_; c] => data t !!! (i * c + j)%nat
  | _ => 0
  end.

(** [Id(n)] *)
Definition Id (n : nat) : Tensor :=
  matrix n n (fun i j => if decide (i = j) then 1 else 0).

(** [c * cf] for a Python number [c] *)
Definition scale (c : Q) (t : Tensor) : Tensor :=
  mkT (dims t) (map (Qmult c) (data t)).

(** [cf[comp]] *)
Definition getitem (t : Tensor) (comp : nat) : result Tensor :=
  if decide (comp < Dimension t)%nat
  then Ok (scalar (data t !!! comp))
  else Raise IndexError.

(** [cf.trans] *)
Definition trans (t : Tensor) : result Tensor :=
  match dims t with
  | [r; c] => Ok (matrix c r (fun i j => entry t j i))
  | _ => Raise (TypeError "trans")
  end.

(** [cf1 + cf2]: the library compares the numbers of components, not the
    shapes, adds component by component and gives the sum the shape of the
    left operand. *)
Definition add (a b : Tensor) : result Tensor :=
  if decide (Dimension a = Dimension b)
  then Ok (mkT (dims a) (zip_with Qplus (data a) (data b)))
  else Raise (TypeError "dimensions").

(** [InnerProduct(cf1, cf2)] *)
Definition InnerProduct (a b : Tensor) : result Tensor :=
  if decide (Dimension a = Dimension b)
  then Ok (scalar (dot (data a) (data b)))
  else Raise (TypeError "dimensions").

(** [cf1 * cf2]: matrix product, matrix times vector, inner product of two
    vectors, or scaling by a one-component factor. *)
Definition mul (a b : Tensor) : result Tensor :=
  match dims a, dims b with
  | [r; c], [c'; k] =>
      if decide (c = c')
      then Ok (matrix r k (fun i j =>
                 foldr Qplus 0 (map (fun l => entry a i l * entry b l j) (seq 0 c))))
      else Raise (TypeError "dimensions")
  | [r; c], [n] =>
      if decide (c = n)
      then Ok (mkT [r] (map (fun i =>
                 foldr Qplus 0 (map (fun l => entry a i l * data b !!! l) (seq 0 c)))
                 (seq 0 r)))
      else Raise (TypeError "dimensions")
  | _, _ =>
      if decide (1 < Dimension a /\ 1 < Dimension b)%nat
      then InnerProduct a b
      else if decide (Dimension a = 1)%nat
      then Ok (scale (value a) b)
      else if decide (Dimension b = 1)%nat
      then Ok (scale (value b) a)
      else Raise (TypeError "dimensions")
  end.

(** [epsilon = lambda u: 0.5*(grad(u) + grad(u).trans)], at the value [gu]
    of [grad(u)] *)
Definition epsilon (gu : Tensor) : result Tensor :=
  let* t := trans gu in
  let* s := add gu t in
  Ok (scale (1 # 2) s).

(** [sigma = lambda u: lam*Id(dim) * (epsilon(u)[0]+epsilon(u)[1]+epsilon(u)[2])
                       + 2*mu*epsilon(u)]
    with [eps] the function the name [epsilon] is bound to when [sigma] is
    called. *)
Definition sigma_body (eps : Tensor -> result Tensor) (lam mu : Q) (dim : nat)
    (gu : Tensor) : result Tensor :=
  let* e := eps gu in
  let* e0 := getitem e 0 in
  let* e1 := getitem e 1 in
  let* e2 := getitem e 2 in
  let* s01 := add e0 e1 in
  let* s := add s01 e2 in
  let* vol := mul (scale lam (Id dim)) s in
  add vol (scale (2 * mu) e).

Definition sigma (lam mu : Q) (dim : nat) (gu : Tensor) : result Tensor :=
  sigma_body epsilon lam mu dim gu.

(** [InnerProduct(sigma(u), epsilon(v))], the integrand of the bilinear form *)
Definition elasticity_integrand (lam mu : Q) (dim : nat) (gu gv : Tensor)
    : result Tensor :=
  let* s := sigma lam mu dim gu in
  let* e := epsilon gv in
  InnerProduct s e.

(** *** Hooke's law as the notebook's text states it

    [sigma = lam tr(eps) I + 2 mu eps], with the trace the sum of the
    diagonal entries.  This definition follows the formula, not the code. *)

Definition trace (t : Tensor) : result Tensor :=
  match dims t with
  | [r; c] =>
      if decide (r = c)
      then Ok (scalar (foldr Qplus 0 (map (fun i => entry t i i) (seq 0 r))))
      else Raise (TypeError "trace")
  | _ => Raise (TypeError "trace")
  end.

Definition hooke_sigma (lam mu : Q) (dim : nat) (gu : Tensor) : result Tensor :=
  let* e := epsilon gu in
  let* tr := trace e in
  add (scale (lam * value tr) (Id dim)) (scale (2 * mu) e).

Definition hooke_integrand (lam mu : Q) (dim : nat) (gu gv : Tensor)
    : result Tensor :=
  let* s := hooke_sigma lam mu dim gu in
  let* e := epsilon gv in
  InnerProduct s e.

End CF.

(** ** Boundary patterns

    NGSolve reads the pattern of [dirichlet=...], [mesh.Boundaries(...)] and
    [ds(definedon=...)] as a regular expression and selects the parts whose
    whole name it matches.  The expressions modelled here are those built from
    plain characters, [.], escaped syntax characters, bracket classes of
    characters and ranges, groups, [|] and the quantifiers [*], [+] and [?];
    [parse] answers [None] for every other pattern (anchors, back
    references, look-ahead, counted repetition, lazy quantifiers, class
    escapes) and for an ill-formed one, and no statement is made about
    those. *)

Module Regex.

Inductive re :=
  | Void
  | Eps
  | Chr (c : ascii)
  | Dot
  | Class (negated : bool) (ranges : list (ascii * ascii))
  | Alt (r s : re)
  | Cat (r s : re)
  | Star (r : re).

Definition in_ranges (c : ascii) (ranges : list (ascii * ascii)) : bool :=
  existsb (fun ab => Nat.leb (nat_of_ascii (fst ab)) (nat_of_ascii c)
                     && Nat.leb (nat_of_ascii c) (nat_of_ascii (snd ab)))
          ranges.

(** [.] matches every character but a line terminator *)
Definition line_terminator (c : ascii) : bool :=
  Ascii.eqb c "010"%char || Ascii.eqb c "013"%char.

Fixpoint nullable (r : re) : bool :=
  match r with
  | Void | Chr _ | Dot | Class _ _ => false
  | Eps | Star _ => true
  | Alt r s => nullable r || nullable s
  | Cat r s => nullable r && nullable s
  end.

(** what is left of [r] to match after the character [c] *)
Fixpoint deriv (c : ascii) (r : re) : re :=
  match r with
  | Void | Eps => Void
  | Chr d => if Ascii.eqb c d then Eps else Void
  | Dot => if line_terminator c then Void else Eps
  | Class negated ranges => if xorb negated (in_ranges c ranges) then Eps else Void
  | Alt r s => Alt (deriv c r) (deriv c s)
  | Cat r s =>
      if nullable r then Alt (Cat (deriv c r) s) (deriv c s) else Cat (deriv c r) s
  | Star r => Cat (deriv c r) (Star r)
  end.

(** [r] matches the whole of [s] *)
Fixpoint accepts (r : re) (s : string) : bool :=
  match s with
  | EmptyString => nullable r
  | String c rest => accepts (deriv c r) rest
  end.

Definition syntax_character (c : ascii) : bool :=
  existsb (Ascii.eqb c) (String.list_ascii_of_string "^$\.*+?()[]{}|").

(** an atom with the quantifier that follows it, if one does *)
Definition quantified (a : re) (s : string) : re * string :=
  match s with
  | String c rest =>
      if Ascii.eqb c "*"%char then (Star a, rest)
      else if Ascii.eqb c "+"%char then (Cat a (Star a), rest)
      else if Ascii.eqb c "?"%char then (Alt a Eps, rest)
      else (a, s)
  | EmptyString => (a, s)
  end.

(** the characters a bracket class may list here: no syntax character and
    none of [-], [:], [=], which open ranges and named classes *)
Definition class_character (c : ascii) : bool :=
  negb (syntax_character c
        || existsb (Ascii.eqb c) (String.list_ascii_of_string "-:=")).

(** the items of a bracket class up to the closing bracket *)
Fixpoint class_items (s : string) (acc : list (ascii * ascii))
    : option (list (ascii * ascii) * string) :=
  match s with
  | EmptyString => None
  | String c rest =>
      if Ascii.eqb c "]"%char
      then match acc with [] => None | _ => Some (rev acc, rest) end
      else if class_character c
      then match rest with
           | String dash (String d rest') =>
               if Ascii.eqb dash "-"%char
               then if class_character d && Nat.leb (nat_of_ascii c) (nat_of_ascii d)
                    then class_items rest' ((c, d) :: acc)
                    else None
               else class_items rest ((c, c) :: acc)
           | _ => class_items rest ((c, c) :: acc)
           end
      else None
  end.

Definition class (s : string) : option (re * string) :=
  match s with
  | String c rest =>
      if Ascii.eqb c "^"%char
      then match class_items rest [] with
           | Some (ranges, rest') => Some (Class true ranges, rest')
           | None => None
           end
      else match class_items s [] with
           | Some (ranges, rest') => Some (Class false ranges, rest')
           | None => None
           end
  | EmptyString => None
  end.

(** Disjunction, alternative and atom of the pattern grammar; [n] bounds the
    depth of the descent. *)
Fixpoint disjunction (n : nat) (s : string) : option (re * string) :=
  match n with
  | O => None
  | S n' =>
      match alternative n' s with
      | Some (r, String c rest) =>
          if Ascii.eqb c "|"%char
          then match disjunction n' rest with
               | Some (r', rest') => Some (Alt r r', rest')
               | None => None
               end
          else Some (r, String c rest)
      | other => other
      end
  end
with alternative (n : nat) (s : string) : option (re * string) :=
  match n with
  | O => None
  | S n' =>
      match s with
      | EmptyString => Some (Eps, s)
      | String c _ =>
          if Ascii.eqb c "|"%char || Ascii.eqb c ")"%char then Some (Eps, s)
          else match atom n' s with
               | Some (a, rest) =>
                   let '(t, rest) := quantified a rest in
                   match alternative n' rest with
                   | Some (r, rest') => Some (Cat t r, rest')
                   | None => None
                   end
               | None => None
               end
      end
  end
with atom (n : nat) (s : string) : option (re * string) :=
  match n with
  | O => None
  | S n' =>
      match s with
      | EmptyString => None
      | String c rest =>
          if Ascii.eqb c "("%char then
            let body :=
              match rest with
              | String q (String k rest') =>
                  if Ascii.eqb q "?"%char && Ascii.eqb k ":"%char then rest' else rest
              | _ => rest
              end in
            match disjunction n' body with
            | Some (r, String k rest') =>
                if Ascii.eqb k ")"%char then Some (r, rest') else None
            | _ => None
            end
          else if Ascii.eqb c "."%char then Some (Dot, rest)
          else if Ascii.eqb c "["%char then class rest
          else if Ascii.eqb c "\"%char then
            match rest with
            | String e rest' =>
                if syntax_character e || Ascii.eqb e "/"%char
                then Some (Chr e, rest') else None
            | EmptyString => None
            end
          else if syntax_character c then None
          else Some (Chr c, rest)
      end
  end.

Definition parse (pattern : string) : option re :=
  match disjunction (4 * String.length pattern + 4)%nat pattern with
  | Some (r, EmptyString) => Some r
  | _ => None
  end.

(** a pattern without syntax characters, a name, and the expression it is:
    its characters in sequence *)
Fixpoint plain (s : string) : bool :=
  match s with
  | EmptyString => true
  | String c rest => negb (syntax_character c) && plain rest
  end.

Fixpoint literal (s : string) : re :=
  match s with
  | EmptyString => Eps
  | String c rest => Cat (Chr c) (literal rest)
  end.

(** [std::regex_match(name, std::regex(pattern))] *)
Definition matches (pattern name : string) : bool :=
  match parse pattern with
  | Some r => accepts r name
  | None => false
  end.

End Regex.

(** ** Meshes, boundary regions, spaces and grid functions

    What the notebooks see of a mesh: its dimension, the names of its boundary
    parts (a part is known by its index) and, for each polynomial order, the
    number of scalar H1 degrees of freedom and those lying on each part. *)

Module FE.

Record Mesh := mkMesh {
  mesh_dim : nat;
  mesh_bnd_names : list string;
  mesh_ndof : nat -> nat;
  mesh_bnd_dofs : nat -> nat -> list nat
}.

(** the pattern, a regular expression, matches the whole name *)
Definition matches (pattern name : string) : bool := Regex.matches pattern name.

(** [mesh.Boundaries(pattern)]: the parts of [mesh] whose name the pattern
    matches, as a mask over the part indices. *)
Record Region := mkRegion { reg_mesh : Mesh; reg_mask : list bool }.

Definition Boundaries (m : Mesh) (pattern : string) : Region :=
  mkRegion m (map (matches pattern) (mesh_bnd_names m)).

(** scalar degrees of freedom of [m] on the parts a mask selects *)
Definition masked_dofs (m : Mesh) (order : nat) (mask : list bool) : list nat :=
  flat_map (fun i => if default false (mask !! i) then mesh_bnd_dofs m order i else [])
           (seq 0 (length (mesh_bnd_names m))).

Record Space := mkSpace {
  sp_mesh : Mesh;
  sp_order : nat;
  sp_arity : nat;
  sp_nscalar : nat;
  sp_free : list bool
}.

Definition sp_ndof (V : Space) : nat := (sp_arity V * sp_nscalar V)%nat.

(** [FreeDofs()] of a scalar H1 space: every degree of freedom that lies on
    no part matched by [dirichlet]. *)
Definition H1_free (m : Mesh) (order : nat) (dirichlet : option string) : list bool :=
  let fixed :=
    match dirichlet with
    | Some pattern => masked_dofs m order (reg_mask (Boundaries m pattern))
    | None => []
    end in
  map (fun d => bool_decide (d ∉ fixed)) (seq 0 (mesh_ndof m order)).

(** [H1(mesh, order=order, dirichlet=dirichlet)] *)
Definition H1 (m : Mesh) (order : nat) (dirichlet : option string) : Space :=
  mkSpace m order 1 (mesh_ndof m order) (H1_free m order dirichlet).

(** [VectorH1(mesh, order=order, dirichlet=dirichlet)]: one block of scalar
    degrees of freedom per coordinate, the same constraint on each. *)
Definition VectorH1 (m : Mesh) (order : nat) (dirichlet : option string) : Space :=
  mkSpace m order (mesh_dim m) (mesh_ndof m order)
          (concat (replicate (mesh_dim m) (H1_free m order dirichlet))).

Definition FreeDofs (V : Space) : list bool := sp_free V.

Inductive Proxy :=
  | TrialFunction (V : Space)
  | TestFunction (V : Space).

Record GridFunction := mkGF { gf_space : Space; gf_vec : Vec }.

(** [GridFunction(V)] *)
Definition new_GridFunction (V : Space) : GridFunction :=
  mkGF V (zeros (sp_ndof V)).

Definition set_zero_at (dofs : list nat) (x : Vec) : Vec :=
  foldr (fun d acc => <[d := 0]> acc) x dofs.

(** degrees of freedom of component [c] of [V] on the parts a mask selects:
    the scalar ones, shifted into block [c] *)
Definition component_dofs (V : Space) (c : nat) (mask : list bool) : list nat :=
  map (fun d => (c * sp_nscalar V + d)%nat)
      (filter (fun d => (d < sp_nscalar V)%nat)
              (masked_dofs (sp_mesh V) (sp_order V) mask)).

Definition region_dofs (V : Space) (mask : list bool) : list nat :=
  flat_map (fun c => component_dofs V c mask) (seq 0 (sp_arity V)).

(** [gf.Set(0, definedon=region)] and [gf.Set(0, BND)]: the notebooks only
    ever set the value zero; the degrees of freedom of the region (of the
    whole boundary) become [0], the others keep their value.  The mask of the
    region is read by part index on the mesh of the grid function. *)
Definition Set0 (gf : GridFunction) (reg : Region) : GridFunction :=
  mkGF (gf_space gf)
       (set_zero_at (region_dofs (gf_space gf) (reg_mask reg)) (gf_vec gf)).

Definition Set0_BND (gf : GridFunction) : GridFunction :=
  let V := gf_space gf in
  mkGF V (set_zero_at
            (region_dofs V (replicate (length (mesh_bnd_names (sp_mesh V))) true))
            (gf_vec gf)).

(** Trial and test functions at a point: value and gradient. *)
Record Jet := mkJet { jet_val : CF.Tensor; jet_grad : CF.Tensor }.

Abbreviation Point := (list Q).
Abbreviation Field := (list Q -> CF.Tensor).

Record BilinearForm := mkBF {
  bf_space : Space;
  bf_integrand : Jet -> Jet -> result CF.Tensor;
  bf_mat : Matrix
}.

Record LinearForm := mkLF {
  lf_space : Space;
  lf_dx : Point -> Jet -> result CF.Tensor;
  lf_ds : Point -> Jet -> result CF.Tensor;
  lf_definedon : list bool;
  lf_vec : Vec
}.

(** The library calls whose result the notebooks take as given. *)
Record Backend := mkBackend {
  (** [Mesh(unit_square.GenerateMesh(maxh=maxh))] *)
  bk_unit_square : Q -> Mesh;
  (** [a.Assemble()] for the integrand added to [a] *)
  bk_assemble_bilinear : Space -> (Jet -> Jet -> result CF.Tensor) -> Matrix;
  (** [f.Assemble()] for a volume term and a term on the masked boundary *)
  bk_assemble_linear :
    Space -> (Point -> Jet -> result CF.Tensor) ->
    (Point -> Jet -> result CF.Tensor) -> list bool -> Vec;
  (** the factorisation behind [mat.Inverse(freedofs)] *)
  bk_solve : Matrix -> list bool -> Vec -> Vec
}.

(** value and gradient of a proxy of [V], all components zero: the shape on
    which the library checks an expression when it is built *)
Definition proxy_jet (V : Space) : Jet :=
  if decide (sp_arity V = 1)%nat
  then mkJet (CF.scalar 0) (CF.mkT [mesh_dim (sp_mesh V)] (zeros (mesh_dim (sp_mesh V))))
  else mkJet (CF.mkT [sp_arity V] (zeros (sp_arity V)))
             (CF.matrix (sp_arity V) (mesh_dim (sp_mesh V)) (fun _ _ => 0)).

End FE.
Import FE.

(** ** The module namespace

    Names are resolved when a statement runs.  The namespace binds the names
    the notebooks assign at top level to numbers, meshes and functions; a
    function value is the [lambda] or [def] it was created by. *)

Module Py.

Inductive PyFun :=
  (** the [lambda] bound to [sigma] in [Beam.define_forms]; it closes over
      [self], of which it reads [lam], [mu] and [mesh.dim] *)
  | Lambda_sigma (lam mu : Q) (dim : nat)
  (** the [lambda] bound to [epsilon] in [Beam.define_forms] *)
  | Lambda_epsilon
  (** the functions defined in the shape-optimisation notebook cell *)
  | Def_sigma
  | Def_epsilon
  | Def_EquationFA
  | Def_CostAutoFA
  | Def_CostAuto2
  | Def_SolveAdjointEquation
  | Def_SolveDeformationEquationAuto.

Inductive PyVal :=
  | VNum (q : Q)
  | VMesh (m : Mesh)
  | VFun (f : PyFun).

Abbreviation Globals := (gmap string PyVal).

Definition lookup_num (g : Globals) (name : string) : result Q :=
  match g !! name with
  | Some (VNum q) => Ok q
  | Some _ => Raise (TypeError name)
  | None => Raise (NameError name)
  end.

(** the value of [name] used as a mesh, for the attribute [attr] *)
Definition lookup_mesh (g : Globals) (name attr : string) : result Mesh :=
  match g !! name with
  | Some (VMesh m) => Ok m
  | Some _ => Raise (AttributeError attr)
  | None => Raise (NameError name)
  end.

(** [sys.getrecursionlimit()] *)
Definition recursion_limit : nat := 1000.

(** The body of [sigma], statement by statement in evaluation order:
<<
    lam*Id(mesh.dim) * (epsilon(u)[0]+epsilon(u)[1]+epsilon(u)[2]) + 2*mu*epsilon(u)
>>  [lam], [dim] and [mu] are read where the expression reads them. *)
Definition sigma_expr (eps : CF.Tensor -> result CF.Tensor)
    (lam : result Q) (dim : result nat) (mu : result Q) (gu : CF.Tensor)
    : result CF.Tensor :=
  let* l := lam in
  let* d := dim in
  let* ea := eps gu in
  let* e0 := CF.getitem ea 0 in
  let* eb := eps gu in
  let* e1 := CF.getitem eb 1 in
  let* s01 := CF.add e0 e1 in
  let* ec := eps gu in
  let* e2 := CF.getitem ec 2 in
  let* s := CF.add s01 e2 in
  let* vol := CF.mul (CF.scale l (CF.Id d)) s in
  let* m := mu in
  let* ed := eps gu in
  CF.add vol (CF.scale (2 * m) ed).

(** [name(args)] with [depth] frames left on the interpreter stack *)
Fixpoint call (depth : nat) (g : Globals) (name : string) (args : list CF.Tensor)
    : result CF.Tensor :=
  match depth with
  | O => Raise RecursionError
  | S depth' =>
      match g !! name with
      | None => Raise (NameError name)
      | Some (VFun f) =>
          match f, args with
          | Lambda_sigma lam mu dim, [u] =>
              sigma_expr (fun x => call depth' g "epsilon" [x])
                         (Ok lam) (Ok dim) (Ok mu) u
          | Lambda_epsilon, [u] => CF.epsilon u
          | Def_sigma, [u] =>
              sigma_expr (fun x => call depth' g "epsilon" [x])
                         (lookup_num g "lam")
                         (let* m := lookup_mesh g "mesh" "dim" in Ok (mesh_dim m))
                         (lookup_num g "mu") u
          | Def_epsilon, [u] => CF.epsilon u
          | Def_EquationFA, [u; v] =>
              let* s := call depth' g "sigma" [u] in
              let* e := call depth' g "epsilon" [v] in
              CF.InnerProduct s e
          | Def_CostAutoFA, [u] =>
              let* s := call depth' g "sigma" [u] in
              let* e := call depth' g "epsilon" [u] in
              CF.InnerProduct s e
          | Def_CostAuto2, [u] => call depth' g "CostAutoFA" [u]
          | _, _ => Raise (TypeError "arguments")
          end
      | Some _ => Raise (TypeError "not callable")
      end
  end.

End Py.
Import Py.

(** ** The Poisson demonstration: [main(order, maxh)] *)

Module Poisson.

(** [(grad(u)*grad(v) + u*v)*dx] *)
Definition a_integrand (u v : Jet) : result CF.Tensor :=
  let* gg := CF.mul (jet_grad u) (jet_grad v) in
  let* uv := CF.mul (jet_val u) (jet_val v) in
  CF.add gg uv.

(** [1*v*dx] *)
Definition f_integrand (_ : Point) (v : Jet) : result CF.Tensor :=
  Ok (CF.scale 1 (jet_val v)).

Definition no_term (_ : Point) (_ : Jet) : result CF.Tensor := Ok (CF.scalar 0).

Definition main (bk : Backend) (order : nat) (maxh : Q) : GridFunction * Mesh :=
  let mesh := bk_unit_square bk maxh in
  let fes := H1 mesh order (Some "bottom|right|top|left") in
  let gfu := new_GridFunction fes in
  let a_mat := bk_assemble_bilinear bk fes a_integrand in
  let f_vec := bk_assemble_linear bk fes f_integrand no_term [] in
  let gfu := Set0_BND gfu in
  (mkGF fes (eliminate (bk_solve bk) a_mat f_vec (FreeDofs fes) (gf_vec gfu)), mesh).

End Poisson.

(** ** The cantilever: [class Beam] *)

Module Beam.

Record Beam := mkBeam {
  mesh : Mesh;
  order : nat;
  lam : Q;
  mu : Q;
  b : Field;
  T : Field;
  freebnd : option string;
  fixedbnd : option string;
  V : option Space;
  u : option Proxy;
  v : option Proxy;
  a : option BilinearForm;
  f : option LinearForm;
  gfu : option GridFunction
}.

(** [Beam(mesh, order, lam, mu, b, T)] *)
Definition init (mesh : Mesh) (order : nat) (lam mu : Q) (b T : Field) : Beam :=
  let '(free, fixed) :=
    if decide (mesh_dim mesh = 3)%nat
    then (Some "top|bottom|left|right|end", Some "wall")
    else if decide (mesh_dim mesh = 2)%nat
    then (Some "top|bottom|right", Some "left")
    else (None, None) in
  mkBeam mesh order lam mu b T free fixed None None None None None None.

(** [viga.freebnd = name] and [viga.fixedbnd = name] *)
Definition set_freebnd (name : string) (self : Beam) : Beam :=
  mkBeam (mesh self) (order self) (lam self) (mu self) (b self) (T self)
         (Some name) (fixedbnd self)
         (V self) (u self) (v self) (a self) (f self) (gfu self).

Definition set_fixedbnd (name : string) (self : Beam) : Beam :=
  mkBeam (mesh self) (order self) (lam self) (mu self) (b self) (T self)
         (freebnd self) (Some name)
         (V self) (u self) (v self) (a self) (f self) (gfu self).

Definition define_space (self : Beam) : result Beam :=
  let* fixed := from_attr "fixedbnd" (fixedbnd self) in
  let V' := VectorH1 (mesh self) (order self) (Some fixed) in
  Ok (mkBeam (mesh self) (order self) (lam self) (mu self) (b self) (T self)
             (freebnd self) (fixedbnd self)
             (Some V') (Some (TrialFunction V')) (Some (TestFunction V'))
             (a self) (f self) (gfu self)).

(** [InnerProduct(sigma(self.u), epsilon(self.v))*dx], with [sigma] and
    [epsilon] the values the two names have in [g] *)
Definition a_integrand (g : Globals) (pu pv : Jet) : result CF.Tensor :=
  let* s := call recursion_limit g "sigma" [jet_grad pu] in
  let* e := call recursion_limit g "epsilon" [jet_grad pv] in
  CF.InnerProduct s e.

(** [self.b*self.v*dx] and [self.T*self.v*ds(definedon = self.freebnd)] *)
Definition load_integrand (load : Field) (x : Point) (pv : Jet) : result CF.Tensor :=
  CF.mul (load x) (jet_val pv).

Definition define_forms (bk : Backend) (g : Globals) (self : Beam)
    : result (Globals * Beam) :=
  let g := <["sigma" := VFun (Lambda_sigma (lam self) (mu self) (mesh_dim (mesh self)))]> g in
  let g := <["epsilon" := VFun Lambda_epsilon]> g in
  let* V' := from_attr "V" (V self) in
  let* pu := from_attr "u" (u self) in
  let* pv := from_attr "v" (v self) in
  let* shape_a := a_integrand g (proxy_jet V') (proxy_jet V') in
  let a' := mkBF V' (a_integrand g)
                 (bk_assemble_bilinear bk V' (a_integrand g)) in
  let* shape_b := load_integrand (b self) [] (proxy_jet V') in
  let* shape_T := load_integrand (T self) [] (proxy_jet V') in
  let* free := from_attr "freebnd" (freebnd self) in
  let on := reg_mask (Boundaries (sp_mesh V') free) in
  let f' := mkLF V' (load_integrand (b self)) (load_integrand (T self)) on
                 (bk_assemble_linear bk V'
                    (load_integrand (b self)) (load_integrand (T self)) on) in
  Ok (g, mkBeam (mesh self) (order self) (lam self) (mu self) (b self) (T self)
                (freebnd self) (fixedbnd self)
                (V self) (u self) (v self) (Some a') (Some f') (gfu self)).

(** the region [mesh.Boundaries(self.fixedbnd)] of [solve_system]; [mesh] is
    the name in the module namespace *)
Definition dirichlet_region (g : Globals) (self : Beam) : result Region :=
  let* m := lookup_mesh g "mesh" "Boundaries" in
  let* fixed := from_attr "fixedbnd" (fixedbnd self) in
  Ok (Boundaries m fixed).

Definition solve_system (bk : Backend) (g : Globals) (self : Beam) : result Beam :=
  let* V' := from_attr "V" (V self) in
  let gfu0 := new_GridFunction V' in
  let* reg := dirichlet_region g self in
  let gfu1 := Set0 gfu0 reg in
  let* f' := from_attr "f" (f self) in
  let* a' := from_attr "a" (a self) in
  let x := eliminate (bk_solve bk) (bf_mat a') (lf_vec f') (FreeDofs V') (gf_vec gfu1) in
  Ok (mkBeam (mesh self) (order self) (lam self) (mu self) (b self) (T self)
             (freebnd self) (fixedbnd self)
             (V self) (u self) (v self) (a self) (f self) (Some (mkGF V' x))).

(** [solve(draw)]; drawing shows the field and changes nothing *)
Definition solve (bk : Backend) (g : Globals) (self : Beam)
    : result (Globals * Beam) :=
  let* self1 := define_space self in
  let* '(g2, self2) := define_forms bk g self1 in
  let* self3 := solve_system bk g2 self2 in
  Ok (g2, self3).

(** two instances built from the same arguments and boundary names *)
Definition same_inputs (s1 s2 : Beam) : Prop :=
  mesh s1 = mesh s2 /\ order s1 = order s2 /\ lam s1 = lam s2 /\ mu s1 = mu s2 /\
  b s1 = b s2 /\ T s1 = T s2 /\ freebnd s1 = freebnd s2 /\ fixedbnd s1 = fixedbnd s2.

End Beam.

(** ** The shape-optimisation cells

    The grid functions are objects: a name holds a reference, the vector lives
    in [heap].  [gfu], [gfp], [gfX] and [gfset] are bound once; [gfsetOld] is
    bound in the loop.  [scale], [Jnew] and [gfsetOld] are read only after the
    loop body has assigned them. *)

Module ShapeOpt.

Record State := mkState {
  heap : gmap nat (list Q);
  gfsetOld : nat;
  deformation : option nat;
  aAuto_mat : Matrix;
  fadjoint_vec : Vec;
  b_mat : Matrix;
  dJOmegaAuto_vec : Vec;
  scale : Q;
  Jold : Q;
  Jnew : Q;
  converged : bool;
  iteracion : list nat;
  objetivo : list Q;
  exports : nat
}.

Definition set_heap (x : gmap nat (list Q)) (st : State) : State :=
  mkState x (gfsetOld st) (deformation st) (aAuto_mat st) (fadjoint_vec st) (b_mat st) (dJOmegaAuto_vec st) (scale st) (Jold st) (Jnew st) (converged st) (iteracion st) (objetivo st) (exports st).

Definition set_gfsetOld (x : nat) (st : State) : State :=
  mkState (heap st) x (deformation st) (aAuto_mat st) (fadjoint_vec st) (b_mat st) (dJOmegaAuto_vec st) (scale st) (Jold st) (Jnew st) (converged st) (iteracion st) (objetivo st) (exports st).

Definition set_deformation (x : option nat) (st : State) : State :=
  mkState (heap st) (gfsetOld st) x (aAuto_mat st) (fadjoint_vec st) (b_mat st) (dJOmegaAuto_vec st) (scale st) (Jold st) (Jnew st) (converged st) (iteracion st) (objetivo st) (exports st).

Definition set_aAuto_mat (x : Matrix) (st : State) : State :=
  mkState (heap st) (gfsetOld st) (deformation st) x (fadjoint_vec st) (b_mat st) (dJOmegaAuto_vec st) (scale st) (Jold st) (Jnew st) (converged st) (iteracion st) (objetivo st) (exports st).

Definition set_fadjoint_vec (x : Vec) (st : State) : State :=
  mkState (heap st) (gfsetOld st) (deformation st) (aAuto_mat st) x (b_mat st) (dJOmegaAuto_vec st) (scale st) (Jold st) (Jnew st) (converged st) (iteracion st) (objetivo st) (exports st).

Definition set_b_mat (x : Matrix) (st : State) : State :=
  mkState (heap st) (gfsetOld st) (deformation st) (aAuto_mat st) (fadjoint_vec st) x (dJOmegaAuto_vec st) (scale st) (Jold st) (Jnew st) (converged st) (iteracion st) (objetivo st) (exports st).

Definition set_dJOmegaAuto_vec (x : Vec) (st : State) : State :=
  mkState (heap st) (gfsetOld st) (deformation st) (aAuto_mat st) (fadjoint_vec st) (b_mat st) x (scale st) (Jold st) (Jnew st) (converged st) (iteracion st) (objetivo st) (exports st).

Definition set_scale (x : Q) (st : State) : State :=
  mkState (heap st) (gfsetOld st) (deformation st) (aAuto_mat st) (fadjoint_vec st) (b_mat st) (dJOmegaAuto_vec st) x (Jold st) (Jnew st) (converged st) (iteracion st) (objetivo st) (exports st).

Definition set_Jold (x : Q) (st : State) : State :=
  mkState (heap st) (gfsetOld st) (deformation st) (aAuto_mat st) (fadjoint_vec st) (b_mat st) (dJOmegaAuto_vec st) (scale st) x (Jnew st) (converged st) (iteracion st) (objetivo st) (exports st).

Definition set_Jnew (x : Q) (st : State) : State :=
  mkState (heap st) (gfsetOld st) (deformation st) (aAuto_mat st) (fadjoint_vec st) (b_mat st) (dJOmegaAuto_vec st) (scale st) (Jold st) x (converged st) (iteracion st) (objetivo st) (exports st).

Definition set_converged (x : bool) (st : State) : State :=
  mkState (heap st) (gfsetOld st) (deformation st) (aAuto_mat st) (fadjoint_vec st) (b_mat st) (dJOmegaAuto_vec st) (scale st) (Jold st) (Jnew st) x (iteracion st) (objetivo st) (exports st).

Definition set_iteracion (x : list nat) (st : State) : State :=
  mkState (heap st) (gfsetOld st) (deformation st) (aAuto_mat st) (fadjoint_vec st) (b_mat st) (dJOmegaAuto_vec st) (scale st) (Jold st) (Jnew st) (converged st) x (objetivo st) (exports st).

Definition set_objetivo (x : list Q) (st : State) : State :=
  mkState (heap st) (gfsetOld st) (deformation st) (aAuto_mat st) (fadjoint_vec st) (b_mat st) (dJOmegaAuto_vec st) (scale st) (Jold st) (Jnew st) (converged st) (iteracion st) x (exports st).

Definition set_exports (x : nat) (st : State) : State :=
  mkState (heap st) (gfsetOld st) (deformation st) (aAuto_mat st) (fadjoint_vec st) (b_mat st) (dJOmegaAuto_vec st) (scale st) (Jold st) (Jnew st) (converged st) (iteracion st) (objetivo st) x.

Record Config := mkConfig {
  fes : Space;
  VEC : Space;
  gfu : nat;
  gfp : nat;
  gfX : nat;
  gfset : nat;
  LineSearch : bool;
  ShowObj : bool;
  VTKexport : bool;
  iter_max : nat
}.

(** The library calls of the loop.  Forms are assembled on the deformed mesh,
    so each takes the vector of the deformation in force. *)
Record Numerics := mkNumerics {
  (** [Newton(aAuto, gfu, fes.FreeDofs())] from the start vector: the state,
      and the linearisation left in [aAuto.mat] *)
  nm_Newton : list bool -> Vec -> Vec -> Vec * Matrix;
  (** [fadjoint.Assemble()] *)
  nm_fadjoint : Vec -> Vec -> Vec;
  (** [b.Assemble()] *)
  nm_b : Vec -> Matrix;
  (** [dJOmegaAuto.Assemble()] *)
  nm_dJOmegaAuto : Vec -> Vec -> Vec -> Vec;
  (** [Integrate(form, mesh)] of a form in the state *)
  nm_Integrate : (CF.Tensor -> result CF.Tensor) -> Vec -> Vec -> Q;
  (** [Norm(vec)] *)
  nm_Norm : Vec -> Q;
  (** the factorisation behind [mat.Inverse(freedofs)] *)
  nm_solve : Matrix -> list bool -> Vec -> Vec
}.

Inductive outcome :=
  | Done (st : State)
  | Raised (e : exn) (st : State).

Definition deref (st : State) (l : nat) : Vec := default [] (heap st !! l).

Definition store (l : nat) (x : Vec) (st : State) : State :=
  set_heap (<[l := x]> (heap st)) st.

(** the deformation the mesh carries: the current vector of the grid function
    given to [mesh.SetDeformation] *)
Definition mesh_deformation (st : State) : Vec :=
  match deformation st with
  | Some l => deref st l
  | None => []
  end.

(** [gfu.vec[:]=0] then [Newton(aAuto, gfu, fes.FreeDofs(), printing = False)] *)
Definition solve_state (nm : Numerics) (cfg : Config) (st : State) : State :=
  let st := store (gfu cfg) (zeros (length (deref st (gfu cfg)))) st in
  let '(x, A) := nm_Newton nm (FreeDofs (fes cfg)) (mesh_deformation st)
                           (deref st (gfu cfg)) in
  set_aAuto_mat A (store (gfu cfg) x st).

(** [def SolveAdjointEquation()] *)
Definition SolveAdjointEquation (nm : Numerics) (cfg : Config) (st : State) : State :=
  let At := transpose (sp_ndof (fes cfg)) (aAuto_mat st) in
  let rhs := vsub (fadjoint_vec st) (matvec At (deref st (gfp cfg))) in
  let update := Inverse_mul (nm_solve nm) At (FreeDofs (fes cfg)) rhs in
  store (gfp cfg) (vadd (deref st (gfp cfg)) update) st.

(** [def SolveDeformationEquationAuto()] *)
Definition SolveDeformationEquationAuto (nm : Numerics) (cfg : Config) (st : State)
    : State :=
  let rhs := vsub (dJOmegaAuto_vec st) (matvec (b_mat st) (deref st (gfX cfg))) in
  let update := Inverse_mul (nm_solve nm) (b_mat st) (FreeDofs (VEC cfg)) rhs in
  store (gfX cfg) (vadd (deref st (gfX cfg)) update) st.

(** a call [name()] of one of the two procedures *)
Definition call_proc (nm : Numerics) (cfg : Config) (g : Globals) (name : string)
    (st : State) : outcome :=
  match g !! name with
  | None => Raised (NameError name) st
  | Some (VFun Def_SolveAdjointEquation) => Done (SolveAdjointEquation nm cfg st)
  | Some (VFun Def_SolveDeformationEquationAuto) =>
      Done (SolveDeformationEquationAuto nm cfg st)
  | Some (VFun _) => Raised (TypeError "arguments") st
  | Some _ => Raised (TypeError "not callable") st
  end.

(** [Integrate(name(gfu), mesh)] *)
Definition Integrate_cost (nm : Numerics) (cfg : Config) (g : Globals)
    (name : string) (st : State) : result Q :=
  let form := fun gu => call recursion_limit g name [gu] in
  let* shape := form (jet_grad (proxy_jet (fes cfg))) in
  Ok (nm_Integrate nm form (deref st (gfu cfg)) (mesh_deformation st)).

(** [gf.components[c].Set(0, definedon = name)] on the vector of a grid
    function of [V].  [definedon] takes a region; [name] is a string, which
    the library does not take for one, and the value is set where [Set] sets
    it without the argument, on the whole domain: every degree of freedom of
    component [c] becomes [0], on the part [name] and off it. *)
Definition Set0_component (V : Space) (c : nat) (name : string) (x : Vec) : Vec :=
  set_zero_at (map (fun d => (c * sp_nscalar V + d)%nat) (seq 0 (sp_nscalar V))) x.

(** The deformation update:
<<
    scale = 0.01 / Norm(gfX.vec)
    gfsetOld = gfset
    gfset.vec.data -= scale * gfX.vec
    gfset.components[0].Set(0, definedon = 'left')
    gfset.components[0].Set(0, definedon = 'right')
>>  *)
Definition update_gfset (nm : Numerics) (cfg : Config) (st : State) : outcome :=
  let n := nm_Norm nm (deref st (gfX cfg)) in
  if Qeq_bool n 0 then Raised ZeroDivisionError st else
  let st := set_scale ((1 # 100) / n) st in
  let st := set_gfsetOld (gfset cfg) st in
  let st := store (gfset cfg)
                  (vsub (deref st (gfset cfg)) (vscale (scale st) (deref st (gfX cfg))))
                  st in
  let st := store (gfset cfg) (Set0_component (VEC cfg) 0 "left" (deref st (gfset cfg))) st in
  let st := store (gfset cfg) (Set0_component (VEC cfg) 0 "right" (deref st (gfset cfg))) st in
  Done st.

Definition Qgtb (x y : Q) : bool := negb (Qle_bool x y).

(** The line search:
<<
    while Jnew > Jold and scale > 1e-12:
        scale = scale / 2
        if scale <= 1e-7:
            converged = True
            break
        gfset.vec.data = gfsetOld.vec - scale * gfX.vec
        mesh.SetDeformation(gfset)
        gfu.vec[:]=0
        Newton(aAuto, gfu, fes.FreeDofs(), printing = False)
        Jnew = Integrate(CostAuto(gfu), mesh)
>>  [fuel] bounds the number of passes; [None] when it runs out. *)
Fixpoint line_search (fuel : nat) (nm : Numerics) (cfg : Config) (g : Globals)
    (st : State) : option outcome :=
  if Qgtb (Jnew st) (Jold st) && Qgtb (scale st) (1 # 1000000000000) then
    match fuel with
    | O => None
    | S fuel' =>
        let st := set_scale (scale st / 2) st in
        if Qle_bool (scale st) (1 # 10000000)
        then Some (Done (set_converged true st))
        else
          let st := store (gfset cfg)
                          (vsub (deref st (gfsetOld st))
                                (vscale (scale st) (deref st (gfX cfg))))
                          st in
          let st := set_deformation (Some (gfset cfg)) st in
          let st := solve_state nm cfg st in
          match Integrate_cost nm cfg g "CostAuto" st with
          | Raise e => Some (Raised e st)
          | Ok j => line_search fuel' nm cfg g (set_Jnew j st)
          end
    end
  else Some (Done st).

(** The first half of the body of [for k in range(iter_max)]: the record of
    the objective, the state and adjoint solves and the descent direction. *)
Definition descent (nm : Numerics) (cfg : Config) (g : Globals)
    (k : nat) (st : State) : outcome :=
  let st :=
    if ShowObj cfg
    then set_objetivo (objetivo st ++ [Jold st]) (set_iteracion (iteracion st ++ [k]) st)
    else st in
  let st := set_deformation (Some (gfset cfg)) st in
  let st := solve_state nm cfg st in
  let st := set_fadjoint_vec
              (nm_fadjoint nm (mesh_deformation st) (deref st (gfu cfg))) st in
  match call_proc nm cfg g "SolveAdjointEquation" st with
  | Raised e st => Raised e st
  | Done st =>
      let st := set_b_mat (nm_b nm (mesh_deformation st)) st in
      let st := set_dJOmegaAuto_vec
                  (nm_dJOmegaAuto nm (mesh_deformation st)
                                  (deref st (gfu cfg)) (deref st (gfp cfg))) st in
      call_proc nm cfg g "SolveDeformationEquationAuto" st
  end.

(** The body of the loop down to the test of [converged]. *)
Definition body (fuel : nat) (nm : Numerics) (cfg : Config) (g : Globals)
    (k : nat) (st : State) : option outcome :=
  match descent nm cfg g k st with
  | Raised e st => Some (Raised e st)
  | Done st =>
      match update_gfset nm cfg st with
      | Raised e st => Some (Raised e st)
      | Done st =>
          match Integrate_cost nm cfg g "CostAuto2" st with
          | Raise e => Some (Raised e st)
          | Ok j =>
              let st := set_Jnew j st in
              if LineSearch cfg then line_search fuel nm cfg g st
              else Some (Done st)
          end
      end
  end.

(** what follows the test of [converged] in an iteration that goes on:
    [Jold = Jnew], the export and the redraw *)
Definition accept (cfg : Config) (st : State) : State :=
  let st := set_Jold (Jnew st) st in
  if VTKexport cfg then set_exports (S (exports st)) st else st.

(** [for k in ks: ...] *)
Fixpoint loop (fuel : nat) (nm : Numerics) (cfg : Config) (g : Globals)
    (ks : list nat) (st : State) : option outcome :=
  match ks with
  | [] => Some (Done st)
  | k :: ks' =>
      match body fuel nm cfg g k st with
      | None => None
      | Some (Raised e st') => Some (Raised e st')
      | Some (Done st') =>
          if converged st' then Some (Done st')
          else loop fuel nm cfg g ks' (accept cfg st')
      end
  end.

(** The cell: reset to the initial configuration, solve, then iterate. *)
Definition optimise (fuel : nat) (nm : Numerics) (cfg : Config) (g : Globals)
    (st : State) : option outcome :=
  let st := store (gfset cfg) (zeros (length (deref st (gfset cfg)))) st in
  let st := set_deformation (Some (gfset cfg)) st in
  let st := solve_state nm cfg st in
  let st := if VTKexport cfg then set_exports (S (exports st)) st else st in
  match Integrate_cost nm cfg g "CostAuto2" st with
  | Raise e => Some (Raised e st)
  | Ok j =>
      let st := set_converged false (set_Jold j st) in
      let st := if ShowObj cfg then set_objetivo [] (set_iteracion [] st) else st in
      loop fuel nm cfg g (seq 0 (iter_max cfg)) st
  end.

(** [scale] after [n] passes of the line search *)
Definition halved (n : nat) (s : Q) : Q := Nat.iter n (fun s => s / 2) s.

Definition state_of (o : outcome) : State :=
  match o with
  | Done st => st
  | Raised _ st => st
  end.

(** The names the notebook has bound when the loop runs: the numbers and the
    mesh of the set-up cells and the functions of the definitions cell. *)
Definition notebook_globals (m : Mesh) : Globals :=
  <["lam" := VNum 1000]> (
  <["mu" := VNum 1000]> (
  <["mesh" := VMesh m]> (
  <["sigma" := VFun Def_sigma]> (
  <["epsilon" := VFun Def_epsilon]> (
  <["EquationFA" := VFun Def_EquationFA]> (
  <["CostAutoFA" := VFun Def_CostAutoFA]> (
  <["CostAuto2" := VFun Def_CostAuto2]> (
  <["SolveAdjointEquation" := VFun Def_SolveAdjointEquation]> (
  <["SolveDeformationEquationAuto" := VFun Def_SolveDeformationEquationAuto]> ∅))))))))).

End ShapeOpt.

(** What a run leaves for the reader of the notebook: the flag [converged],
    the number of exported frames, the objective of the accepted iterate and
    the two records behind the plot. *)
Module Run.

Definition record (st : ShapeOpt.State) : bool * nat * Q * list nat * list Q :=
  (ShapeOpt.converged st, ShapeOpt.exports st, ShapeOpt.Jold st,
   ShapeOpt.iteracion st, ShapeOpt.objetivo st).

End Run.

(** ** The parameter sweeps

    Three cells of the beam notebook solve the beam for every pair of
    [llam] and [lmu] and keep one entry of each solution in an array:
<<
    order = 2
    i_lam = 0
    max_strain = np.zeros((3,3))
    for lam in llam:
        i_mu = 0
        for mu in lmu:
            viga = Beam(mesh,order,lam,mu,b,T)
            viga.freebnd = 'top'
            viga.solve()
            max_strain[i_lam,i_mu] = min(viga.gfu.vec)
            i_mu += 1
        i_lam += 1
>>  The cells differ in the loads [b] and [T], in the name of the free
    boundary and in taking [min] or [max].  [mesh] is the name an earlier
    cell has bound.  Of the names the loops bind, [order], [lam] and [mu]
    hold numbers and enter the namespace; the loads, the array, the counters
    and [viga] are the arguments and the state of the loops. *)

Module Sweep.

Inductive sweep_exn :=
  (** raised by the constructor or by [viga.solve()] *)
  | Solve (e : exn)
  (** [min()] or [max()] of an empty vector *)
  | ValueError
  (** an index beyond the three rows or columns of the array *)
  | TableIndexError.

Abbreviation Table := (list (list Q)).

(** [np.zeros((3,3))] *)
Definition zeros33 : Table := replicate 3 (replicate 3 0).

(** [min(vec)] and [max(vec)]: the first least and the first greatest entry *)
Definition py_min (x : Vec) : option Q :=
  match x with
  | [] => None
  | a :: l => Some (foldl (fun m y => if Qle_bool m y then m else y) a l)
  end.

Definition py_max (x : Vec) : option Q :=
  match x with
  | [] => None
  | a :: l => Some (foldl (fun m y => if Qle_bool y m then m else y) a l)
  end.

(** [max_strain[i, j] = v] *)
Definition setitem (t : Table) (i j : nat) (v : Q) : option Table :=
  match t !! i with
  | Some row =>
      if decide (j < length row)%nat then Some (<[i := <[j := v]> row]> t) else None
  | None => None
  end.

(** [max_strain[i, j]] *)
Definition getitem (t : Table) (i j : nat) : option Q :=
  match t !! i with
  | Some row => row !! j
  | None => None
  end.

(** the instance [viga] of one pass, before [viga.solve()] *)
Definition viga (m : Mesh) (lam mu : Q) (b T : Field) (free : string) : Beam.Beam :=
  Beam.set_freebnd free (Beam.init m 2 lam mu b T).

(** [for mu in lmu: ...] with [i_mu] the counter *)
Fixpoint inner (bk : Backend) (b T : Field) (free : string) (pick : Vec -> option Q)
    (lam : Q) (i_lam : nat) (lmu : list Q) (i_mu : nat) (g : Globals) (t : Table)
    : sweep_exn + (Globals * Table) :=
  match lmu with
  | [] => inr (g, t)
  | mu :: rest =>
      let g := <["mu" := VNum mu]> g in
      match lookup_mesh g "mesh" "dim" with
      | Raise e => inl (Solve e)
      | Ok m =>
          match Beam.solve bk g (viga m lam mu b T free) with
          | Raise e => inl (Solve e)
          | Ok (g', viga') =>
              match Beam.gfu viga' with
              | None => inl (Solve (AttributeError "gfu"))
              | Some gf =>
                  match pick (gf_vec gf) with
                  | None => inl ValueError
                  | Some v =>
                      match setitem t i_lam i_mu v with
                      | None => inl TableIndexError
                      | Some t' => inner bk b T free pick lam i_lam rest (S i_mu) g' t'
                      end
                  end
              end
          end
      end
  end.

(** [for lam in llam: ...] with [i_lam] the counter *)
Fixpoint outer (bk : Backend) (b T : Field) (free : string) (pick : Vec -> option Q)
    (llam lmu : list Q) (i_lam : nat) (g : Globals) (t : Table)
    : sweep_exn + (Globals * Table) :=
  match llam with
  | [] => inr (g, t)
  | lam :: rest =>
      let g := <["lam" := VNum lam]> g in
      match inner bk b T free pick lam i_lam lmu 0 g t with
      | inl e => inl e
      | inr (g', t') => outer bk b T free pick rest lmu (S i_lam) g' t'
      end
  end.

(** the cell: the namespace and the array it leaves *)
Definition sweep (bk : Backend) (b T : Field) (free : string) (pick : Vec -> option Q)
    (llam lmu : list Q) (g : Globals) : sweep_exn + (Globals * Table) :=
  outer bk b T free pick llam lmu 0 (<["order" := VNum 2]> g) zeros33.

(** the first cell, the beam under its own weight, and the second, the beam
    pulled at its end *)
Definition own_weight (bk : Backend) (llam lmu : list Q) (g : Globals)
    : sweep_exn + (Globals * Table) :=
  sweep bk (fun _ => CF.mkT [3%nat] [0; -3; 0]) (fun _ => CF.mkT [3%nat] [0; 0; 0])
        "top" py_min llam lmu g.

Definition pulled (bk : Backend) (llam lmu : list Q) (g : Globals)
    : sweep_exn + (Globals * Table) :=
  sweep bk (fun _ => CF.mkT [3%nat] [0; 0; 0]) (fun _ => CF.mkT [3%nat] [10000; 0; 0])
        "end" py_max llam lmu g.

(** the names the three cells assign, from [llam] in the first line to [df]
    in the last; [sigma] and [epsilon] are assigned by [viga.solve()] *)
Definition assigned : list string :=
  ["llam"; "lmu"; "order"; "b"; "T"; "i_lam"; "i_mu"; "max_strain"; "lam"; "mu";
   "viga"; "sigma"; "epsilon"; "df"; "pi"].

(** the library assembles the same matrix from integrands that take the same
    values *)
Definition extensional (bk : Backend) : Prop :=
  forall V (f f' : Jet -> Jet -> result CF.Tensor),
    (forall pu pv, f pu pv = f' pu pv) ->
    bk_assemble_bilinear bk V f = bk_assemble_bilinear bk V f'.

End Sweep.

(** ** A small instance

    The rectangle of the shape-optimisation notebook with six vertices, one
    scalar degree of freedom per vertex: the corners 0 to 3 counter-clockwise
    from the origin, 4 and 5 the midpoints of the bottom and top sides. *)

Module Toy.

Definition mesh : Mesh :=
  mkMesh 2 ["bottom"; "right"; "top"; "left"] (fun _ => 6%nat)
         (fun _ part => [[0; 4; 1]; [1; 2]; [2; 5; 3]; [3; 0]] !!! part)%nat.

(** the same rectangle with its parts numbered in another order *)
Definition other_mesh : Mesh :=
  mkMesh 2 ["left"; "top"; "right"; "bottom"] (fun _ => 6%nat)
         (fun _ part => [[3; 0]; [2; 5; 3]; [1; 2]; [0; 4; 1]] !!! part)%nat.

Definition no_load : Field := fun _ => CF.mkT [2%nat] [0; 0].

Definition backend : Backend :=
  mkBackend (fun _ => mesh)
            (fun V _ => replicate (sp_ndof V) (zeros (sp_ndof V)))
            (fun V _ _ _ => zeros (sp_ndof V))
            (fun _ free _ => replicate (length free) 1).

Definition beam : Beam.Beam := Beam.init mesh 2 1000 1000 no_load no_load.

Definition globals : Globals := {[ "mesh" := VMesh mesh ]}.

(** the namespace and the instance after [beam.solve()] *)
Definition solved : Globals * Beam.Beam :=
  match Beam.solve backend globals beam with
  | Ok r => r
  | Raise _ => (globals, beam)
  end.

(** [grad u] of the displacement [(0, y, 0)] and of [(x, 0, 0)], and of
    [(0, y)] and [(x, 0)] in the plane *)
Definition grad_y3 : CF.Tensor :=
  CF.matrix 3 3 (fun i j => if decide (i = 1 /\ j = 1)%nat then 1 else 0).
Definition grad_x3 : CF.Tensor :=
  CF.matrix 3 3 (fun i j => if decide (i = 0 /\ j = 0)%nat then 1 else 0).
Definition grad_y2 : CF.Tensor :=
  CF.matrix 2 2 (fun i j => if decide (i = 1 /\ j = 1)%nat then 1 else 0).
Definition grad_x2 : CF.Tensor :=
  CF.matrix 2 2 (fun i j => if decide (i = 0 /\ j = 0)%nat then 1 else 0).

(** a brick clamped at 'wall', with the eight corners as degrees of freedom *)
Definition brick : Mesh :=
  mkMesh 3 ["wall"; "top"; "bottom"; "left"; "right"; "end"] (fun _ => 8%nat)
         (fun _ part => [[0; 1; 2; 3]; [2; 3; 6; 7]; [0; 1; 4; 5];
                         [0; 3; 4; 7]; [1; 2; 5; 6]; [4; 5; 6; 7]] !!! part)%nat.

Definition no_load3 : Field := fun _ => CF.mkT [3%nat] [0; 0; 0].

(** the beam of the first demonstration cell *)
Definition viga : Beam.Beam := Beam.init brick 2 1000 1000 no_load3 no_load3.

(** the integrand of the bilinear form [viga.a] after [viga.solve()] *)
Definition assembled_integrand (self : Beam.Beam) (pu pv : Jet) : result CF.Tensor :=
  let* '(_, self') := Beam.solve backend {[ "mesh" := VMesh (Beam.mesh self) ]} self in
  let* a := from_attr "a" (Beam.a self') in
  bf_integrand a pu pv.

(** a proxy at a point where its value is zero and its gradient is [grad] *)
Definition jet_of (n : nat) (grad : CF.Tensor) : Jet :=
  mkJet (CF.mkT [n] (zeros n)) grad.

Definition norm1 (x : Vec) : Q := foldr Qplus 0 (map Qabs x).

(** [e 9]: the vertical displacement of vertex 3, a corner of 'left' *)
Definition e (i : nat) : Vec := <[i := 1]> (zeros 12).

(** The state solve returns the zero field, the descent direction moves
    vertex 3 upwards, and the objective grows with the size of the
    deformation. *)
Definition numerics : ShapeOpt.Numerics :=
  ShapeOpt.mkNumerics
    (fun _ _ start => (start, []))
    (fun _ _ => zeros 12)
    (fun _ => [])
    (fun _ _ _ => zeros 12)
    (fun _ _ deformation => 1 + norm1 deformation)
    norm1
    (fun _ free _ => if decide (length free = 12)%nat then e 9 else zeros 12).

Definition config (line_search : bool) : ShapeOpt.Config :=
  ShapeOpt.mkConfig (VectorH1 mesh 2 (Some "left|right")) (VectorH1 mesh 2 None)
                    0 1 2 3 line_search true true 1000.

Definition state : ShapeOpt.State :=
  ShapeOpt.mkState
    (<[0%nat := zeros 12]> (<[1%nat := zeros 12]> (<[2%nat := zeros 12]>
      (<[3%nat := zeros 12]> ∅))))
    3 None [] [] [] [] 0 0 0 false [] [] 0.

(** the same with a vanishing shape derivative: the descent direction is
    the zero vector *)
Definition still_numerics : ShapeOpt.Numerics :=
  ShapeOpt.mkNumerics
    (fun _ _ start => (start, []))
    (fun _ _ => zeros 12)
    (fun _ => [])
    (fun _ _ _ => zeros 12)
    (fun _ _ deformation => 1 + norm1 deformation)
    norm1
    (fun _ free _ => zeros (length free)).

(** the state of the first iteration when the descent direction is known *)
Definition after_descent (nm : ShapeOpt.Numerics) : ShapeOpt.State :=
  ShapeOpt.state_of (ShapeOpt.descent nm (config true) (ShapeOpt.notebook_globals mesh) 0 state).

(** the state in which the first iteration starts: no deformation yet and
    the objective 1 of the undeformed rectangle *)
Definition start : ShapeOpt.State := ShapeOpt.set_Jold 1 state.

(** a state in the line search: the objective went up and the step is
    [1.5e-7] *)
Definition tiny_step : ShapeOpt.State :=
  ShapeOpt.set_Jnew 2 (ShapeOpt.set_Jold 1 (ShapeOpt.set_scale (15 # 100000000) state)).

(** the names of the notebook, and [CostAuto] bound to what [CostAuto2] is *)
Definition repaired_globals : Globals :=
  <["CostAuto" := VFun Def_CostAuto2]> (ShapeOpt.notebook_globals mesh).

End Toy.

(** ** The three-dimensional demonstration: [main(order, maxh)]

    The notebook copies the surface of a brick, triangle by triangle, into a
    new Netgen mesh and lets the mesher fill it.  The dictionary [pmap1]
    sends the number a point has in the brick to the number [ngmesh.Add]
    gave its copy; Netgen numbers points from 1 in the order they are added. *)

Module Solid.

Inductive copy_exn :=
  | KeyError (v : nat)
  | PointIndexError (v : nat).

Record FaceDescriptor := mkFD {
  fd_bc : nat;
  fd_domin : nat;
  fd_domout : nat;
  fd_surfnr : nat
}.

(** what [main] reads of [m1]: the points, and the corners of each of
    [m1.Elements2D()] *)
Record SurfaceMesh := mkSM {
  sm_points : list (list Q);
  sm_elements : list (list nat)
}.

Record NgMesh := mkNg {
  ng_points : list (list Q);
  ng_faces : list FaceDescriptor;
  ng_elements : list (nat * list nat)
}.

(** [ngm.Mesh()] *)
Definition new_mesh : NgMesh := mkNg [] [] [].

(** [m1[v]] *)
Definition point_of (m1 : SurfaceMesh) (v : nat) : option (list Q) :=
  match v with
  | O => None
  | S i => sm_points m1 !! i
  end.

(** [ngmesh[v]] *)
Definition ng_point_of (ng : NgMesh) (v : nat) : option (list Q) :=
  match v with
  | O => None
  | S i => ng_points ng !! i
  end.

(** [ngmesh.Add(point)], [ngmesh.Add(face_descriptor)] and
    [ngmesh.Add(element)] *)
Definition Add_point (p : list Q) (ng : NgMesh) : nat * NgMesh :=
  (S (length (ng_points ng)),
   mkNg (ng_points ng ++ [p]) (ng_faces ng) (ng_elements ng)).

Definition Add_face (fd : FaceDescriptor) (ng : NgMesh) : nat * NgMesh :=
  (S (length (ng_faces ng)),
   mkNg (ng_points ng) (ng_faces ng ++ [fd]) (ng_elements ng)).

Definition Add_element (fd : nat) (vs : list nat) (ng : NgMesh) : NgMesh :=
  mkNg (ng_points ng) (ng_faces ng) (ng_elements ng ++ [(fd, vs)]).

(** [for x in xs: body], left when the body raises *)
Fixpoint for_each {S X : Type} (body : S -> X -> copy_exn + S) (xs : list X) (st : S)
    : copy_exn + S :=
  match xs with
  | [] => inr st
  | x :: xs' =>
      match body st x with
      | inl e => inl e
      | inr st' => for_each body xs' st'
      end
  end.

(** [if (v not in pmap1): pmap1[v] = ngmesh.Add (m1[v])] *)
Definition visit (m1 : SurfaceMesh) (st : gmap nat nat * NgMesh) (v : nat)
    : copy_exn + (gmap nat nat * NgMesh) :=
  match fst st !! v with
  | Some _ => inr st
  | None =>
      match point_of m1 v with
      | None => inl (PointIndexError v)
      | Some p =>
          let '(id, ng) := Add_point p (snd st) in
          inr (<[v := id]> (fst st), ng)
      end
  end.

(** the first loop over [m1.Elements2D()] *)
Definition number_points (m1 : SurfaceMesh) (st : gmap nat nat * NgMesh)
    : copy_exn + (gmap nat nat * NgMesh) :=
  for_each (fun st e => for_each (visit m1) e st) (sm_elements m1) st.

(** [[pmap1[v] for v in e.vertices]] *)
Fixpoint lookup_all (pmap1 : gmap nat nat) (vs : list nat) : copy_exn + list nat :=
  match vs with
  | [] => inr []
  | v :: vs' =>
      match pmap1 !! v with
      | None => inl (KeyError v)
      | Some id =>
          match lookup_all pmap1 vs' with
          | inl e => inl e
          | inr ids => inr (id :: ids)
          end
      end
  end.

(** the second loop: [ngmesh.Add (ngm.Element2D (fd, [pmap1[v] ...]))] *)
Definition copy_elements (fd : nat) (pmap1 : gmap nat nat) (es : list (list nat))
    (ng : NgMesh) : copy_exn + NgMesh :=
  for_each (fun ng e =>
              match lookup_all pmap1 e with
              | inl err => inl err
              | inr ids => inr (Add_element fd ids ng)
              end) es ng.

(** from [ngmesh = ngm.Mesh()] to the end of the second loop *)
Definition copy_surface (m1 : SurfaceMesh) : copy_exn + (gmap nat nat * NgMesh) :=
  let ngmesh := new_mesh in
  let '(fd_outside, ngmesh) := Add_face (mkFD 1 1 0 1) ngmesh in
  let '(fd_inside, ngmesh) := Add_face (mkFD 2 2 1 2) ngmesh in
  match number_points m1 (∅, ngmesh) with
  | inl e => inl e
  | inr (pmap1, ngmesh) =>
      match copy_elements fd_outside pmap1 (sm_elements m1) ngmesh with
      | inl e => inl e
      | inr ngmesh => inr (pmap1, ngmesh)
      end
  end.

(** The library calls of this notebook that the others do not make. *)
Record Mesher := mkMesher {
  (** [geo1.GenerateMesh (maxh=0.1)] after [m1.Refine()] *)
  ms_brick : SurfaceMesh;
  (** [ngmesh.GenerateVolumeMesh()] and [Mesh(ngmesh)] *)
  ms_volume : NgMesh -> Mesh;
  ms_sin : Q -> Q;
  ms_pi : Q;
  (** the values [gfu.Set(g, BND)] finds for the degrees of freedom *)
  ms_interpolate : Space -> Field -> Vec
}.

(** [g = sin(2*pi*x)*sin(2*pi*y)] *)
Definition g (ms : Mesher) : Field :=
  fun p => CF.scalar (ms_sin ms (2 * ms_pi ms * (p !!! 0%nat))
                      * ms_sin ms (2 * ms_pi ms * (p !!! 1%nat))).

Definition set_values_at (dofs : list nat) (vals : Vec) (x : Vec) : Vec :=
  foldr (fun d acc => <[d := vals !!! d]> acc) x dofs.

(** [gfu.Set(g, BND)]: the degrees of freedom of the boundary take the
    interpolated values, the others keep theirs *)
Definition Set_BND (gf : GridFunction) (vals : Vec) : GridFunction :=
  let V := gf_space gf in
  mkGF V (set_values_at
            (region_dofs V (replicate (length (mesh_bnd_names (sp_mesh V))) true))
            vals (gf_vec gf)).

(** [10*v*dx] *)
Definition f_integrand (_ : Point) (v : Jet) : result CF.Tensor :=
  Ok (CF.scale 10 (jet_val v)).

(** [main]; its space has order 1 and the mesh size is 0.1 whatever the
    arguments are *)
Definition main (bk : Backend) (ms : Mesher) (order : nat) (maxh : Q)
    : copy_exn + (GridFunction * Mesh) :=
  match copy_surface (ms_brick ms) with
  | inl e => inl e
  | inr (pmap1, ngmesh) =>
      let mesh := ms_volume ms ngmesh in
      let fes := H1 mesh 1 (Some "default") in
      let gfu := new_GridFunction fes in
      let a_mat := bk_assemble_bilinear bk fes Poisson.a_integrand in
      let f_vec := bk_assemble_linear bk fes f_integrand Poisson.no_term [] in
      let gfu := Set_BND gfu (ms_interpolate ms fes (g ms)) in
      inr (mkGF fes (eliminate (bk_solve bk) a_mat f_vec (FreeDofs fes) (gf_vec gfu)),
           mesh)
  end.

(** what holds of [pmap1] and [ngmesh] while the first loop runs on a mesh
    that had [n0] points: the copies are the points after the first [n0],
    one for each key, each with the coordinates of the point it copies *)
Definition numbered (m1 : SurfaceMesh) (n0 : nat) (pmap1 : gmap nat nat) (ng : NgMesh)
    : Prop :=
  length (ng_points ng) = (n0 + size pmap1)%nat /\
  (forall v id, pmap1 !! v = Some id ->
     (n0 < id <= length (ng_points ng))%nat /\
     exists p, point_of m1 v = Some p /\ ng_point_of ng id = Some p) /\
  (forall v w id, pmap1 !! v = Some id -> pmap1 !! w = Some id -> v = w) /\
  (forall id, (n0 < id <= length (ng_points ng))%nat -> exists v, pmap1 !! v = Some id).

(** every corner of every element is the number of a point of [m1] *)
Definition corners_valid (m1 : SurfaceMesh) : Prop :=
  forall e v, e ∈ sm_elements m1 -> v ∈ e -> (1 <= v <= length (sm_points m1))%nat.

End Solid.

(** ** More instances *)

Module Cases.

(** two triangles that share an edge, among five points of which the third
    is used by no triangle *)
Definition two_triangles : Solid.SurfaceMesh :=
  Solid.mkSM [[0; 0; 0]; [1; 0; 0]; [5; 5; 5]; [0; 1; 0]; [1; 1; 0]]
             [[4; 1; 2]; [2; 5; 4]]%nat.

(** [pmap1] and [ngmesh] after the copy of the two triangles *)
Definition copied : gmap nat nat * Solid.NgMesh :=
  match Solid.copy_surface two_triangles with
  | inr r => r
  | inl _ => (∅, Solid.new_mesh)
  end.

(** a solid whose whole boundary is the part 'default', with four degrees of
    freedom of which three lie on the boundary *)
Definition solid_mesh : Mesh :=
  mkMesh 3 ["default"] (fun _ => 4%nat) (fun _ _ => [0; 1; 2]%nat).

Definition mesher : Solid.Mesher :=
  Solid.mkMesher two_triangles (fun _ => solid_mesh) (fun t => t) 3
                 (fun _ _ => [7; 8; 9; 10]).

(** the set-up of the optimisation cell as the notebook has it, line search
    off, with three iterations instead of a thousand *)
Definition short_config : ShapeOpt.Config :=
  ShapeOpt.mkConfig (VectorH1 Toy.mesh 2 (Some "left|right")) (VectorH1 Toy.mesh 2 None)
                    0 1 2 3 false true true 3.

(** the numerics of the small instance with the descent direction [e i];
    [e 3] moves vertex 3, a corner of 'left', in the first coordinate *)
Definition numerics_towards (i : nat) : ShapeOpt.Numerics :=
  ShapeOpt.mkNumerics
    (fun _ _ start => (start, []))
    (fun _ _ => zeros 12)
    (fun _ => [])
    (fun _ _ _ => zeros 12)
    (fun _ _ deformation => 1 + Toy.norm1 deformation)
    Toy.norm1
    (fun _ free _ => if decide (length free = 12)%nat then Toy.e i else zeros 12).

(** a state in the line search whose step has just been halved for nothing:
    the objective is back below its old value *)
Definition good_step : ShapeOpt.State :=
  ShapeOpt.set_Jnew 2 (ShapeOpt.set_Jold 1 (ShapeOpt.set_scale 1 Toy.state)).

(** a gradient with two rows and three columns *)
Definition wide_gradient : CF.Tensor :=
  CF.matrix 2 3 (fun i j => inject_Z (Z.of_nat (3 * i + j))).

(** the namespace of the sweeps: [mesh] is the brick *)
Definition brick_globals : Globals := {[ "mesh" := VMesh Toy.brick ]}.

Definition llam : list Q := [60000; 75000; 90000].
Definition lmu : list Q := [70000; 85000; 100000].

End Cases.

(** * Properties *)

Lemma call_unbound depth (g : Globals) name args :
  g !! name = None -> call (S depth) g name args = Raise (NameError name).
Proof. intros H. simpl. rewrite H. reflexivity. Qed.

Arguments Py.call : simpl never.
Arguments Beam.a_integrand : simpl never.
Arguments ShapeOpt.Integrate_cost : simpl never.

(** ** Facts about the linear-algebra layer *)

Lemma Qplus_0_r_eq (x : Q) : x + 0 = x.
Proof.
  destruct x as [n d]. unfold Qplus. simpl.
  rewrite Z.mul_1_r, Z.add_0_r, Pos.mul_1_r. reflexivity.
Qed.

Lemma length_mask free x : length (mask free x) = length free.
Proof. unfold mask. apply length_imap. Qed.

Lemma lookup_mask free x i :
  mask free x !! i = (fun fr : bool => if fr then x !!! i else 0) <$> free !! i.
Proof. unfold mask. rewrite list_lookup_imap. reflexivity. Qed.

Lemma lookup_mask_fixed free x i :
  free !! i = Some false -> mask free x !! i = Some 0.
Proof. intros H. rewrite lookup_mask, H. reflexivity. Qed.

Lemma lookup_vadd x y i :
  vadd x y !! i = match x !! i, y !! i with
                  | Some a, Some b => Some (a + b)
                  | _, _ => None
                  end.
Proof.
  unfold vadd. rewrite lookup_zip_with.
  destruct (x !! i), (y !! i); reflexivity.
Qed.

Lemma eliminate_fixed solver A f free (ug : Vec) i :
  free !! i = Some false -> eliminate solver A f free ug !! i = ug !! i.
Proof.
  intros Hi. unfold eliminate, Inverse_mul.
  rewrite lookup_vadd, (lookup_mask_fixed _ _ _ Hi).
  destruct (ug !! i); [rewrite Qplus_0_r_eq|]; reflexivity.
Qed.

(** ** The Dirichlet elimination *)

Lemma lookup_vsub (x y : Vec) i :
  vsub x y !! i = match x !! i, y !! i with
                  | Some a, Some b => Some (a - b)
                  | _, _ => None
                  end.
Proof.
  unfold vsub. rewrite lookup_zip_with.
  destruct (x !! i), (y !! i); reflexivity.
Qed.

Lemma lookup_matvec (A : Matrix) (x : Vec) i :
  matvec A x !! i = (fun row => dot row x) <$> A !! i.
Proof. unfold matvec. apply list_lookup_fmap. Qed.

(** a row applied to a sum of two vectors of one length *)
Lemma dot_vadd (row x y : Vec) :
  length x = length y -> dot row (vadd x y) == dot row x + dot row y.
Proof.
  revert x y. induction row as [|c row IH]; intros [|a x] [|b y] H;
    try discriminate H; try (unfold dot; cbn; ring).
  injection H as H. specialize (IH x y H).
  change (dot (c :: row) (vadd (a :: x) (b :: y)))
    with (c * (a + b) + dot row (vadd x y)).
  change (dot (c :: row) (a :: x)) with (c * a + dot row x).
  change (dot (c :: row) (b :: y)) with (c * b + dot row y).
  rewrite IH. ring.
Qed.

(** C1. Dirichlet elimination round trip.  The solve computes the residual
    [r = f - A u_g], entry by entry; the update is the solver's answer on
    the free degrees of freedom and zero on the others; the result is the
    sum of [u_g] and the update, entry by entry; hence it keeps, bit for
    bit, the value [u_g] holds at every constrained degree of freedom, and
    when the solver's answer satisfies the rows of the free degrees of
    freedom for the residual, the result satisfies those rows of the system
    [A u = f]. *)
Theorem dirichlet_roundtrip solver A f free (ug : Vec) :
  let r := vsub f (matvec A ug) in
  let du := mask free (solver A free r) in
  let u := eliminate solver A f free ug in
  (forall i fi row,
     f !! i = Some fi -> A !! i = Some row ->
     r !! i = Some (fi - foldr Qplus 0 (zip_with Qmult row ug))) /\
  (forall i, free !! i = Some false -> du !! i = Some 0) /\
  (forall i, free !! i = Some true -> du !! i = Some (solver A free r !!! i)) /\
  (forall i ui di, ug !! i = Some ui -> du !! i = Some di -> u !! i = Some (ui + di)) /\
  (forall i, free !! i = Some false -> u !! i = ug !! i) /\
  (length ug = length free ->
   (forall i row ri,
      free !! i = Some true -> A !! i = Some row -> r !! i = Some ri ->
      dot row du == ri) ->
   forall i row fi,
     free !! i = Some true -> A !! i = Some row -> f !! i = Some fi ->
     dot row u == fi).
Proof.
  cbv zeta.
  assert (Hr : forall i fi row,
            f !! i = Some fi -> A !! i = Some row ->
            vsub f (matvec A ug) !! i = Some (fi - dot row ug)).
  { intros i fi row Hf HA. rewrite lookup_vsub, lookup_matvec, Hf, HA. reflexivity. }
  split; [exact Hr|]. split; [intros i Hi; apply lookup_mask_fixed, Hi|].
  split; [intros i Hi; rewrite lookup_mask, Hi; reflexivity|].
  split.
  { intros i ui di Hu Hd. unfold eliminate, Inverse_mul.
    rewrite lookup_vadd, Hu, Hd. reflexivity. }
  split; [intros i Hi; apply eliminate_fixed, Hi|].
  intros Hlen Hsolved i row fi Hi HA Hf.
  unfold eliminate, Inverse_mul.
  rewrite dot_vadd by (rewrite length_mask; exact Hlen).
  rewrite (Hsolved i row _ Hi HA (Hr i fi row Hf HA)). ring.
Qed.

Lemma dirichlet_roundtrip_witness :
  let halve : Matrix -> list bool -> Vec -> Vec := fun _ _ r => map (fun x => x / 2) r in
  (exists r0, vsub [1; 1] (matvec [[2; 0]; [0; 2]] [3; 0]) !! 0%nat = Some r0 /\ r0 == - (5)) /\
  eliminate halve [[2; 0]; [0; 2]] [1; 1] [false; true] [3; 0] !! 0%nat = Some 3 /\
  (exists u1, eliminate halve [[2; 0]; [0; 2]] [1; 1] [false; true] [3; 0] !! 1%nat = Some u1
              /\ u1 == 1 # 2) /\
  dot [0; 2] (eliminate halve [[2; 0]; [0; 2]] [1; 1] [false; true] [3; 0]) == 1.
Proof.
  intros halve.
  destruct (dirichlet_roundtrip halve [[2; 0]; [0; 2]] [1; 1] [false; true] [3; 0])
    as (Hres & _ & Hfree & Hsum & Hkeep & Hsolved).
  split; [|split; [|split]].
  - eexists. split; [exact (Hres 0%nat 1 [2; 0] eq_refl eq_refl)|]. vm_compute. reflexivity.
  - exact (Hkeep 0%nat eq_refl).
  - eexists. split; [exact (Hsum 1%nat 0 _ eq_refl (Hfree 1%nat eq_refl))|].
    vm_compute. reflexivity.
  - apply (Hsolved eq_refl) with (i := 1%nat); try reflexivity.
    intros [|[|i]] row ri Hfr HA Hri; try discriminate.
    injection HA as <-. injection Hri as <-. vm_compute. reflexivity.
Defined.

(** The same holds of the field [main] returns and of the field
    [Beam.solve_system] stores. *)
Lemma main_fixed bk order maxh i :
  let gfu := fst (Poisson.main bk order maxh) in
  FreeDofs (gf_space gfu) !! i = Some false ->
  gf_vec gfu !! i
  = gf_vec (Set0_BND (new_GridFunction (gf_space gfu))) !! i.
Proof. simpl. intros Hi. apply eliminate_fixed, Hi. Qed.

Lemma rbind_Ok {A B} (m : result A) (k : A -> result B) b :
  rbind m k = Ok b -> exists x, m = Ok x /\ k x = Ok b.
Proof. destruct m; simpl; [eauto | discriminate]. Qed.

Ltac ok_cases H :=
  repeat (let x := fresh "x" in
          let E := fresh "E" in
          apply rbind_Ok in H as (x & E & H); cbv beta in H).

Lemma from_attr_Ok {A} attr (o : option A) x : from_attr attr o = Ok x -> o = Some x.
Proof. destruct o; simpl; congruence. Qed.

Ltac attrs :=
  repeat match goal with
         | H : from_attr _ _ = Ok _ |- _ => apply from_attr_Ok in H
         end.

Lemma solve_system_fixed bk g self self' i :
  Beam.solve_system bk g self = Ok self' ->
  exists V reg gfu,
    Beam.V self = Some V /\ Beam.dirichlet_region g self = Ok reg /\
    Beam.gfu self' = Some gfu /\
    (FreeDofs V !! i = Some false ->
     gf_vec gfu !! i = gf_vec (Set0 (new_GridFunction V) reg) !! i).
Proof.
  unfold Beam.solve_system. intros H. ok_cases H.
  attrs. inversion H; subst; clear H. simpl.
  eexists _, _, _. repeat split; eauto.
  intros Hi. apply eliminate_fixed, Hi.
Qed.

(** ** The forms of the elasticity problem *)

(** C2. The integrand [Beam.define_forms] gives the bilinear form is not
    [sigma(u) : epsilon(v)] with [sigma = lam tr(eps) I + 2 mu eps]: the
    factor of [lam] is the sum of the components 0, 1 and 2 of [epsilon(u)]
    as stored, which is its first row in three dimensions and
    [e00 + e01 + e10] in two.  For [u = (0, y, 0)] and [v = (x, 0, 0)] the
    integrand of the assembled form is 0 where Hooke's law gives
    [lam = 1000]; the same holds in the plane for a [Beam] and for the
    [EquationFA] of the optimisation cell. *)
Theorem elasticity_integrand_not_hooke :
  (exists c h,
     Toy.assembled_integrand Toy.viga (Toy.jet_of 3 Toy.grad_y3) (Toy.jet_of 3 Toy.grad_x3)
       = Ok c /\
     CF.hooke_integrand 1000 1000 3 Toy.grad_y3 Toy.grad_x3 = Ok h /\
     CF.value c == 0 /\ CF.value h == 1000) /\
  (exists c h,
     Toy.assembled_integrand Toy.beam (Toy.jet_of 2 Toy.grad_y2) (Toy.jet_of 2 Toy.grad_x2)
       = Ok c /\
     CF.hooke_integrand 1000 1000 2 Toy.grad_y2 Toy.grad_x2 = Ok h /\
     CF.value c == 0 /\ CF.value h == 1000) /\
  (exists c,
     call recursion_limit (ShapeOpt.notebook_globals Toy.mesh) "EquationFA"
          [Toy.grad_y2; Toy.grad_x2] = Ok c /\
     CF.value c == 0).
Proof.
  split; [|split].
  - eexists _, _.
    split; [vm_compute; reflexivity|].
    split; [vm_compute; reflexivity|].
    split; vm_compute; reflexivity.
  - eexists _, _.
    split; [vm_compute; reflexivity|].
    split; [vm_compute; reflexivity|].
    split; vm_compute; reflexivity.
  - eexists. split; vm_compute; reflexivity.
Qed.

(** The linear form is the one stated: [b . v] on the volume and [T . v] on
    the boundary parts the pattern [freebnd] names. *)
Lemma define_forms_linear_form bk g self g' self' :
  Beam.define_forms bk g self = Ok (g', self') ->
  exists V free lf,
    Beam.V self = Some V /\ Beam.freebnd self = Some free /\
    Beam.f self' = Some lf /\
    lf_dx lf = (fun x pv => CF.mul (Beam.b self x) (jet_val pv)) /\
    lf_ds lf = (fun x pv => CF.mul (Beam.T self x) (jet_val pv)) /\
    lf_definedon lf = map (matches free) (mesh_bnd_names (sp_mesh V)).
Proof.
  unfold Beam.define_forms. intros H. ok_cases H. attrs.
  injection H as _ <-. cbn [Beam.f].
  eexists _, _, _.
  split; [eassumption|]. split; [eassumption|]. split; [reflexivity|].
  split; [reflexivity|]. split; reflexivity.
Qed.

(** ** Boundary names *)

Lemma accepts_Alt r s x :
  Regex.accepts (Regex.Alt r s) x = Regex.accepts r x || Regex.accepts s x.
Proof.
  revert r s. induction x as [|c x IH]; intros r s; [reflexivity|].
  cbn [Regex.accepts Regex.deriv]. apply IH.
Qed.

Lemma accepts_Cat_Void r x : Regex.accepts (Regex.Cat Regex.Void r) x = false.
Proof. induction x as [|c x IH]; [reflexivity|]. exact IH. Qed.

Lemma accepts_Cat_Eps r x :
  Regex.accepts (Regex.Cat Regex.Eps r) x = Regex.accepts r x.
Proof.
  destruct x as [|c x]; [reflexivity|].
  cbn [Regex.accepts Regex.deriv Regex.nullable].
  rewrite accepts_Alt, accepts_Cat_Void. reflexivity.
Qed.

(** the expression of a name matches that name and no other *)
Lemma accepts_literal s :
  forall x, Regex.accepts (Regex.literal s) x = true <-> x = s.
Proof.
  induction s as [|c s IH]; intros [|d x]; cbn [Regex.literal Regex.accepts Regex.deriv
                                                  Regex.nullable andb].
  - split; reflexivity.
  - split; [|discriminate]. change (Regex.accepts Regex.Void x = true -> String d x = "").
    intros H. exfalso. clear -H. induction x as [|e x IHx]; [discriminate | exact (IHx H)].
  - split; discriminate.
  - destruct (Ascii.eqb d c) eqn:E.
    + apply Ascii.eqb_eq in E as ->. rewrite accepts_Cat_Eps, IH.
      split; [intros ->; reflexivity | intros H; injection H as ->; reflexivity].
    + rewrite accepts_Cat_Void. split; [discriminate|].
      intros H. injection H as -> _. rewrite Ascii.eqb_refl in E. discriminate.
Qed.

Lemma not_syntax_character c :
  Regex.syntax_character c = false ->
  Ascii.eqb c "|" = false /\ Ascii.eqb c ")" = false /\ Ascii.eqb c "(" = false /\
  Ascii.eqb c "." = false /\ Ascii.eqb c "[" = false /\ Ascii.eqb c "\" = false /\
  Ascii.eqb c "*" = false /\ Ascii.eqb c "+" = false /\ Ascii.eqb c "?" = false.
Proof.
  unfold Regex.syntax_character. cbn [String.list_ascii_of_string existsb].
  intros H. repeat (apply orb_false_iff in H as [? H]). repeat split; assumption.
Qed.

Lemma quantified_plain a s :
  Regex.plain s = true -> Regex.quantified a s = (a, s).
Proof.
  destruct s as [|c s]; [reflexivity|]. cbn [Regex.plain]. intros H.
  apply andb_true_iff in H as [H _]. apply negb_true_iff in H.
  destruct (not_syntax_character c H) as (_ & _ & _ & _ & _ & _ & H1 & H2 & H3).
  cbn [Regex.quantified]. rewrite H1, H2, H3. reflexivity.
Qed.

Lemma alternative_S n c rest :
  Regex.alternative (S n) (String c rest)
  = if Ascii.eqb c "|" || Ascii.eqb c ")" then Some (Regex.Eps, String c rest)
    else match Regex.atom n (String c rest) with
         | Some (a, rest1) =>
             let '(t, rest2) := Regex.quantified a rest1 in
             match Regex.alternative n rest2 with
             | Some (r, rest') => Some (Regex.Cat t r, rest')
             | None => None
             end
         | None => None
         end.
Proof. reflexivity. Qed.

Lemma atom_plain n c rest :
  Regex.syntax_character c = false ->
  Regex.atom (S n) (String c rest) = Some (Regex.Chr c, rest).
Proof.
  intros Hc. destruct (not_syntax_character c Hc) as (_ & _ & E3 & E4 & E5 & E6 & _).
  cbn [Regex.atom]. rewrite E3, E4, E5, E6, Hc. reflexivity.
Qed.

Lemma alternative_plain s :
  forall n, Regex.plain s = true -> (String.length s <= n)%nat ->
    Regex.alternative (S n) s = Some (Regex.literal s, EmptyString).
Proof.
  induction s as [|c s IH]; intros n Hp Hn; [reflexivity|].
  cbn [Regex.plain] in Hp. apply andb_true_iff in Hp as [Hc Hp].
  apply negb_true_iff in Hc.
  destruct (not_syntax_character c Hc) as (E1 & E2 & _).
  cbn [String.length] in Hn. destruct n as [|n]; [lia|].
  rewrite alternative_S, E1, E2, (atom_plain _ _ _ Hc), (quantified_plain _ _ Hp).
  cbv beta iota zeta. rewrite (IH n Hp) by lia. reflexivity.
Qed.

Lemma parse_plain s : Regex.plain s = true -> Regex.parse s = Some (Regex.literal s).
Proof.
  intros Hp. unfold Regex.parse.
  replace (4 * String.length s + 4)%nat with (S (S (4 * String.length s + 2))) by lia.
  cbn [Regex.disjunction]. rewrite (alternative_plain s _ Hp) by lia. reflexivity.
Qed.

(** a pattern that is a name selects the parts of that name *)
Lemma matches_plain pattern nm :
  Regex.plain pattern = true -> (matches pattern nm = true <-> nm = pattern).
Proof.
  intros Hp. unfold matches, Regex.matches. rewrite (parse_plain _ Hp).
  apply accepts_literal.
Qed.

(** the patterns of the notebooks, and some that are not names *)
Example patterns_on_the_rectangle :
  reg_mask (Boundaries Toy.mesh "left|right") = [false; true; false; true] /\
  reg_mask (Boundaries Toy.mesh "bottom|right|top|left") = [true; true; true; true] /\
  reg_mask (Boundaries Toy.mesh "le.*") = [false; false; false; true] /\
  reg_mask (Boundaries Toy.mesh ".*") = [true; true; true; true] /\
  reg_mask (Boundaries Toy.mesh "[bt]o(p|ttom)") = [true; false; true; false] /\
  reg_mask (Boundaries Toy.mesh "lef") = [false; false; false; false] /\
  reg_mask (Boundaries Toy.brick "top|bottom|left|right|end")
  = [false; true; true; true; true; true].
Proof. repeat split; vm_compute; reflexivity. Qed.

Lemma Boundaries_no_match m pattern :
  (forall nm, nm ∈ mesh_bnd_names m -> matches pattern nm = false) ->
  reg_mask (Boundaries m pattern) = replicate (length (mesh_bnd_names m)) false.
Proof.
  simpl. induction (mesh_bnd_names m) as [|nm l IH]; intros H; simpl; [reflexivity|].
  f_equal.
  - apply H. left.
  - apply IH. intros nm' Hin. apply H. right. exact Hin.
Qed.

Lemma masked_dofs_false m order n : masked_dofs m order (replicate n false) = [].
Proof.
  unfold masked_dofs. induction (seq 0 (length (mesh_bnd_names m))) as [|i l IH].
  - reflexivity.
  - simpl. rewrite IH.
    destruct (replicate n false !! i) as [fl|] eqn:E; simpl; [|reflexivity].
    apply lookup_replicate in E as [-> _]. reflexivity.
Qed.

Lemma map_not_in_nil (fixed l : list nat) :
  fixed = [] ->
  map (fun d => bool_decide (d ∉ fixed)) l = replicate (length l) true.
Proof.
  intros ->. induction l as [|d l IH]; [reflexivity|].
  cbn [map length replicate]. rewrite IH. reflexivity.
Qed.

Lemma H1_free_no_match m order pattern :
  (forall nm, nm ∈ mesh_bnd_names m -> matches pattern nm = false) ->
  H1_free m order (Some pattern) = replicate (mesh_ndof m order) true.
Proof.
  intros H. unfold H1_free. cbv zeta.
  rewrite map_not_in_nil, length_seq; [reflexivity|].
  rewrite (Boundaries_no_match _ _ H). apply masked_dofs_false.
Qed.

Lemma concat_replicate_replicate {A} (d n : nat) (x : A) :
  concat (replicate d (replicate n x)) = replicate (d * n) x.
Proof.
  induction d as [|d IH]; simpl; [reflexivity|].
  rewrite IH, replicate_add. reflexivity.
Qed.




(** ** Repeated solves *)

Lemma rebind_same (g : Globals) s e :
  <["epsilon" := e]> (<["sigma" := s]> (<["epsilon" := e]> (<["sigma" := s]> g)))
  = <["epsilon" := e]> (<["sigma" := s]> g).
Proof.
  apply map_eq. intros k. rewrite !lookup_insert.
  repeat case_decide; congruence.
Qed.

Ltac beam_steps :=
  cbn [Beam.solve Beam.define_space Beam.define_forms Beam.solve_system
       Beam.dirichlet_region rbind from_attr
       Beam.mesh Beam.order Beam.lam Beam.mu Beam.b Beam.T Beam.freebnd
       Beam.fixedbnd Beam.V Beam.u Beam.v Beam.a Beam.f Beam.gfu].

(** [solve] reads the arguments of the constructor and the two boundary
    names, and of the namespace what is left after it has bound [sigma] and
    [epsilon]; nothing it stored before enters its result. *)
Lemma solve_from_inputs bk g g' s s' :
  Beam.same_inputs s s' ->
  <["epsilon" := VFun Lambda_epsilon]>
    (<["sigma" := VFun (Lambda_sigma (Beam.lam s) (Beam.mu s) (mesh_dim (Beam.mesh s)))]> g)
  = <["epsilon" := VFun Lambda_epsilon]>
    (<["sigma" := VFun (Lambda_sigma (Beam.lam s) (Beam.mu s) (mesh_dim (Beam.mesh s)))]> g') ->
  Beam.solve bk g s = Beam.solve bk g' s'.
Proof.
  destruct s as [m o l mu0 b0 T0 fb xb V0 u0 v0 a0 f0 gf0].
  destruct s' as [m' o' l' mu0' b0' T0' fb' xb' V0' u0' v0' a0' f0' gf0'].
  unfold Beam.same_inputs. beam_steps.
  intros (<- & <- & <- & <- & <- & <- & <- & <-) Hg.
  destruct xb; beam_steps; [|reflexivity].
  rewrite Hg.
  destruct (Beam.a_integrand _ _ _); beam_steps; [|reflexivity].
  destruct (Beam.load_integrand b0 _ _); beam_steps; [|reflexivity].
  destruct (Beam.load_integrand T0 _ _); beam_steps; [|reflexivity].
  destruct fb; beam_steps; [|reflexivity].
  unfold Beam.dirichlet_region.
  destruct (lookup_mesh _ _ _); beam_steps; reflexivity.
Qed.

Lemma solve_Ok_inv bk g self g1 self1 :
  Beam.solve bk g self = Ok (g1, self1) ->
  g1 = <["epsilon" := VFun Lambda_epsilon]>
         (<["sigma" := VFun (Lambda_sigma (Beam.lam self) (Beam.mu self)
                                          (mesh_dim (Beam.mesh self)))]> g)
  /\ Beam.same_inputs self self1
  /\ exists V a f gfu,
       Beam.V self1 = Some V /\ Beam.a self1 = Some a /\
       Beam.f self1 = Some f /\ Beam.gfu self1 = Some gfu.
Proof.
  destruct self as [m o l mu0 b0 T0 fb xb V0 u0 v0 a0 f0 gf0]. beam_steps.
  destruct xb; beam_steps; [|discriminate].
  destruct (Beam.a_integrand _ _ _); beam_steps; [|discriminate].
  destruct (Beam.load_integrand b0 _ _); beam_steps; [|discriminate].
  destruct (Beam.load_integrand T0 _ _); beam_steps; [|discriminate].
  destruct fb; beam_steps; [|discriminate].
  unfold Beam.dirichlet_region.
  destruct (lookup_mesh _ _ _); beam_steps; [|discriminate].
  intros H. injection H as <- <-.
  split; [reflexivity|]. split; [repeat split|].
  eexists _, _, _, _. repeat split.
Qed.



(** ** The mesh behind the Dirichlet data of [solve_system] *)

Lemma lookup_mesh_Ok g name attr m :
  lookup_mesh g name attr = Ok m -> g !! name = Some (VMesh m).
Proof.
  unfold lookup_mesh. destruct (g !! name) as [[q|m'|fn]|]; try discriminate.
  intros H. injection H as ->. reflexivity.
Qed.

Lemma dirichlet_region_Ok g self reg :
  Beam.dirichlet_region g self = Ok reg ->
  exists m fixed,
    g !! "mesh" = Some (VMesh m) /\ Beam.fixedbnd self = Some fixed /\
    reg = Boundaries m fixed.
Proof.
  unfold Beam.dirichlet_region. intros H.
  apply rbind_Ok in H as (m & Hm & H). apply rbind_Ok in H as (fixed & Hf & H).
  apply lookup_mesh_Ok in Hm. apply from_attr_Ok in Hf. injection H as <-.
  exists m, fixed. auto.
Qed.

Lemma set_zero_at_fresh dofs n : set_zero_at dofs (zeros n) = zeros n.
Proof.
  unfold set_zero_at, zeros. induction dofs as [|d dofs IH]; [reflexivity|].
  cbn [foldr]. rewrite IH. apply insert_replicate.
Qed.

(** [Set] of the value zero on a field just created changes nothing, whatever
    the region *)
Lemma Set0_fresh V reg : Set0 (new_GridFunction V) reg = new_GridFunction V.
Proof.
  unfold Set0, new_GridFunction. cbn [gf_space gf_vec].
  rewrite set_zero_at_fresh. reflexivity.
Qed.

(** C9, as the code has it.  [solve_system] takes the region it hands to
    [gfu.Set] from the mesh bound to the name [mesh] in the module
    namespace, not from [self.mesh]: when the call succeeds the region is
    [Boundaries m fixedbnd] for that mesh [m], and with the name unbound the
    call raises [NameError] although the instance has its mesh.  But which
    mesh the name is bound to makes no difference to the result: [Set]
    writes zeros into the zero field just created, and the solution is zero
    at the constrained degrees of freedom of the instance's own space [V]
    for every mesh the name holds. *)
Theorem solve_system_reads_global_mesh bk g self :
  (forall self',
     Beam.solve_system bk g self = Ok self' ->
     exists m fixed V,
       g !! "mesh" = Some (VMesh m) /\
       Beam.fixedbnd self = Some fixed /\
       Beam.V self = Some V /\
       Beam.dirichlet_region g self = Ok (Boundaries m fixed) /\
       (exists a f,
          Beam.a self = Some a /\ Beam.f self = Some f /\
          Beam.gfu self'
          = Some (mkGF V (eliminate (bk_solve bk) (bf_mat a) (lf_vec f) (FreeDofs V)
                            (gf_vec (Set0 (new_GridFunction V) (Boundaries m fixed)))))) /\
       (forall d, FreeDofs V !! d = Some false -> (d < sp_ndof V)%nat ->
                  exists gfu, Beam.gfu self' = Some gfu /\ gf_vec gfu !! d = Some 0)) /\
  (is_Some (Beam.V self) -> g !! "mesh" = None ->
   Beam.solve_system bk g self = Raise (NameError "mesh")) /\
  (forall m m',
     Beam.solve_system bk (<["mesh" := VMesh m]> g) self
     = Beam.solve_system bk (<["mesh" := VMesh m']> g) self).
Proof.
  split; [|split].
  - intros self' H. unfold Beam.solve_system in H.
    apply rbind_Ok in H as (V & HV & H). apply rbind_Ok in H as (reg & Hreg & H).
    apply rbind_Ok in H as (f & Hf & H). apply rbind_Ok in H as (a & Ha & H).
    attrs. injection H as <-.
    destruct (dirichlet_region_Ok _ _ _ Hreg) as (m & fixed & Hm & Hfix & ->).
    exists m, fixed, V. split; [exact Hm|]. split; [exact Hfix|]. split; [exact HV|].
    split; [exact Hreg|]. split.
    + exists a, f. split; [exact Ha|]. split; [exact Hf|]. reflexivity.
    + intros d Hd Hlt. eexists. split; [reflexivity|]. cbv zeta. cbn [gf_vec].
      rewrite (eliminate_fixed _ _ _ _ _ _ Hd), set_zero_at_fresh.
      unfold zeros. apply lookup_replicate_2. exact Hlt.
  - intros [V HV] Hm. unfold Beam.solve_system, Beam.dirichlet_region, lookup_mesh.
    rewrite HV, Hm. reflexivity.
  - intros m m'. unfold Beam.solve_system, Beam.dirichlet_region, lookup_mesh.
    rewrite !lookup_insert_eq.
    destruct (Beam.V self) as [V|]; cbn [from_attr rbind]; [|reflexivity].
    destruct (Beam.fixedbnd self) as [fixed|]; cbn [from_attr rbind]; [|reflexivity].
    rewrite !Set0_fresh. reflexivity.
Qed.

Lemma solve_system_reads_global_mesh_witness :
  exists m fixed V,
    fst Toy.solved !! "mesh" = Some (VMesh m) /\
    Beam.fixedbnd (snd Toy.solved) = Some fixed /\
    Beam.V (snd Toy.solved) = Some V /\
    Beam.dirichlet_region (fst Toy.solved) (snd Toy.solved) = Ok (Boundaries m fixed) /\
    (exists a f,
       Beam.a (snd Toy.solved) = Some a /\ Beam.f (snd Toy.solved) = Some f /\
       Beam.gfu (snd Toy.solved)
       = Some (mkGF V (eliminate (bk_solve Toy.backend) (bf_mat a) (lf_vec f) (FreeDofs V)
                         (gf_vec (Set0 (new_GridFunction V) (Boundaries m fixed)))))) /\
    (forall d, FreeDofs V !! d = Some false -> (d < sp_ndof V)%nat ->
               exists gfu, Beam.gfu (snd Toy.solved) = Some gfu /\ gf_vec gfu !! d = Some 0).
Proof.
  apply (proj1 (solve_system_reads_global_mesh Toy.backend (fst Toy.solved)
                                               (snd Toy.solved))).
  vm_compute. reflexivity.
Defined.

(** C9, as stated, fails: the name [mesh] holds a mesh that is not the one
    of the instance and numbers the parts in another order, so that [Set]
    is handed the degrees of freedom of 'bottom' where the instance has
    'left'; the precondition of the claim does not hold, and still the
    solution is the one obtained with the instance's own mesh: zero at the
    four degrees of freedom of 'left', the fixed boundary of the instance,
    and not at degree of freedom 4, which [Set] was handed. *)
Lemma prescribed_values_without_the_precondition :
  Toy.other_mesh <> Beam.mesh Toy.beam /\
  region_dofs (VectorH1 Toy.mesh 2 (Some "left")) (reg_mask (Boundaries Toy.mesh "left"))
  = [3; 0; 9; 6]%nat /\
  region_dofs (VectorH1 Toy.mesh 2 (Some "left")) (reg_mask (Boundaries Toy.other_mesh "left"))
  = [0; 4; 1; 6; 10; 7]%nat /\
  exists r gfu,
    Beam.solve Toy.backend {[ "mesh" := VMesh Toy.other_mesh ]} Toy.beam = Ok r /\
    Beam.gfu (snd r) = Some gfu /\
    Beam.gfu (snd r) = Beam.gfu (snd Toy.solved) /\
    gf_vec gfu !! 3%nat = Some 0 /\ gf_vec gfu !! 0%nat = Some 0 /\
    gf_vec gfu !! 9%nat = Some 0 /\ gf_vec gfu !! 6%nat = Some 0 /\
    (exists v, gf_vec gfu !! 4%nat = Some v /\ ~ v == 0).
Proof.
  split; [intros H; discriminate (f_equal mesh_bnd_names H)|].
  split; [vm_compute; reflexivity|]. split; [vm_compute; reflexivity|].
  eexists _, _. split; [vm_compute; reflexivity|].
  split; [vm_compute; reflexivity|]. split; [vm_compute; reflexivity|].
  split; [vm_compute; reflexivity|]. split; [vm_compute; reflexivity|].
  split; [vm_compute; reflexivity|]. split; [vm_compute; reflexivity|].
  eexists. split; [vm_compute; reflexivity|]. vm_compute. discriminate.
Qed.

(** ** The shape-optimisation loop *)

Import ShapeOpt.

Lemma deref_store l x st : deref (store l x st) l = x.
Proof. unfold deref, store. simpl. rewrite lookup_insert_eq. reflexivity. Qed.

Lemma norm1_zeros n : Toy.norm1 (zeros n) == 0.
Proof.
  unfold Toy.norm1, zeros. induction n as [|n IH]; simpl; [reflexivity|].
  rewrite IH. reflexivity.
Qed.

Lemma update_gfset_raises nm cfg st :
  nm_Norm nm (deref st (gfX cfg)) == 0 ->
  update_gfset nm cfg st = Raised ZeroDivisionError st.
Proof.
  intros H. unfold update_gfset.
  rewrite (proj2 (Qeq_bool_iff _ _) H). reflexivity.
Qed.

Lemma update_gfset_done nm cfg st :
  ~ nm_Norm nm (deref st (gfX cfg)) == 0 ->
  exists st', update_gfset nm cfg st = Done st'.
Proof.
  intros H. unfold update_gfset.
  destruct (Qeq_bool _ 0) eqn:E; [|eexists; reflexivity].
  apply Qeq_bool_iff in E. contradiction.
Qed.

(** C10. The step scale is [0.01 / Norm(gfX.vec)] with no test of the
    norm: when the descent direction is the zero vector the division raises
    [ZeroDivisionError], which leaves the iteration and the loop; the
    division is the only way the update can fail. *)
Theorem scale_division_by_zero nm cfg g fuel k ks st st1 n :
  (forall n, nm_Norm nm (zeros n) == 0) ->
  descent nm cfg g k st = Done st1 ->
  deref st1 (gfX cfg) = zeros n ->
  update_gfset nm cfg st1 = Raised ZeroDivisionError st1 /\
  body fuel nm cfg g k st = Some (Raised ZeroDivisionError st1) /\
  loop fuel nm cfg g (k :: ks) st = Some (Raised ZeroDivisionError st1) /\
  (forall st2,
     ~ nm_Norm nm (deref st2 (gfX cfg)) == 0 ->
     exists st3, update_gfset nm cfg st2 = Done st3).
Proof.
  intros Hnorm Hdesc HX.
  assert (Hup : update_gfset nm cfg st1 = Raised ZeroDivisionError st1).
  { apply update_gfset_raises. rewrite HX. apply Hnorm. }
  assert (Hbody : body fuel nm cfg g k st = Some (Raised ZeroDivisionError st1)).
  { unfold body. rewrite Hdesc, Hup. reflexivity. }
  split; [exact Hup|]. split; [exact Hbody|]. split.
  - cbn [loop]. rewrite Hbody. reflexivity.
  - intros st2. apply update_gfset_done.
Qed.

Lemma scale_division_by_zero_witness :
  loop 0 Toy.still_numerics (Toy.config true) (notebook_globals Toy.mesh) [0%nat] Toy.state
  = Some (Raised ZeroDivisionError (Toy.after_descent Toy.still_numerics)).
Proof.
  refine (proj1 (proj2 (proj2
    (scale_division_by_zero Toy.still_numerics (Toy.config true)
       (notebook_globals Toy.mesh) 0 0 [] Toy.state
       (Toy.after_descent Toy.still_numerics) 12 _ _ _)))).
  - exact norm1_zeros.
  - vm_compute. reflexivity.
  - vm_compute. reflexivity.
Defined.

(** *** The anchors of the deformation *)

Lemma length_set_zero_at dofs (x : Vec) : length (set_zero_at dofs x) = length x.
Proof.
  unfold set_zero_at. induction dofs as [|d dofs IH]; simpl; [reflexivity|].
  rewrite length_insert. exact IH.
Qed.

Lemma lookup_set_zero_at_in dofs (x : Vec) d :
  d ∈ dofs -> (d < length x)%nat -> set_zero_at dofs x !! d = Some 0.
Proof.
  unfold set_zero_at. intros Hin Hlt.
  induction dofs as [|d' dofs IH]; [by apply elem_of_nil in Hin|].
  cbn [foldr]. destruct (decide (d' = d)) as [->|Hne].
  - apply list_lookup_insert_eq. fold (set_zero_at dofs x).
    rewrite length_set_zero_at. exact Hlt.
  - rewrite list_lookup_insert_ne by exact Hne.
    apply IH. apply elem_of_cons in Hin as [->|Hin]; [congruence | exact Hin].
Qed.

Lemma lookup_set_zero_at_keep dofs (x : Vec) d :
  x !! d = Some 0 -> set_zero_at dofs x !! d = Some 0.
Proof.
  unfold set_zero_at. intros Hx.
  induction dofs as [|d' dofs IH]; [exact Hx|].
  cbn [foldr]. destruct (decide (d' = d)) as [->|Hne].
  - apply list_lookup_insert_eq. apply lookup_lt_Some in IH. exact IH.
  - rewrite list_lookup_insert_ne by exact Hne. exact IH.
Qed.

Lemma lookup_set_zero_at_notin dofs (x : Vec) d :
  d ∉ dofs -> set_zero_at dofs x !! d = x !! d.
Proof.
  unfold set_zero_at. intros Hnot.
  induction dofs as [|d' dofs IH]; [reflexivity|].
  cbn [foldr]. apply not_elem_of_cons in Hnot as [Hne Hnot].
  rewrite list_lookup_insert_ne by congruence. apply IH, Hnot.
Qed.

Lemma component_dofs_0_lt V mask d :
  d ∈ component_dofs V 0 mask -> (d < sp_nscalar V)%nat.
Proof.
  unfold component_dofs. intros H.
  apply list_elem_of_fmap in H as (x & -> & Hx).
  apply list_elem_of_filter in Hx as [Hlt _]. simpl. exact Hlt.
Qed.

Lemma elem_of_component_0 V d :
  d ∈ map (fun d => (0 * sp_nscalar V + d)%nat) (seq 0 (sp_nscalar V)) <->
  (d < sp_nscalar V)%nat.
Proof.
  rewrite list_elem_of_fmap. split.
  - intros (x & -> & Hx). apply elem_of_seq in Hx. simpl. lia.
  - intros H. exists d. split; [reflexivity|]. apply elem_of_seq. lia.
Qed.

(** what the two calls of [Set] do to a vector: component 0 becomes zero,
    the other components stay *)
Lemma Set0_component_0 V name (x : Vec) d :
  ((d < sp_nscalar V)%nat -> (d < length x)%nat ->
   Set0_component V 0 name x !! d = Some 0) /\
  ((sp_nscalar V <= d)%nat -> Set0_component V 0 name x !! d = x !! d).
Proof.
  unfold Set0_component. split.
  - intros Hd Hlt. apply lookup_set_zero_at_in; [|exact Hlt].
    apply elem_of_component_0. exact Hd.
  - intros Hd. apply lookup_set_zero_at_notin. rewrite elem_of_component_0. lia.
Qed.

(** C4, as the code has it.  After the update [gfset -= scale * gfX], with
    [scale = 0.01 / Norm(gfX.vec)], component 0 of [gfset] is zero on 'left'
    and on 'right'; the degrees of freedom of the other components, on the
    two parts as elsewhere, keep the value the subtraction gave them.  The
    update is carried out whenever the norm is not zero. *)
Theorem update_rezeroes_component_0 nm cfg st :
  (~ nm_Norm nm (deref st (gfX cfg)) == 0 ->
   exists st', update_gfset nm cfg st = Done st') /\
  (forall st',
     update_gfset nm cfg st = Done st' ->
     scale st' = (1 # 100) / nm_Norm nm (deref st (gfX cfg)) /\
     let left := component_dofs (VEC cfg) 0 (reg_mask (Boundaries (sp_mesh (VEC cfg)) "left")) in
     let right := component_dofs (VEC cfg) 0 (reg_mask (Boundaries (sp_mesh (VEC cfg)) "right")) in
     let stepped := vsub (deref st (gfset cfg)) (vscale (scale st') (deref st (gfX cfg))) in
     (forall d, d ∈ left \/ d ∈ right -> (d < length stepped)%nat ->
                deref st' (gfset cfg) !! d = Some 0) /\
     (forall d, (sp_nscalar (VEC cfg) <= d)%nat ->
                deref st' (gfset cfg) !! d = stepped !! d)).
Proof.
  split; [apply update_gfset_done|].
  intros st'. unfold update_gfset.
  destruct (Qeq_bool _ 0) eqn:E; [discriminate|].
  intros H. injection H as <-. split; [reflexivity|].
  cbv zeta. rewrite !deref_store. cbn [scale set_scale set_gfsetOld store set_heap].
  change (deref (set_gfsetOld (gfset cfg)
                   (set_scale ((1 # 100) / nm_Norm nm (deref st (gfX cfg))) st)))
    with (deref st).
  split.
  - intros d Hd Hlt.
    assert (Hlow : (d < sp_nscalar (VEC cfg))%nat)
      by (destruct Hd as [Hd|Hd]; exact (component_dofs_0_lt _ _ _ Hd)).
    apply (proj1 (Set0_component_0 _ _ _ _)); [exact Hlow|].
    unfold Set0_component. rewrite length_set_zero_at. exact Hlt.
  - intros d Hd.
    rewrite (proj2 (Set0_component_0 _ _ _ _) Hd).
    apply (proj2 (Set0_component_0 _ _ _ _) Hd).
Qed.

Lemma update_rezeroes_component_0_witness :
  exists st' v,
    update_gfset (Cases.numerics_towards 3) (Toy.config true)
                 (Toy.after_descent (Cases.numerics_towards 3))
    = Done st' /\
    vsub (deref (Toy.after_descent (Cases.numerics_towards 3)) 3)
         (vscale (scale st') (deref (Toy.after_descent (Cases.numerics_towards 3)) 2))
      !! 3%nat = Some v /\
    v == - (1 # 100) /\
    deref st' 3 !! 3%nat = Some 0.
Proof.
  assert (Hn : ~ nm_Norm (Cases.numerics_towards 3)
                   (deref (Toy.after_descent (Cases.numerics_towards 3))
                          (gfX (Toy.config true))) == 0).
  { vm_compute. discriminate. }
  destruct (update_rezeroes_component_0 (Cases.numerics_towards 3) (Toy.config true)
              (Toy.after_descent (Cases.numerics_towards 3))) as [Hdone Hzero].
  destruct (Hdone Hn) as [st' Hup].
  destruct (Hzero st' Hup) as (_ & Hz & _).
  assert (Hst := Hup). revert Hst. vm_compute. intros Hst. injection Hst as Hst.
  eexists st', _. split; [exact Hup|].
  split; [rewrite <- Hst; vm_compute; reflexivity|].
  split; [vm_compute; reflexivity|].
  apply Hz; [left; apply elem_of_cons; left; reflexivity|].
  rewrite <- Hst. vm_compute. lia.
Defined.

(** C4, as stated, fails: vertex 3 lies on 'left', and after the update the
    second component of the deformation there is [-0.01], not zero. *)
Lemma anchor_moves_in_second_component :
  exists st' v,
    update_gfset Toy.numerics (Toy.config true) (Toy.after_descent Toy.numerics)
    = Done st' /\
    (9%nat ∈ component_dofs (VEC (Toy.config true)) 1
               (reg_mask (Boundaries Toy.mesh "left"))) /\
    deref st' (gfset (Toy.config true)) !! 9%nat = Some v /\
    v == - (1 # 100) /\ ~ v == 0.
Proof.
  eexists _, _. split; [vm_compute; reflexivity|].
  split; [apply elem_of_cons; left; reflexivity|].
  split; [vm_compute; reflexivity|].
  split; [vm_compute; reflexivity | vm_compute; discriminate].
Qed.

(** *** The line search *)

Lemma CostAuto_unbound nm cfg m st :
  Integrate_cost nm cfg (notebook_globals m) "CostAuto" st
  = Raise (NameError "CostAuto").
Proof.
  unfold Integrate_cost.
  assert (H : forall args, call recursion_limit (notebook_globals m) "CostAuto" args
                           = Raise (NameError "CostAuto")).
  { intros args. apply call_unbound. vm_compute. reflexivity. }
  rewrite H. reflexivity.
Qed.

(** With the names of the notebook the line search never evaluates the
    objective again: a pass ends in the convergence break or in the
    [NameError] of [CostAuto]. *)
Lemma line_search_notebook fuel nm cfg m st :
  line_search (S fuel) nm cfg (notebook_globals m) st
  = if Qgtb (Jnew st) (Jold st) && Qgtb (scale st) (1 # 1000000000000)
    then if Qle_bool (scale st / 2) (1 # 10000000)
         then Some (Done (set_converged true (set_scale (scale st / 2) st)))
         else
           let st := set_scale (scale st / 2) st in
           let st := store (gfset cfg)
                           (vsub (deref st (gfsetOld st))
                                 (vscale (scale st) (deref st (gfX cfg))))
                           st in
           Some (Raised (NameError "CostAuto")
                        (solve_state nm cfg (set_deformation (Some (gfset cfg)) st)))
    else Some (Done st).
Proof.
  cbn [line_search]. rewrite CostAuto_unbound. reflexivity.
Qed.

(** C3, on the code.  Line search enabled, the first step raises the
    objective from 1 to 1.01: the line search halves [scale] to 0.005 and
    then stops with [NameError: CostAuto]; no second value of [J] is ever
    computed and no iteration is completed. *)
Theorem line_search_raises_NameError fuel :
  exists st,
    optimise (S fuel) Toy.numerics (Toy.config true) (notebook_globals Toy.mesh) Toy.state
    = Some (Raised (NameError "CostAuto") st) /\
    Jold st == 1 /\ Jnew st == 101 # 100 /\ scale st == 1 # 200 /\
    iteracion st = [0%nat] /\ converged st = false.
Proof.
  eexists. split; [vm_compute; reflexivity|].
  repeat split; vm_compute; reflexivity.
Qed.

Lemma update_gfset_alias nm cfg st st' :
  update_gfset nm cfg st = Done st' -> gfsetOld st' = gfset cfg.
Proof.
  unfold update_gfset. destruct (Qeq_bool _ 0); [discriminate|].
  intros H. injection H as <-. reflexivity.
Qed.

(** C5, on the code.  [gfsetOld = gfset] binds a second name to the same
    grid function.  The iteration starts with [gfset] zero and finds [gfX]
    with 1 at entry 9; the update makes the entry [-0.01], and the retry
    with the halved step 0.005 computes [gfsetOld.vec - scale * gfX.vec] from
    that updated vector: the entry becomes [-0.015], not [0 - 0.005], and
    that is the value [gfset] holds when the iteration is left. *)
Theorem retry_starts_from_updated_gfset fuel :
  exists st v,
    loop (S fuel) Toy.numerics (Toy.config true) (notebook_globals Toy.mesh)
         [0%nat] Toy.start
    = Some (Raised (NameError "CostAuto") st) /\
    deref Toy.start (gfset (Toy.config true)) !! 9%nat = Some 0 /\
    deref st (gfX (Toy.config true)) !! 9%nat = Some 1 /\
    scale st == 5 # 1000 /\
    gfsetOld st = gfset (Toy.config true) /\
    deref st (gfset (Toy.config true)) !! 9%nat = Some v /\
    v == - (15 # 1000) /\ ~ v == 0 - (5 # 1000) * 1.
Proof.
  eexists _, _. split; [vm_compute; reflexivity|].
  split; [vm_compute; reflexivity|].
  split; [vm_compute; reflexivity|].
  split; [vm_compute; reflexivity|].
  split; [vm_compute; reflexivity|].
  split; [vm_compute; reflexivity|].
  split; [vm_compute; reflexivity | vm_compute; discriminate].
Qed.

(** *** Termination *)

Lemma scale_solve_state nm cfg st : scale (solve_state nm cfg st) = scale st.
Proof. unfold solve_state. destruct (nm_Newton _ _ _ _). reflexivity. Qed.

Lemma iteracion_solve_state nm cfg st : iteracion (solve_state nm cfg st) = iteracion st.
Proof. unfold solve_state. destruct (nm_Newton _ _ _ _). reflexivity. Qed.

Lemma line_search_mono nm cfg g fuel :
  forall st o,
    line_search fuel nm cfg g st = Some o ->
    forall fuel', (fuel <= fuel')%nat -> line_search fuel' nm cfg g st = Some o.
Proof.
  induction fuel as [|fuel IH]; intros st o H fuel' Hle.
  - cbn [line_search] in H.
    destruct (Qgtb (Jnew st) (Jold st) && Qgtb (scale st) (1 # 1000000000000)) eqn:C;
      [discriminate|].
    destruct fuel'; cbn [line_search]; rewrite C; exact H.
  - destruct fuel' as [|fuel']; [lia|]. cbn [line_search] in *.
    destruct (Qgtb (Jnew st) (Jold st) && Qgtb (scale st) (1 # 1000000000000));
      [|exact H].
    destruct (Qle_bool _ (1 # 10000000)); [exact H|].
    destruct (Integrate_cost _ _ _ _ _); [|exact H].
    apply (IH _ _ H). lia.
Qed.

Lemma halved_succ n s : halved (S n) s = halved n (s / 2).
Proof. unfold halved. rewrite Nat.iter_succ_r. reflexivity. Qed.

Lemma halved_repr n s :
  Qnum (halved n s) = Qnum s /\
  Zpos (Qden (halved n s)) = (Zpos (Qden s) * 2 ^ Z.of_nat n)%Z.
Proof.
  induction n as [|n [IHn IHd]].
  - simpl. split; [reflexivity | lia].
  - change (halved (S n) s) with (halved n s / 2).
    destruct (halved n s) as [a b]. simpl in *. split; [lia|].
    rewrite Pos2Z.inj_mul, IHd.
    replace (Z.of_nat (S n)) with (Z.of_nat n + 1)%Z by lia.
    rewrite Z.pow_add_r by lia. lia.
Qed.

(** halving brings every scale to the threshold [1e-7] *)
Lemma halving_reaches s : exists n, Qle_bool (halved n s) (1 # 10000000) = true.
Proof.
  exists (Z.to_nat (Qnum s * 10000000)).
  apply Qle_bool_iff. unfold Qle.
  destruct (halved_repr (Z.to_nat (Qnum s * 10000000)) s) as [-> ->]. simpl.
  pose proof (Pos2Z.is_pos (Qden s)) as Hb.
  destruct (Z_le_gt_dec (Qnum s) 0) as [Ha|Ha].
  - assert (0 < 2 ^ Z.of_nat (Z.to_nat (Qnum s * 10000000)))%Z
      by (apply Z.pow_pos_nonneg; lia). nia.
  - pose proof (Z.pow_gt_lin_r 2 (Z.of_nat (Z.to_nat (Qnum s * 10000000)))) as Hp.
    rewrite Z2Nat.id in * by lia. nia.
Qed.

Lemma half_below s :
  Qgtb s (1 # 1000000000000) = true ->
  Qle_bool s (1 # 10000000) = true ->
  Qle_bool (s / 2) (1 # 10000000) = true.
Proof.
  unfold Qgtb. intros Hpos Hle. apply negb_true_iff in Hpos.
  apply Qle_bool_iff in Hle. apply Qle_bool_iff.
  assert (Hgt : ~ s <= 1 # 1000000000000).
  { intros H. apply Qle_bool_iff in H. congruence. }
  destruct s as [a b]. unfold Qle in *. simpl in *.
  rewrite Pos2Z.inj_mul. lia.
Qed.

Lemma line_search_bound nm cfg g n :
  forall st,
    Qle_bool (halved n (scale st)) (1 # 10000000) = true ->
    exists o, line_search (S n) nm cfg g st = Some o.
Proof.
  induction n as [|n IH]; intros st H.
  - cbn [line_search]. cbn [set_scale scale].
    destruct (Qgtb (Jnew st) (Jold st) && Qgtb (scale st) (1 # 1000000000000)) eqn:C;
      [|eauto].
    apply andb_true_iff in C as [_ C].
    rewrite (half_below _ C H). eauto.
  - rewrite halved_succ in H.
    change (line_search (S (S n)) nm cfg g st) with
      (if Qgtb (Jnew st) (Jold st) && Qgtb (scale st) (1 # 1000000000000)
       then
         let st1 := set_scale (scale st / 2) st in
         if Qle_bool (scale st1) (1 # 10000000)
         then Some (Done (set_converged true st1))
         else
           let st2 := store (gfset cfg)
                            (vsub (deref st1 (gfsetOld st1))
                                  (vscale (scale st1) (deref st1 (gfX cfg)))) st1 in
           let st3 := set_deformation (Some (gfset cfg)) st2 in
           let st4 := solve_state nm cfg st3 in
           match Integrate_cost nm cfg g "CostAuto" st4 with
           | Raise e => Some (Raised e st4)
           | Ok j => line_search (S n) nm cfg g (set_Jnew j st4)
           end
       else Some (Done st)).
    destruct (Qgtb (Jnew st) (Jold st) && Qgtb (scale st) (1 # 1000000000000));
      [|eauto].
    cbv zeta.
    destruct (Qle_bool (scale (set_scale (scale st / 2) st)) (1 # 10000000)); [eauto|].
    destruct (Integrate_cost _ _ _ _ _); [|eauto].
    apply IH. cbn [scale set_Jnew]. rewrite scale_solve_state. exact H.
Qed.

Lemma line_search_terminates nm cfg g st :
  exists fuel0 o,
    forall fuel, (fuel0 <= fuel)%nat -> line_search fuel nm cfg g st = Some o.
Proof.
  destruct (halving_reaches (scale st)) as [n Hn].
  destruct (line_search_bound nm cfg g n st Hn) as [o Ho].
  exists (S n), o. intros fuel Hle. exact (line_search_mono _ _ _ _ _ _ Ho _ Hle).
Qed.

Lemma body_terminates nm cfg g k st :
  exists fuel0 o,
    forall fuel, (fuel0 <= fuel)%nat -> body fuel nm cfg g k st = Some o.
Proof.
  unfold body.
  destruct (descent nm cfg g k st) as [st1|e st1]; [|exists 0%nat; eauto].
  destruct (update_gfset nm cfg st1) as [st2|e st2]; [|exists 0%nat; eauto].
  destruct (Integrate_cost nm cfg g "CostAuto2" st2) as [j|e]; [|exists 0%nat; eauto].
  destruct (LineSearch cfg); [|exists 0%nat; eauto].
  apply line_search_terminates.
Qed.

Lemma loop_terminates nm cfg g ks :
  forall st,
    exists fuel0 o,
      forall fuel, (fuel0 <= fuel)%nat -> loop fuel nm cfg g ks st = Some o.
Proof.
  induction ks as [|k ks IH]; intros st.
  - exists 0%nat, (Done st). reflexivity.
  - destruct (body_terminates nm cfg g k st) as (f1 & o1 & H1).
    destruct o1 as [st1|e st1].
    + destruct (converged st1) eqn:C.
      * exists f1, (Done st1). intros fuel Hle. cbn [loop].
        rewrite (H1 _ Hle), C. reflexivity.
      * destruct (IH (accept cfg st1)) as (f2 & o2 & H2).
        exists (Nat.max f1 f2), o2. intros fuel Hle. cbn [loop].
        rewrite (H1 fuel) by lia. rewrite C. apply H2. lia.
    + exists f1, (Raised e st1). intros fuel Hle. cbn [loop].
      rewrite (H1 _ Hle). reflexivity.
Qed.

Lemma iteracion_line_search nm cfg g fuel :
  forall st o,
    line_search fuel nm cfg g st = Some o -> iteracion (state_of o) = iteracion st.
Proof.
  induction fuel as [|fuel IH]; intros st o; cbn [line_search];
    destruct (Qgtb (Jnew st) (Jold st) && Qgtb (scale st) (1 # 1000000000000));
    intros H; try discriminate; try (injection H as <-; reflexivity).
  destruct (Qle_bool _ (1 # 10000000)); [injection H as <-; reflexivity|].
  destruct (Integrate_cost _ _ _ _ _).
  - rewrite (IH _ _ H). cbn [iteracion set_Jnew].
    rewrite iteracion_solve_state. reflexivity.
  - injection H as <-. cbn [state_of]. rewrite iteracion_solve_state. reflexivity.
Qed.

Lemma iteracion_call_proc nm cfg g name st :
  iteracion (state_of (call_proc nm cfg g name st)) = iteracion st.
Proof.
  unfold call_proc. destruct (g !! name) as [[q|m|[]]|]; reflexivity.
Qed.

Lemma iteracion_update_gfset nm cfg st :
  iteracion (state_of (update_gfset nm cfg st)) = iteracion st.
Proof. unfold update_gfset. destruct (Qeq_bool _ 0); reflexivity. Qed.

Lemma iteracion_descent nm cfg g k st :
  iteracion (state_of (descent nm cfg g k st))
  = if ShowObj cfg then iteracion st ++ [k] else iteracion st.
Proof.
  unfold descent.
  match goal with
  | |- context [call_proc nm cfg g "SolveAdjointEquation" ?s] =>
      pose proof (iteracion_call_proc nm cfg g "SolveAdjointEquation" s) as H1;
      destruct (call_proc nm cfg g "SolveAdjointEquation" s) as [s1|e s1]
  end; cbn [state_of] in *.
  - rewrite iteracion_call_proc. cbn [iteracion set_dJOmegaAuto_vec set_b_mat].
    rewrite H1. cbn [iteracion set_fadjoint_vec]. rewrite iteracion_solve_state.
    destruct (ShowObj cfg); reflexivity.
  - rewrite H1. cbn [iteracion set_fadjoint_vec]. rewrite iteracion_solve_state.
    destruct (ShowObj cfg); reflexivity.
Qed.

Lemma iteracion_body nm cfg g fuel k st o :
  body fuel nm cfg g k st = Some o ->
  iteracion (state_of o) = if ShowObj cfg then iteracion st ++ [k] else iteracion st.
Proof.
  unfold body. pose proof (iteracion_descent nm cfg g k st) as Hd.
  destruct (descent nm cfg g k st) as [st1|e st1]; cbn [state_of] in Hd.
  - pose proof (iteracion_update_gfset nm cfg st1) as Hu.
    destruct (update_gfset nm cfg st1) as [st2|e st2]; cbn [state_of] in Hu.
    + destruct (Integrate_cost nm cfg g "CostAuto2" st2) as [j|e].
      * destruct (LineSearch cfg); intros H.
        -- rewrite (iteracion_line_search _ _ _ _ _ _ H). cbn [iteracion set_Jnew].
           congruence.
        -- injection H as <-. cbn [state_of iteracion set_Jnew]. congruence.
      * intros H. injection H as <-. cbn [state_of]. congruence.
    + intros H. injection H as <-. cbn [state_of]. congruence.
  - intros H. injection H as <-. exact Hd.
Qed.

Lemma iteracion_accept cfg st : iteracion (accept cfg st) = iteracion st.
Proof. unfold accept. destruct (VTKexport cfg); reflexivity. Qed.

Lemma loop_iterations nm cfg g fuel ks :
  forall st o,
    loop fuel nm cfg g ks st = Some o ->
    (length (iteracion (state_of o)) <= length (iteracion st) + length ks)%nat.
Proof.
  induction ks as [|k ks IH]; intros st o; cbn [loop].
  - intros H. injection H as <-. cbn [state_of]. lia.
  - destruct (body fuel nm cfg g k st) as [o1|] eqn:Hb; [|discriminate].
    apply iteracion_body in Hb.
    assert (Hlen : (length (iteracion (state_of o1)) <= length (iteracion st) + 1)%nat).
    { rewrite Hb. destruct (ShowObj cfg); [rewrite length_app; simpl|]; lia. }
    destruct o1 as [st1|e st1]; cbn [state_of] in *.
    + destruct (converged st1).
      * intros H. injection H as <-. cbn [state_of length]. lia.
      * intros H. apply IH in H. rewrite iteracion_accept in H. cbn [length]. lia.
    + intros H. injection H as <-. cbn [state_of length]. lia.
Qed.

(** C6. The driver terminates.  For every library behaviour, namespace and
    start state there is a bound on the passes of a line search beyond which
    the cell returns an outcome (the end of the loop, the convergence break
    or an exception), and it records at most [iter_max] iterations.  The
    line search itself ends because each pass halves [scale], which is
    positive in the loop and so strictly decreases: [n] halvings reach
    [1e-7] and [n + 1] passes suffice.  A pass whose
    halved [scale] is at or below [1e-7] sets [converged] and stops, and an
    iteration that ends with [converged] set ends the loop. *)
Theorem optimise_terminates nm cfg g st :
  (exists fuel0 o,
     forall fuel, (fuel0 <= fuel)%nat ->
       optimise fuel nm cfg g st = Some o /\
       (ShowObj cfg = true -> iteracion st = [] ->
        (length (iteracion (state_of o)) <= iter_max cfg)%nat)) /\
  (forall st1,
     exists n,
       Qle_bool (halved n (scale st1)) (1 # 10000000) = true /\
       forall fuel, (S n <= fuel)%nat ->
         exists o, line_search fuel nm cfg g st1 = Some o) /\
  (forall fuel st1,
     Qgtb (Jnew st1) (Jold st1) && Qgtb (scale st1) (1 # 1000000000000) = true ->
     Qle_bool (scale st1 / 2) (1 # 10000000) = true ->
     line_search (S fuel) nm cfg g st1
     = Some (Done (set_converged true (set_scale (scale st1 / 2) st1)))) /\
  (forall fuel k ks st0 st1,
     body fuel nm cfg g k st0 = Some (Done st1) ->
     converged st1 = true ->
     loop fuel nm cfg g (k :: ks) st0 = Some (Done st1)) /\
  (forall s, Qgtb s (1 # 1000000000000) = true -> s / 2 < s).
Proof.
  split; [|split; [|split; [|split]]].
  - unfold optimise.
    match goal with
    | |- context [Integrate_cost nm cfg g "CostAuto2" ?s] =>
        set (st0 := s); destruct (Integrate_cost nm cfg g "CostAuto2" st0) as [j|e]
    end.
    + match goal with
      | |- context [loop _ nm cfg g _ ?s] => set (st1 := s)
      end.
      destruct (loop_terminates nm cfg g (seq 0 (iter_max cfg)) st1) as (f & o & H).
      exists f, o. intros fuel Hle. split; [exact (H _ Hle)|].
      intros Hshow _. pose proof (loop_iterations _ _ _ _ _ _ _ (H _ Hle)) as Hlen.
      rewrite length_seq in Hlen. subst st1. rewrite Hshow in Hlen.
      cbn [iteracion set_objetivo set_iteracion length] in Hlen. exact Hlen.
    + exists 0%nat, (Raised e st0). intros fuel _. split; [reflexivity|].
      intros _ Hnil. cbn [state_of]. subst st0.
      destruct (VTKexport cfg); cbn [iteracion set_exports];
        rewrite iteracion_solve_state; cbn [iteracion set_deformation store set_heap];
        rewrite Hnil; cbn [length]; lia.
  - intros st1. destruct (halving_reaches (scale st1)) as [n Hn].
    exists n. split; [exact Hn|]. intros fuel Hle.
    destruct (line_search_bound nm cfg g n st1 Hn) as [o Ho].
    exists o. exact (line_search_mono _ _ _ _ _ _ Ho _ Hle).
  - intros fuel st1 Hc Hs. cbn [line_search]. rewrite Hc.
    cbn [scale set_scale]. rewrite Hs. reflexivity.
  - intros fuel k ks st0 st1 Hb Hc. cbn [loop]. rewrite Hb, Hc. reflexivity.
  - intros s Hs. unfold Qgtb in Hs. apply negb_true_iff in Hs.
    assert (Hgt : ~ s <= 1 # 1000000000000).
    { intros H. apply Qle_bool_iff in H. congruence. }
    destruct s as [a b]. unfold Qle, Qlt in *. simpl in *.
    rewrite Pos2Z.inj_mul. nia.
Qed.

Lemma optimise_terminates_witness :
  line_search 1 Toy.numerics (Toy.config true) (notebook_globals Toy.mesh) Toy.tiny_step
  = Some (Done (set_converged true (set_scale (scale Toy.tiny_step / 2) Toy.tiny_step))).
Proof.
  apply (proj1 (proj2 (proj2
           (optimise_terminates Toy.numerics (Toy.config true)
                                (notebook_globals Toy.mesh) Toy.state)))
           0%nat Toy.tiny_step).
  - vm_compute. reflexivity.
  - vm_compute. reflexivity.
Defined.

(** With [CostAuto] bound, the line search of the small instance runs its
    halvings and ends in the convergence break of the first iteration. *)
Example optimise_converges :
  exists st,
    optimise 20 Toy.numerics (Toy.config true) Toy.repaired_globals Toy.state
    = Some (Done st) /\
    converged st = true /\ iteracion st = [0%nat] /\ Qle_bool (scale st) (1 # 10000000) = true.
Proof.
  eexists. split; [vm_compute; reflexivity|].
  repeat split; vm_compute; reflexivity.
Qed.


(** ** The copy of the surface mesh *)

Import Solid.

Lemma for_each_app {S X} (body : S -> X -> copy_exn + S) xs ys st :
  for_each body (xs ++ ys) st
  = match for_each body xs st with
    | inl e => inl e
    | inr st' => for_each body ys st'
    end.
Proof.
  revert st. induction xs as [|x xs IH]; intros st; simpl; [reflexivity|].
  destruct (body st x); [reflexivity | apply IH].
Qed.

Lemma number_points_flat m1 st :
  number_points m1 st = for_each (visit m1) (concat (sm_elements m1)) st.
Proof.
  unfold number_points. revert st.
  induction (sm_elements m1) as [|e es IH]; intros st; simpl; [reflexivity|].
  rewrite for_each_app. destruct (for_each (visit m1) e st); [reflexivity | apply IH].
Qed.

Lemma visit_step m1 n0 pmap1 ng v pmap1' ng' :
  numbered m1 n0 pmap1 ng ->
  visit m1 (pmap1, ng) v = inr (pmap1', ng') ->
  numbered m1 n0 pmap1' ng' /\
  dom pmap1' = {[v]} ∪ dom pmap1 /\
  ng_faces ng' = ng_faces ng /\ ng_elements ng' = ng_elements ng.
Proof.
  intros (Hlen & Hpts & Hinj & Hsur). unfold visit. cbn [fst snd].
  destruct (pmap1 !! v) as [id|] eqn:Hv.
  - intros H. injection H as <- <-. split; [exact (conj Hlen (conj Hpts (conj Hinj Hsur)))|].
    split; [|split; reflexivity].
    apply elem_of_dom_2 in Hv. symmetry. apply subseteq_union_1_L.
    apply singleton_subseteq_l. exact Hv.
  - destruct (point_of m1 v) as [p|] eqn:Hp; [|discriminate].
    unfold Add_point. intros H. injection H as <- <-. cbn [ng_points ng_faces ng_elements].
    split; [|split; [apply dom_insert_L | split; reflexivity]].
    unfold numbered. cbn [ng_points]. split; [|split; [|split]].
    + rewrite length_app, map_size_insert_None by exact Hv. simpl. lia.
    + intros w id. rewrite lookup_insert. case_decide as Hw.
      * intros H. injection H as <-. subst w. rewrite length_app. simpl.
        split; [lia|]. exists p. split; [exact Hp|].
        cbn [ng_point_of ng_points]. rewrite lookup_app_r by lia.
        rewrite Nat.sub_diag. reflexivity.
      * intros H. destruct (Hpts _ _ H) as (Hr & q & Hq & Hn).
        rewrite length_app. simpl. split; [lia|]. exists q. split; [exact Hq|].
        destruct id as [|i]; [lia|]. cbn [ng_point_of ng_points] in *.
        rewrite lookup_app_l by lia. exact Hn.
    + intros w1 w2 id. rewrite !lookup_insert.
      repeat case_decide; intros H1 H2; subst.
      * reflexivity.
      * injection H1 as <-. destruct (Hpts _ _ H2) as [Hr _]. lia.
      * injection H2 as <-. destruct (Hpts _ _ H1) as [Hr _]. lia.
      * exact (Hinj _ _ _ H1 H2).
    + intros id. rewrite length_app. simpl. intros Hid.
      destruct (decide (id = S (length (ng_points ng)))) as [->|Hne].
      * exists v. apply lookup_insert_eq.
      * destruct (Hsur id) as [w Hw]; [lia|]. exists w.
        rewrite lookup_insert_ne; [exact Hw|]. intros <-. congruence.
Qed.

Lemma visits_steps m1 n0 vs :
  forall pmap1 ng pmap1' ng',
    numbered m1 n0 pmap1 ng ->
    for_each (visit m1) vs (pmap1, ng) = inr (pmap1', ng') ->
    numbered m1 n0 pmap1' ng' /\
    dom pmap1' = list_to_set vs ∪ dom pmap1 /\
    ng_faces ng' = ng_faces ng /\ ng_elements ng' = ng_elements ng.
Proof.
  induction vs as [|v vs IH]; intros pmap1 ng pmap1' ng' Hn; simpl.
  - intros H. injection H as <- <-. split; [exact Hn|].
    split; [symmetry; apply union_empty_l_L | split; reflexivity].
  - destruct (visit m1 (pmap1, ng) v) as [e|[pm1 ng1]] eqn:Hv; [discriminate|].
    intros H. destruct (visit_step _ _ _ _ _ _ _ Hn Hv) as (Hn1 & Hd1 & Hf1 & He1).
    destruct (IH _ _ _ _ Hn1 H) as (Hn2 & Hd2 & Hf2 & He2).
    split; [exact Hn2|]. split.
    { rewrite Hd2, Hd1. cbn [list_to_set]. rewrite (assoc_L (∪)).
      rewrite (comm_L (∪) (list_to_set vs)). reflexivity. }
    split; congruence.
Qed.

Lemma visits_succeed m1 vs :
  (forall v, v ∈ vs -> (1 <= v <= length (sm_points m1))%nat) ->
  forall st, exists st', for_each (visit m1) vs st = inr st'.
Proof.
  induction vs as [|v vs IH]; intros Hvalid st; simpl; [eauto|].
  assert (Hv : exists st1, visit m1 st v = inr st1).
  { unfold visit. destruct (fst st !! v); [eauto|].
    destruct (point_of m1 v) as [p|] eqn:Hp; [destruct (Add_point p (snd st)); eauto|].
    exfalso. destruct (Hvalid v) as [H1 H2]; [left|].
    destruct v as [|i]; [lia|]. cbn [point_of] in Hp.
    apply lookup_ge_None in Hp. lia. }
  destruct Hv as [st1 ->]. apply IH. intros w Hw. apply Hvalid. right. exact Hw.
Qed.

Lemma visits_no_KeyError m1 vs :
  forall st v, for_each (visit m1) vs st <> inl (KeyError v).
Proof.
  induction vs as [|w vs IH]; intros st v; simpl; [discriminate|].
  destruct (visit m1 st w) as [e|st1] eqn:Hw; [|apply IH].
  unfold visit in Hw. destruct (fst st !! w); [discriminate|].
  destruct (point_of m1 w); [destruct (Add_point _ _); discriminate|].
  injection Hw as <-. discriminate.
Qed.

Lemma lookup_all_Some (pmap1 : gmap nat nat) vs :
  (forall v, v ∈ vs -> v ∈ dom pmap1) ->
  exists ids,
    lookup_all pmap1 vs = inr ids /\ Forall2 (fun v id => pmap1 !! v = Some id) vs ids.
Proof.
  induction vs as [|v vs IH]; intros Hdom; simpl; [eauto|].
  destruct (proj1 (elem_of_dom pmap1 v) (Hdom v ltac:(left))) as [id Hid].
  rewrite Hid. destruct IH as (ids & -> & Hall); [intros w Hw; apply Hdom; right; exact Hw|].
  eauto.
Qed.

Lemma copy_elements_Some fd (pmap1 : gmap nat nat) es :
  (forall e v, e ∈ es -> v ∈ e -> v ∈ dom pmap1) ->
  forall ng,
  exists new,
    copy_elements fd pmap1 es ng
    = inr (mkNg (ng_points ng) (ng_faces ng) (ng_elements ng ++ new)) /\
    Forall2 (fun e el => fst el = fd /\
                         Forall2 (fun v id => pmap1 !! v = Some id) e (snd el))
            es new.
Proof.
  unfold copy_elements.
  induction es as [|e es IH]; intros Hdom ng; simpl.
  - exists []. rewrite app_nil_r. destruct ng. split; [reflexivity | constructor].
  - destruct (lookup_all_Some pmap1 e) as (ids & -> & Hids);
      [intros v Hv; apply (Hdom e); [left | exact Hv]|].
    destruct (IH (fun e' v He' => Hdom e' v (list_elem_of_further _ _ _ He'))
                 (Add_element fd ids ng)) as (new & -> & Hnew).
    exists ((fd, ids) :: new). cbn [Add_element ng_points ng_faces ng_elements].
    rewrite <- app_assoc. split; [reflexivity|].
    constructor; [split; [reflexivity | exact Hids] | exact Hnew].
Qed.

Lemma elem_of_concat {A} (x : A) (ls : list (list A)) :
  x ∈ concat ls <-> exists l, x ∈ l /\ l ∈ ls.
Proof.
  induction ls as [|l ls IH]; simpl.
  - split; [intros H; by apply elem_of_nil in H|].
    intros (l & _ & H). by apply elem_of_nil in H.
  - rewrite elem_of_app, IH. split.
    + intros [H|(l' & H1 & H2)]; [exists l; split; [exact H | left]|].
      exists l'. split; [exact H1 | right; exact H2].
    + intros (l' & H1 & H2). apply elem_of_cons in H2 as [->|H2]; [left; exact H1|].
      right. exists l'. split; assumption.
Qed.

Lemma copy_surface_inv m1 pmap1 ng :
  copy_surface m1 = inr (pmap1, ng) ->
  numbered m1 0 pmap1 ng /\
  dom pmap1 = list_to_set (concat (sm_elements m1)) /\
  ng_faces ng = [mkFD 1 1 0 1; mkFD 2 2 1 2] /\
  Forall2 (fun e el => fst el = 1%nat /\
                       Forall2 (fun v id => pmap1 !! v = Some id) e (snd el))
          (sm_elements m1) (ng_elements ng).
Proof.
  unfold copy_surface. cbn [Add_face new_mesh ng_points ng_faces ng_elements length app].
  rewrite number_points_flat.
  destruct (for_each (visit m1) (concat (sm_elements m1)) _) as [e|[pm ng1]] eqn:Hloop;
    [discriminate|].
  assert (H0 : numbered m1 0 ∅ (mkNg [] [mkFD 1 1 0 1; mkFD 2 2 1 2] [])).
  { unfold numbered. cbn [ng_points length]. rewrite map_size_empty.
    split; [reflexivity|]. split; [intros v id H; rewrite lookup_empty in H; discriminate|].
    split; [intros v w id H; rewrite lookup_empty in H; discriminate|].
    intros id Hid. lia. }
  destruct (visits_steps _ _ _ _ _ _ _ H0 Hloop) as (Hn & Hd & Hf & He).
  rewrite dom_empty_L, union_empty_r_L in Hd.
  destruct (copy_elements_Some 1 pm (sm_elements m1)) with (ng := ng1)
    as (new & Hcopy & Hnew).
  { intros e v He' Hv. rewrite Hd. apply elem_of_list_to_set.
    apply elem_of_concat. exists e. split; assumption. }
  rewrite Hcopy. intros H. injection H as <- <-.
  cbn [ng_faces ng_elements]. rewrite He. cbn [ng_elements app].
  split; [|split; [exact Hd | split; [exact Hf | exact Hnew]]].
  destruct Hn as (H1 & H2 & H3 & H4). unfold numbered. cbn [ng_points].
  split; [exact H1|]. split; [|split; [exact H3 | exact H4]].
  intros v id Hv. destruct (H2 v id Hv) as (Hr & p & Hp & Hq).
  split; [exact Hr|]. exists p. split; [exact Hp|].
  destruct id; [lia | exact Hq].
Qed.

(** X1. The copy of the surface raises no [KeyError]: in the second loop
    every corner is a key of [pmap1]; and when every corner of every triangle
    is the number of a point of [m1] the copy goes through. *)
Theorem copy_surface_finds_every_corner m1 :
  (forall v, copy_surface m1 <> inl (KeyError v)) /\
  (corners_valid m1 -> exists pmap1 ng, copy_surface m1 = inr (pmap1, ng)).
Proof.
  assert (Hsecond : forall pm ng1,
            for_each (visit m1) (concat (sm_elements m1))
                     (∅, mkNg [] [mkFD 1 1 0 1; mkFD 2 2 1 2] []) = inr (pm, ng1) ->
            exists ng2, copy_elements 1 pm (sm_elements m1) ng1 = inr ng2).
  { intros pm ng1 Hloop.
    assert (H0 : numbered m1 0 ∅ (mkNg [] [mkFD 1 1 0 1; mkFD 2 2 1 2] [])).
    { unfold numbered. cbn [ng_points length]. rewrite map_size_empty.
      split; [reflexivity|]. split; [intros v id H; rewrite lookup_empty in H; discriminate|].
      split; [intros v w id H; rewrite lookup_empty in H; discriminate|].
      intros id Hid. lia. }
    destruct (visits_steps _ _ _ _ _ _ _ H0 Hloop) as (_ & Hd & _ & _).
    rewrite dom_empty_L, union_empty_r_L in Hd.
    destruct (copy_elements_Some 1 pm (sm_elements m1)) with (ng := ng1)
      as (new & Hcopy & _); [|eauto].
    intros e v He' Hv. rewrite Hd. apply elem_of_list_to_set.
    apply elem_of_concat. exists e. split; assumption. }
  split.
  - intros v. unfold copy_surface.
    cbn [Add_face new_mesh ng_points ng_faces ng_elements length app].
    rewrite number_points_flat.
    destruct (for_each (visit m1) (concat (sm_elements m1)) _) as [e|[pm ng1]] eqn:Hloop.
    + intros H. injection H as ->. exact (visits_no_KeyError _ _ _ _ Hloop).
    + destruct (Hsecond _ _ eq_refl) as [ng2 ->]. discriminate.
  - intros Hvalid. unfold copy_surface.
    cbn [Add_face new_mesh ng_points ng_faces ng_elements length app].
    rewrite number_points_flat.
    destruct (visits_succeed m1 (concat (sm_elements m1)))
      with (st := (∅ : gmap nat nat, mkNg [] [mkFD 1 1 0 1; mkFD 2 2 1 2] []))
      as [[pm ng1] Hloop].
    { intros v Hv. apply elem_of_concat in Hv as (e & Hv & He).
      exact (Hvalid e v He Hv). }
    rewrite Hloop. destruct (Hsecond _ _ Hloop) as [ng2 ->]. eauto.
Qed.

Lemma two_triangles_copied :
  copy_surface Cases.two_triangles = inr (fst Cases.copied, snd Cases.copied).
Proof. vm_compute. reflexivity. Qed.

(** X2. [pmap1] numbers the copies: the new mesh has one point for each key,
    the values are the numbers 1 to [len(pmap1)], no two keys share a value
    and every number in that range is the value of a key. *)
Theorem pmap1_numbers_the_copies m1 pmap1 ng :
  copy_surface m1 = inr (pmap1, ng) ->
  length (ng_points ng) = size pmap1 /\
  (forall v id, pmap1 !! v = Some id -> (1 <= id <= size pmap1)%nat) /\
  (forall v w id, pmap1 !! v = Some id -> pmap1 !! w = Some id -> v = w) /\
  (forall id, (1 <= id <= size pmap1)%nat -> exists v, pmap1 !! v = Some id).
Proof.
  intros H. destruct (copy_surface_inv _ _ _ H) as ((Hlen & Hpts & Hinj & Hsur) & _).
  simpl in Hlen. split; [exact Hlen|]. split; [|split; [exact Hinj|]].
  - intros v id Hv. destruct (Hpts v id Hv) as [Hr _]. lia.
  - intros id Hid. apply Hsur. lia.
Qed.

Lemma pmap1_numbers_the_copies_witness :
  length (ng_points (snd Cases.copied)) = size (fst Cases.copied).
Proof.
  exact (proj1 (pmap1_numbers_the_copies Cases.two_triangles (fst Cases.copied)
                  (snd Cases.copied) two_triangles_copied)).
Defined.

(** X3. A copy has the coordinates of its original: for every key [v] the
    point [pmap1[v]] of the new mesh is the point [v] of [m1]. *)
Theorem copies_keep_coordinates m1 pmap1 ng v id :
  copy_surface m1 = inr (pmap1, ng) ->
  pmap1 !! v = Some id ->
  exists p, point_of m1 v = Some p /\ ng_point_of ng id = Some p.
Proof.
  intros H Hv. destruct (copy_surface_inv _ _ _ H) as ((_ & Hpts & _) & _).
  destruct (Hpts v id Hv) as [_ Hp]. exact Hp.
Qed.

Lemma copies_keep_coordinates_witness :
  exists p, point_of Cases.two_triangles 5 = Some p /\
            ng_point_of (snd Cases.copied) 4 = Some p.
Proof.
  apply (copies_keep_coordinates Cases.two_triangles (fst Cases.copied)
           (snd Cases.copied) 5 4 two_triangles_copied).
  vm_compute. reflexivity.
Defined.

(** X4. The keys of [pmap1] are the corners of the triangles and nothing
    else: a point of [m1] that no triangle uses is not copied, and the new
    mesh has as many points as there are distinct corners. *)
Theorem pmap1_keys_are_the_corners m1 pmap1 ng :
  copy_surface m1 = inr (pmap1, ng) ->
  (forall v, is_Some (pmap1 !! v) <-> exists e, e ∈ sm_elements m1 /\ v ∈ e) /\
  length (ng_points ng) = size (list_to_set (concat (sm_elements m1)) : gset nat).
Proof.
  intros H. destruct (copy_surface_inv _ _ _ H) as ((Hlen & _) & Hdom & _).
  split.
  - intros v. rewrite <- elem_of_dom, Hdom, elem_of_list_to_set, elem_of_concat.
    split; intros (e & H1 & H2); exists e; split; assumption.
  - simpl in Hlen. rewrite Hlen, <- Hdom. symmetry. apply size_dom.
Qed.

Lemma pmap1_keys_are_the_corners_witness :
  fst Cases.copied !! 3%nat = None /\ length (ng_points (snd Cases.copied)) = 4%nat.
Proof.
  destruct (pmap1_keys_are_the_corners Cases.two_triangles (fst Cases.copied)
              (snd Cases.copied) two_triangles_copied) as [Hkeys Hsize].
  split; [vm_compute; reflexivity|]. rewrite Hsize. vm_compute. reflexivity.
Defined.

(** X5. The second loop adds one surface element for each triangle, in
    order, all on the first face descriptor; corner for corner the new
    element names the copy of the point the triangle names, so it has the
    coordinates of the triangle. *)
Theorem elements_are_copied m1 pmap1 ng :
  copy_surface m1 = inr (pmap1, ng) ->
  length (ng_elements ng) = length (sm_elements m1) /\
  ng_faces ng = [mkFD 1 1 0 1; mkFD 2 2 1 2] /\
  (forall k e,
     sm_elements m1 !! k = Some e ->
     exists ids,
       ng_elements ng !! k = Some (1%nat, ids) /\ length ids = length e /\
       forall j v,
         e !! j = Some v ->
         exists id p,
           ids !! j = Some id /\ pmap1 !! v = Some id /\
           point_of m1 v = Some p /\ ng_point_of ng id = Some p).
Proof.
  intros H. destruct (copy_surface_inv _ _ _ H) as ((_ & Hpts & _) & _ & Hf & Hel).
  split; [symmetry; exact (Forall2_length _ _ _ Hel)|]. split; [exact Hf|].
  intros k e Hk.
  destruct (Forall2_lookup_l _ _ _ _ _ Hel Hk) as ([fd ids] & Hk' & Hfd & Hids).
  simpl in Hfd, Hids. subst fd. exists ids. split; [exact Hk'|].
  split; [symmetry; exact (Forall2_length _ _ _ Hids)|].
  intros j v Hj. destruct (Forall2_lookup_l _ _ _ _ _ Hids Hj) as (id & Hj' & Hv).
  destruct (Hpts v id Hv) as (_ & p & Hp & Hq). exists id, p. auto.
Qed.

Lemma elements_are_copied_witness :
  length (ng_elements (snd Cases.copied)) = 2%nat.
Proof.
  exact (proj1 (elements_are_copied Cases.two_triangles (fst Cases.copied)
                  (snd Cases.copied) two_triangles_copied)).
Defined.

Lemma two_triangles_valid : corners_valid Cases.two_triangles.
Proof.
  intros e v He Hv. cbn [Cases.two_triangles sm_elements sm_points length] in *.
  repeat (apply elem_of_cons in He as [->|He]);
    [| |by apply elem_of_nil in He];
    repeat (apply elem_of_cons in Hv as [->|Hv]); try lia;
    by apply elem_of_nil in Hv.
Qed.

Lemma copy_surface_finds_every_corner_witness :
  exists pmap1 ng, copy_surface Cases.two_triangles = inr (pmap1, ng).
Proof.
  exact (proj2 (copy_surface_finds_every_corner Cases.two_triangles)
               two_triangles_valid).
Defined.

(** ** Constrained degrees of freedom *)

Lemma lookup_map {A B} (f : A -> B) (l : list A) i : map f l !! i = f <$> l !! i.
Proof.
  revert i. induction l as [|x l IH]; intros [|i]; simpl; try reflexivity. apply IH.
Qed.

Lemma elem_of_masked_dofs m order mask d :
  d ∈ masked_dofs m order mask <->
  exists i, (i < length (mesh_bnd_names m))%nat /\ mask !! i = Some true /\
            d ∈ mesh_bnd_dofs m order i.
Proof.
  unfold masked_dofs. rewrite list_elem_of_In, in_flat_map. split.
  - intros (i & Hi & Hd). apply in_seq in Hi.
    destruct (mask !! i) as [[|]|] eqn:E; simpl in Hd; try contradiction.
    exists i. split; [lia|]. split; [exact E|]. apply list_elem_of_In. exact Hd.
  - intros (i & Hi & Hm & Hd). exists i. split; [apply in_seq; lia|].
    rewrite Hm. simpl. apply list_elem_of_In. exact Hd.
Qed.

Lemma lookup_mask_Boundaries m pattern i :
  reg_mask (Boundaries m pattern) !! i = Some true <->
  exists nm, mesh_bnd_names m !! i = Some nm /\ matches pattern nm = true.
Proof.
  cbn [Boundaries reg_mask]. rewrite lookup_map.
  destruct (mesh_bnd_names m !! i) as [nm|]; simpl.
  - split.
    + intros H. injection H as H. eauto.
    + intros (nm' & H & Hin). injection H as <-. f_equal. exact Hin.
  - split; [discriminate | intros (nm & H & _); discriminate].
Qed.

Lemma length_H1_free m order dirichlet :
  length (H1_free m order dirichlet) = mesh_ndof m order.
Proof. unfold H1_free. rewrite length_map, length_seq. reflexivity. Qed.

Lemma H1_free_lookup m order pattern d :
  (d < mesh_ndof m order)%nat ->
  H1_free m order (Some pattern) !! d
  = Some (bool_decide (d ∉ masked_dofs m order (reg_mask (Boundaries m pattern)))).
Proof.
  intros Hd. unfold H1_free. rewrite lookup_map, lookup_seq_lt by exact Hd.
  reflexivity.
Qed.

(** a scalar degree of freedom is constrained exactly when it lies on a part
    that the pattern names *)
Lemma H1_free_false m order pattern d :
  H1_free m order (Some pattern) !! d = Some false <->
  (d < mesh_ndof m order)%nat /\
  exists i nm, mesh_bnd_names m !! i = Some nm /\ matches pattern nm = true /\
               d ∈ mesh_bnd_dofs m order i.
Proof.
  split.
  - intros H. assert (Hd : (d < mesh_ndof m order)%nat).
    { apply lookup_lt_Some in H. rewrite length_H1_free in H. exact H. }
    split; [exact Hd|]. rewrite (H1_free_lookup _ _ _ _ Hd) in H.
    injection H as H. apply bool_decide_eq_false in H. apply dec_stable in H.
    apply elem_of_masked_dofs in H as (i & _ & Hm & Hin).
    apply lookup_mask_Boundaries in Hm as (nm & Hnm & Hp). eauto.
  - intros (Hd & i & nm & Hnm & Hp & Hin). rewrite (H1_free_lookup _ _ _ _ Hd).
    f_equal. apply bool_decide_eq_false. intros Hnot. apply Hnot.
    apply elem_of_masked_dofs. exists i.
    split; [apply lookup_lt_Some in Hnm; exact Hnm|].
    split; [apply lookup_mask_Boundaries; eauto | exact Hin].
Qed.

Lemma lookup_concat_replicate {A} (k c d : nat) (l : list A) :
  (c < k)%nat -> (d < length l)%nat ->
  concat (replicate k l) !! (c * length l + d)%nat = l !! d.
Proof.
  revert c. induction k as [|k IH]; intros c Hc Hd; [lia|]. simpl.
  destruct c as [|c].
  - simpl. apply lookup_app_l. exact Hd.
  - rewrite lookup_app_r by (simpl; lia).
    replace (S c * length l + d - length l)%nat with (c * length l + d)%nat
      by (simpl; lia).
    apply IH; lia.
Qed.

Lemma length_concat_replicate {A} (k : nat) (l : list A) :
  length (concat (replicate k l)) = (k * length l)%nat.
Proof.
  induction k as [|k IH]; simpl; [reflexivity|]. rewrite length_app, IH. reflexivity.
Qed.

Lemma length_FreeDofs_VectorH1 m order dirichlet :
  length (FreeDofs (VectorH1 m order dirichlet)) = sp_ndof (VectorH1 m order dirichlet).
Proof.
  unfold FreeDofs, sp_ndof. cbn [VectorH1 sp_free sp_arity sp_nscalar].
  rewrite length_concat_replicate, length_H1_free. reflexivity.
Qed.

(** X6. Dirichlet dominates: in the space [define_space] builds, component
    [c] of a degree of freedom [d] is constrained exactly when [d] lies on a
    boundary part whose name the fixed-boundary pattern, a regular
    expression, matches, whatever other parts it lies on; all other degrees
    of freedom are free. *)
Theorem constrained_iff_on_fixed_part m order pattern c d :
  is_Some (Regex.parse pattern) ->
  (c < mesh_dim m)%nat -> (d < mesh_ndof m order)%nat ->
  (FreeDofs (VectorH1 m order (Some pattern)) !! (c * mesh_ndof m order + d)%nat
   = Some false <->
   exists i nm, mesh_bnd_names m !! i = Some nm /\ matches pattern nm = true /\
                d ∈ mesh_bnd_dofs m order i) /\
  (FreeDofs (VectorH1 m order (Some pattern)) !! (c * mesh_ndof m order + d)%nat
   = Some true <->
   forall i nm, mesh_bnd_names m !! i = Some nm -> matches pattern nm = true ->
                d ∉ mesh_bnd_dofs m order i).
Proof.
  intros _ Hc Hd. unfold FreeDofs. cbn [VectorH1 sp_free].
  pose proof (lookup_concat_replicate (mesh_dim m) c d
                (H1_free m order (Some pattern)) Hc) as Hl.
  rewrite length_H1_free in Hl. rewrite (Hl Hd). clear Hl. split.
  - rewrite H1_free_false. split; [intros [_ H]; exact H | intros H; split; assumption].
  - rewrite (H1_free_lookup _ _ _ _ Hd). split.
    + intros H i nm Hnm Hp Hin. injection H as H. apply bool_decide_eq_true in H.
      apply H. apply elem_of_masked_dofs. exists i.
      split; [apply lookup_lt_Some in Hnm; exact Hnm|].
      split; [apply lookup_mask_Boundaries; eauto | exact Hin].
    + intros H. f_equal. apply bool_decide_eq_true. intros Hin.
      apply elem_of_masked_dofs in Hin as (i & _ & Hm & Hin).
      apply lookup_mask_Boundaries in Hm as (nm & Hnm & Hp).
      exact (H i nm Hnm Hp Hin).
Qed.

Lemma constrained_iff_on_fixed_part_witness :
  FreeDofs (VectorH1 Toy.mesh 2 (Some "left")) !! (1 * mesh_ndof Toy.mesh 2 + 3)%nat
  = Some false.
Proof.
  apply (proj1 (constrained_iff_on_fixed_part Toy.mesh 2 "left" 1 3
                  ltac:(eexists; vm_compute; reflexivity)
                  ltac:(vm_compute; lia) ltac:(vm_compute; lia))).
  exists 3%nat, "left". split; [reflexivity|].
  split; [vm_compute; reflexivity|].
  apply elem_of_cons; left; reflexivity.
Defined.

(** ** The fields the demonstrations return *)

Lemma lookup_zeros n d : (d < n)%nat -> zeros n !! d = Some 0.
Proof. intros H. unfold zeros. apply lookup_replicate_2. exact H. Qed.

Lemma set_zero_at_zeros dofs n d :
  (d < n)%nat -> set_zero_at dofs (zeros n) !! d = Some 0.
Proof. intros H. apply lookup_set_zero_at_keep, lookup_zeros, H. Qed.

Lemma length_eliminate solver A f free (ug : Vec) :
  length (eliminate solver A f free ug) = Nat.min (length ug) (length free).
Proof.
  unfold eliminate, Inverse_mul, vadd. rewrite length_zip_with, length_mask.
  reflexivity.
Qed.

Lemma length_set_values_at dofs vals (x : Vec) :
  length (set_values_at dofs vals x) = length x.
Proof.
  unfold set_values_at. induction dofs as [|d dofs IH]; simpl; [reflexivity|].
  rewrite length_insert. exact IH.
Qed.

Lemma lookup_set_values_at_in dofs vals (x : Vec) d :
  d ∈ dofs -> (d < length x)%nat -> set_values_at dofs vals x !! d = Some (vals !!! d).
Proof.
  unfold set_values_at. intros Hin Hlt.
  induction dofs as [|d' dofs IH]; [by apply elem_of_nil in Hin|].
  cbn [foldr]. destruct (decide (d' = d)) as [->|Hne].
  - apply list_lookup_insert_eq. fold (set_values_at dofs vals x).
    rewrite length_set_values_at. exact Hlt.
  - rewrite list_lookup_insert_ne by exact Hne.
    apply IH. apply elem_of_cons in Hin as [->|Hin]; [congruence | exact Hin].
Qed.

Lemma elem_of_region_dofs_scalar V mask d :
  sp_arity V = 1%nat ->
  d ∈ masked_dofs (sp_mesh V) (sp_order V) mask -> (d < sp_nscalar V)%nat ->
  d ∈ region_dofs V mask.
Proof.
  intros Ha Hin Hlt. unfold region_dofs. rewrite Ha. simpl.
  rewrite app_nil_r. unfold component_dofs.
  apply list_elem_of_fmap. exists d. split; [reflexivity|].
  apply list_elem_of_filter. split; assumption.
Qed.

(** X7. The field the two-dimensional [main] returns has one entry for each
    degree of freedom and is exactly zero at every constrained one; the
    constrained ones are those on the sides 'bottom', 'right', 'top' and
    'left' of the square. *)
Theorem main_vanishes_on_the_sides bk order maxh :
  let gfu := fst (Poisson.main bk order maxh) in
  let mesh := snd (Poisson.main bk order maxh) in
  length (gf_vec gfu) = mesh_ndof mesh order /\
  (forall d, FreeDofs (gf_space gfu) !! d = Some false -> gf_vec gfu !! d = Some 0) /\
  (forall i nm d,
     mesh_bnd_names mesh !! i = Some nm ->
     nm ∈ ["bottom"; "right"; "top"; "left"] ->
     d ∈ mesh_bnd_dofs mesh order i -> (d < mesh_ndof mesh order)%nat ->
     FreeDofs (gf_space gfu) !! d = Some false /\ gf_vec gfu !! d = Some 0).
Proof.
  cbv zeta. unfold Poisson.main. cbn [fst snd gf_vec gf_space].
  set (mesh := bk_unit_square bk maxh).
  set (fes := H1 mesh order (Some "bottom|right|top|left")).
  assert (Hzero : forall d, FreeDofs fes !! d = Some false ->
            eliminate (bk_solve bk) (bk_assemble_bilinear bk fes Poisson.a_integrand)
              (bk_assemble_linear bk fes Poisson.f_integrand Poisson.no_term [])
              (FreeDofs fes) (gf_vec (Set0_BND (new_GridFunction fes))) !! d = Some 0).
  { intros d Hd. rewrite (eliminate_fixed _ _ _ _ _ _ Hd).
    unfold Set0_BND, new_GridFunction. cbn [gf_vec gf_space].
    apply set_zero_at_zeros. apply lookup_lt_Some in Hd.
    unfold FreeDofs, fes in Hd. cbn [H1 sp_free] in Hd. rewrite length_H1_free in Hd.
    unfold sp_ndof, fes. cbn [H1 sp_arity sp_nscalar]. lia. }
  split; [|split].
  - rewrite length_eliminate. unfold Set0_BND, new_GridFunction. cbn [gf_vec gf_space].
    rewrite length_set_zero_at. unfold zeros. rewrite length_replicate.
    unfold FreeDofs, sp_ndof, fes. cbn [H1 sp_free sp_arity sp_nscalar].
    rewrite length_H1_free. lia.
  - exact Hzero.
  - intros i nm d Hnm Hin Hd Hlt.
    assert (Hfix : FreeDofs fes !! d = Some false).
    { unfold FreeDofs, fes. cbn [H1 sp_free]. apply H1_free_false.
      split; [exact Hlt|]. exists i, nm. split; [exact Hnm|]. split; [|exact Hd].
      repeat (apply elem_of_cons in Hin as [->|Hin]); try (vm_compute; reflexivity).
      by apply elem_of_nil in Hin. }
    split; [exact Hfix | exact (Hzero d Hfix)].
Qed.

Lemma main_vanishes_on_the_sides_witness :
  gf_vec (fst (Poisson.main Toy.backend 1 (1 # 20))) !! 3%nat = Some 0.
Proof.
  refine (proj2 (proj2 (proj2 (main_vanishes_on_the_sides Toy.backend 1 (1 # 20)))
                   3%nat "left" 3%nat _ _ _ _)).
  - reflexivity.
  - do 3 (apply elem_of_cons; right). apply elem_of_cons. left. reflexivity.
  - apply elem_of_cons. left. reflexivity.
  - vm_compute. lia.
Defined.

(** X8. The field the three-dimensional [main] returns lives on the space of
    order 1 with the part 'default' constrained, whatever [order] is passed,
    and at every constrained degree of freedom it is exactly the value the
    interpolation of [g] on the boundary gave. *)
Theorem solid_main_keeps_boundary_values bk ms order maxh gfu mesh :
  Solid.main bk ms order maxh = inr (gfu, mesh) ->
  gf_space gfu = H1 mesh 1 (Some "default") /\
  forall d,
    FreeDofs (gf_space gfu) !! d = Some false ->
    gf_vec gfu !! d = Some (ms_interpolate ms (gf_space gfu) (Solid.g ms) !!! d).
Proof.
  unfold Solid.main. destruct (copy_surface (ms_brick ms)) as [e|[pmap1 ngmesh]];
    [discriminate|].
  intros H. injection H as <- <-. cbn [gf_space gf_vec].
  split; [reflexivity|]. intros d Hd.
  rewrite (eliminate_fixed _ _ _ _ _ _ Hd).
  unfold Set_BND, new_GridFunction. cbn [gf_space gf_vec].
  unfold FreeDofs in Hd. cbn [H1 sp_free] in Hd.
  apply H1_free_false in Hd as (Hlt & i & nm & Hnm & _ & Hin).
  apply lookup_set_values_at_in.
  - apply elem_of_region_dofs_scalar; [reflexivity| |exact Hlt].
    cbn [H1 sp_mesh sp_order]. apply elem_of_masked_dofs. exists i.
    apply lookup_lt_Some in Hnm. split; [exact Hnm|]. split; [|exact Hin].
    apply lookup_replicate_2. exact Hnm.
  - unfold zeros, sp_ndof. rewrite length_replicate. cbn [H1 sp_arity sp_nscalar]. lia.
Qed.

Lemma solid_main_keeps_boundary_values_witness :
  exists gfu mesh,
    Solid.main Toy.backend Cases.mesher 2 (1 # 10) = inr (gfu, mesh) /\
    gf_vec gfu !! 1%nat = Some 8.
Proof.
  destruct (Solid.main Toy.backend Cases.mesher 2 (1 # 10)) as [e|[gfu mesh]] eqn:E;
    [vm_compute in E; discriminate E|].
  exists gfu, mesh. split; [reflexivity|].
  destruct (solid_main_keeps_boundary_values _ _ _ _ _ _ E) as [Hsp Hval].
  rewrite (Hval 1%nat).
  - revert E. vm_compute. intros E. injection E as <- <-. reflexivity.
  - revert E. vm_compute. intros E. injection E as <- <-. reflexivity.
Defined.

(** ** More on [Beam] *)

Lemma solve_Ok_explicit bk g self g1 self1 :
  Beam.solve bk g self = Ok (g1, self1) ->
  exists fixed free m,
    Beam.fixedbnd self = Some fixed /\ Beam.freebnd self = Some free /\
    g1 !! "mesh" = Some (VMesh m) /\
    let V := VectorH1 (Beam.mesh self) (Beam.order self) (Some fixed) in
    let on := reg_mask (Boundaries (Beam.mesh self) free) in
    Beam.V self1 = Some V /\
    Beam.a self1
    = Some (mkBF V (Beam.a_integrand g1)
                 (bk_assemble_bilinear bk V (Beam.a_integrand g1))) /\
    Beam.f self1
    = Some (mkLF V (Beam.load_integrand (Beam.b self)) (Beam.load_integrand (Beam.T self))
                 on
                 (bk_assemble_linear bk V (Beam.load_integrand (Beam.b self))
                    (Beam.load_integrand (Beam.T self)) on)) /\
    exists a f,
      Beam.a self1 = Some a /\ Beam.f self1 = Some f /\
      Beam.gfu self1
      = Some (mkGF V (eliminate (bk_solve bk) (bf_mat a) (lf_vec f) (FreeDofs V)
                        (gf_vec (Set0 (new_GridFunction V) (Boundaries m fixed))))).
Proof.
  destruct self as [m o l mu0 b0 T0 fb xb V0 u0 v0 a0 f0 gf0]. beam_steps.
  destruct xb as [fixed|]; beam_steps; [|discriminate].
  destruct (Beam.a_integrand _ _ _); beam_steps; [|discriminate].
  destruct (Beam.load_integrand b0 _ _); beam_steps; [|discriminate].
  destruct (Beam.load_integrand T0 _ _); beam_steps; [|discriminate].
  destruct fb as [free|]; beam_steps; [|discriminate].
  unfold Beam.dirichlet_region.
  destruct (lookup_mesh _ _ _) as [gm|] eqn:Hm; beam_steps; [|discriminate].
  apply lookup_mesh_Ok in Hm.
  intros H. injection H as <- <-. cbn [Beam.V Beam.a Beam.f Beam.gfu].
  exists fixed, free, gm. split; [reflexivity|]. split; [reflexivity|].
  split; [exact Hm|]. cbv zeta.
  split; [reflexivity|]. split; [reflexivity|]. split; [reflexivity|].
  eexists _, _. split; [reflexivity|]. split; reflexivity.
Qed.

(** X9. The beam is clamped: after [solve()] the solution has one entry for
    each degree of freedom of the space and is exactly zero at every
    constrained one, whichever mesh the name [mesh] of the namespace holds. *)
Theorem solve_clamps_the_fixed_boundary bk g self g1 self1 :
  Beam.solve bk g self = Ok (g1, self1) ->
  exists V gfu,
    Beam.V self1 = Some V /\ Beam.gfu self1 = Some gfu /\ gf_space gfu = V /\
    length (gf_vec gfu) = sp_ndof V /\
    forall d, FreeDofs V !! d = Some false -> gf_vec gfu !! d = Some 0.
Proof.
  intros H.
  destruct (solve_Ok_explicit _ _ _ _ _ H)
    as (fixed & free & m & _ & _ & _ & HV & _ & _ & a & f & _ & _ & Hgfu).
  cbv zeta in HV, Hgfu. eexists _, _. split; [exact HV|]. split; [exact Hgfu|].
  cbn [gf_space gf_vec]. split; [reflexivity|].
  set (V := VectorH1 (Beam.mesh self) (Beam.order self) (Some fixed)).
  assert (Hlen : length (FreeDofs V) = sp_ndof V) by apply length_FreeDofs_VectorH1.
  split.
  - rewrite length_eliminate, Hlen. unfold Set0, new_GridFunction. cbn [gf_vec gf_space].
    rewrite length_set_zero_at. unfold zeros. rewrite length_replicate. lia.
  - intros d Hd. rewrite (eliminate_fixed _ _ _ _ _ _ Hd).
    unfold Set0, new_GridFunction. cbn [gf_vec gf_space].
    apply set_zero_at_zeros. apply lookup_lt_Some in Hd. lia.
Qed.

Lemma solve_clamps_the_fixed_boundary_witness :
  exists V gfu,
    Beam.V (snd Toy.solved) = Some V /\ Beam.gfu (snd Toy.solved) = Some gfu /\
    gf_space gfu = V /\ length (gf_vec gfu) = sp_ndof V /\
    forall d, FreeDofs V !! d = Some false -> gf_vec gfu !! d = Some 0.
Proof.
  apply (solve_clamps_the_fixed_boundary Toy.backend Toy.globals Toy.beam
           (fst Toy.solved) (snd Toy.solved)).
  vm_compute. reflexivity.
Defined.

(** X10. A [Beam] needs a mesh of dimension 2 or 3: on any other mesh the
    constructor sets neither boundary name, and [solve()] raises
    [AttributeError] for [fixedbnd] before any space is built. *)
Theorem solve_needs_dimension_2_or_3 bk g m order lam mu b T :
  mesh_dim m <> 2%nat -> mesh_dim m <> 3%nat ->
  Beam.freebnd (Beam.init m order lam mu b T) = None /\
  Beam.fixedbnd (Beam.init m order lam mu b T) = None /\
  Beam.define_space (Beam.init m order lam mu b T) = Raise (AttributeError "fixedbnd") /\
  Beam.solve bk g (Beam.init m order lam mu b T) = Raise (AttributeError "fixedbnd").
Proof.
  intros H2 H3. unfold Beam.solve, Beam.define_space, Beam.init.
  destruct (decide (mesh_dim m = 3%nat)); [contradiction|].
  destruct (decide (mesh_dim m = 2%nat)); [contradiction|].
  cbn [Beam.freebnd Beam.fixedbnd from_attr rbind]. repeat split; reflexivity.
Qed.

Lemma solve_needs_dimension_2_or_3_witness :
  Beam.solve Toy.backend Toy.globals
             (Beam.init (mkMesh 1 ["start"; "end"] (fun _ => 2%nat) (fun _ _ => []))
                        1 1 1 Toy.no_load Toy.no_load)
  = Raise (AttributeError "fixedbnd").
Proof.
  apply solve_needs_dimension_2_or_3; cbn [mesh_dim]; lia.
Defined.

(** X11. The stages of [solve()] need each other's results: on an instance
    without a space [define_forms] and [solve_system] raise [AttributeError]
    for [V], and after [define_space] alone [solve_system] raises it for [f]
    once the Dirichlet region is found. *)
Theorem stages_need_their_predecessors bk g self :
  Beam.V self = None ->
  Beam.define_forms bk g self = Raise (AttributeError "V") /\
  Beam.solve_system bk g self = Raise (AttributeError "V") /\
  (forall self1 m,
     Beam.f self = None ->
     Beam.define_space self = Ok self1 ->
     g !! "mesh" = Some (VMesh m) ->
     Beam.solve_system bk g self1 = Raise (AttributeError "f")).
Proof.
  intros HV. unfold Beam.define_forms, Beam.solve_system. rewrite HV.
  cbn [from_attr rbind]. split; [reflexivity|]. split; [reflexivity|].
  intros self1 m Hf Hsp Hm. unfold Beam.define_space in Hsp.
  apply rbind_Ok in Hsp as (fixed & Hfix & Hsp). attrs. injection Hsp as <-.
  cbn [Beam.V Beam.f Beam.a from_attr rbind].
  unfold Beam.dirichlet_region, lookup_mesh. rewrite Hm.
  cbn [rbind Beam.fixedbnd]. rewrite Hfix, Hf. reflexivity.
Qed.

Lemma stages_need_their_predecessors_witness :
  Beam.define_forms Toy.backend Toy.globals Toy.beam = Raise (AttributeError "V") /\
  Beam.solve_system Toy.backend Toy.globals Toy.beam = Raise (AttributeError "V").
Proof.
  destruct (stages_need_their_predecessors Toy.backend Toy.globals Toy.beam eq_refl)
    as (H1 & H2 & _).
  split; [exact H1 | exact H2].
Defined.



(** ** The strain [epsilon] *)

Lemma lookup_flat_rows {A} (f : nat -> nat -> A) (c r s i j : nat) :
  (i < r)%nat -> (j < c)%nat ->
  flat_map (fun i => map (f i) (seq 0 c)) (seq s r) !! (i * c + j)%nat
  = Some (f (s + i)%nat j).
Proof.
  revert s i. induction r as [|r IH]; intros s i Hi Hj; [lia|].
  cbn [seq flat_map]. destruct i as [|i].
  - rewrite lookup_app_l by (rewrite length_map, length_seq; lia).
    cbn [Nat.mul Nat.add]. rewrite lookup_map, lookup_seq_lt by lia.
    cbn. rewrite Nat.add_0_r. reflexivity.
  - rewrite lookup_app_r by (rewrite length_map, length_seq; lia).
    rewrite length_map, length_seq.
    replace (S i * c + j - c)%nat with (i * c + j)%nat by lia.
    rewrite IH by lia. f_equal. f_equal. lia.
Qed.

Lemma entry_matrix r c f i j :
  (i < r)%nat -> (j < c)%nat -> CF.entry (CF.matrix r c f) i j = f i j.
Proof.
  intros Hi Hj. unfold CF.entry, CF.matrix. cbn [CF.dims CF.data].
  apply list_lookup_total_correct. apply (lookup_flat_rows f c r 0 i j Hi Hj).
Qed.

Lemma length_flat_rows {A} (f : nat -> nat -> A) (c r s : nat) :
  length (flat_map (fun i => map (f i) (seq 0 c)) (seq s r)) = (r * c)%nat.
Proof.
  revert s. induction r as [|r IH]; intros s; [reflexivity|].
  cbn [seq flat_map]. rewrite length_app, length_map, length_seq, IH. reflexivity.
Qed.

(** X13. [epsilon] is the symmetric part of a square gradient.  It is
    defined only on matrices, and on every matrix: the sum with the transpose
    compares the numbers of components, which agree, so a gradient with [r]
    rows and [c] columns gives a value of that shape also when [r] and [c]
    differ.  For an [n] by [n] gradient its entry [(i, j)] is half the sum
    of the entries [(i, j)] and [(j, i)] of the gradient, and so it is
    symmetric. *)
Theorem epsilon_is_the_symmetric_part gu :
  (forall e, CF.epsilon gu = Ok e -> exists r c, CF.dims gu = [r; c]) /\
  (forall r c,
     CF.dims gu = [r; c] -> length (CF.data gu) = (r * c)%nat ->
     exists e,
       CF.epsilon gu = Ok e /\ CF.dims e = [r; c] /\ CF.Dimension e = (r * c)%nat) /\
  (forall n,
     CF.dims gu = [n; n] -> length (CF.data gu) = (n * n)%nat ->
     exists e,
       CF.epsilon gu = Ok e /\
       forall i j, (i < n)%nat -> (j < n)%nat ->
         CF.entry e i j = (1 # 2) * (CF.entry gu i j + CF.entry gu j i) /\
         CF.entry e i j == CF.entry e j i).
Proof.
  assert (Hany : forall r c,
            CF.dims gu = [r; c] -> length (CF.data gu) = (r * c)%nat ->
            CF.epsilon gu
            = Ok (CF.scale (1 # 2)
                    (CF.mkT [r; c]
                       (zip_with Qplus (CF.data gu)
                          (CF.data (CF.matrix c r (fun i j => CF.entry gu j i))))))).
  { intros r c D L. unfold CF.epsilon, CF.trans, CF.add. rewrite D. cbn [rbind].
    destruct (decide (CF.Dimension gu
                      = CF.Dimension (CF.matrix c r (fun i j => CF.entry gu j i))))
      as [_|E]; [reflexivity|].
    exfalso. apply E. unfold CF.Dimension, CF.matrix. cbn [CF.data].
    rewrite L, (length_flat_rows (fun i j => CF.entry gu j i)). lia. }
  split; [|split].
  - intros e. unfold CF.epsilon, CF.trans.
    destruct (CF.dims gu) as [|r [|c [|x l]]] eqn:D; cbn [rbind]; try discriminate.
    intros _. exists r, c. reflexivity.
  - intros r c D L. rewrite (Hany r c D L). eexists. split; [reflexivity|].
    split; [reflexivity|].
    unfold CF.Dimension, CF.scale, CF.matrix. cbn [CF.data].
    rewrite length_map, length_zip_with, L.
    rewrite (length_flat_rows (fun i j => CF.entry gu j i)). lia.
  - intros n D L. rewrite (Hany n n D L). eexists. split; [reflexivity|].
    match goal with |- forall i j, _ -> _ -> CF.entry ?t i j = _ /\ _ => set (e := t) end.
    assert (Hentry : forall i j, (i < n)%nat -> (j < n)%nat ->
              CF.entry e i j = (1 # 2) * (CF.entry gu i j + CF.entry gu j i)).
    { intros i j Hi Hj. unfold CF.entry at 1. unfold e, CF.scale, CF.matrix.
      cbn [CF.dims CF.data]. apply list_lookup_total_correct.
      rewrite lookup_map, lookup_zip_with.
      rewrite (lookup_flat_rows (fun i j => CF.entry gu j i) n n 0 i j Hi Hj).
      assert (Hk : (i * n + j < length (CF.data gu))%nat) by (rewrite L; nia).
      destruct (lookup_lt_is_Some_2 _ _ Hk) as [a Ha]. rewrite Ha. cbn.
      replace (CF.entry gu i j) with a; [reflexivity|].
      unfold CF.entry. rewrite D. symmetry. apply list_lookup_total_correct. exact Ha. }
    intros i j Hi Hj. split; [apply Hentry; assumption|].
    rewrite (Hentry i j Hi Hj), (Hentry j i Hj Hi). ring.
Qed.

Lemma epsilon_is_the_symmetric_part_witness :
  (exists e,
     CF.epsilon Toy.grad_y2 = Ok e /\
     forall i j, (i < 2)%nat -> (j < 2)%nat ->
       CF.entry e i j = (1 # 2) * (CF.entry Toy.grad_y2 i j + CF.entry Toy.grad_y2 j i) /\
       CF.entry e i j == CF.entry e j i) /\
  (exists e,
     CF.epsilon Cases.wide_gradient = Ok e /\ CF.dims e = [2; 3]%nat /\
     CF.Dimension e = (2 * 3)%nat).
Proof.
  split.
  - apply (proj2 (proj2 (epsilon_is_the_symmetric_part Toy.grad_y2)) 2%nat); reflexivity.
  - apply (proj1 (proj2 (epsilon_is_the_symmetric_part Cases.wide_gradient)) 2%nat 3%nat);
      reflexivity.
Defined.

(** ** The functions of the optimisation cell *)

Lemma call_0 g name args : call 0 g name args = Raise RecursionError.
Proof. reflexivity. Qed.

Lemma call_S d g name args :
  call (S d) g name args
  = match g !! name with
    | None => Raise (NameError name)
    | Some (VFun f) =>
        match f, args with
        | Lambda_sigma lam mu dim, [u] =>
            sigma_expr (fun x => call d g "epsilon" [x]) (Ok lam) (Ok dim) (Ok mu) u
        | Lambda_epsilon, [u] => CF.epsilon u
        | Def_sigma, [u] =>
            sigma_expr (fun x => call d g "epsilon" [x])
                       (lookup_num g "lam")
                       (let* m := lookup_mesh g "mesh" "dim" in Ok (mesh_dim m))
                       (lookup_num g "mu") u
        | Def_epsilon, [u] => CF.epsilon u
        | Def_EquationFA, [u; v] =>
            let* s := call d g "sigma" [u] in
            let* e := call d g "epsilon" [v] in
            CF.InnerProduct s e
        | Def_CostAutoFA, [u] =>
            let* s := call d g "sigma" [u] in
            let* e := call d g "epsilon" [u] in
            CF.InnerProduct s e
        | Def_CostAuto2, [u] => call d g "CostAutoFA" [u]
        | _, _ => Raise (TypeError "arguments")
        end
    | Some _ => Raise (TypeError "not callable")
    end.
Proof. reflexivity. Qed.

Lemma sigma_expr_mono (eps eps' : CF.Tensor -> result CF.Tensor) lam dim mu gu v :
  (forall x y, eps x = Ok y -> eps' x = Ok y) ->
  sigma_expr eps lam dim mu gu = Ok v -> sigma_expr eps' lam dim mu gu = Ok v.
Proof.
  intros He. unfold sigma_expr.
  destruct lam as [l|]; [|discriminate]. destruct dim as [d|]; [|discriminate].
  cbn [rbind]. destruct (eps gu) as [e|] eqn:E; [|discriminate].
  rewrite (He _ _ E). intros H. exact H.
Qed.

(** a call that returns with [d] frames left returns the same with more *)
Lemma call_mono d :
  forall g name args v,
    call d g name args = Ok v -> call (S d) g name args = Ok v.
Proof.
  induction d as [|d IH]; intros g name args v H; [rewrite call_0 in H; discriminate|].
  rewrite call_S in H. rewrite (call_S (S d)).
  destruct (g !! name) as [[q|m|f]|]; try discriminate H.
  destruct f; destruct args as [|u [|u2 [|u3 l]]]; try discriminate H.
  - eapply sigma_expr_mono; [|exact H]. intros x y. apply IH.
  - exact H.
  - eapply sigma_expr_mono; [|exact H]. intros x y. apply IH.
  - exact H.
  - apply rbind_Ok in H as (s & Hs & H). apply rbind_Ok in H as (e & He & H).
    rewrite (IH _ _ _ _ Hs), (IH _ _ _ _ He). exact H.
  - apply rbind_Ok in H as (s & Hs & H). apply rbind_Ok in H as (e & He & H).
    rewrite (IH _ _ _ _ Hs), (IH _ _ _ _ He). exact H.
  - apply IH. exact H.
Qed.

(** X14. The objective is the energy: with the three names bound to the
    functions of the definitions cell, [CostAuto2(u)] is [EquationFA(u, u)],
    the integrand of the bilinear form with the state in both places; it
    takes one stack frame more, and when it returns, [EquationFA(u, u)]
    returns the same value. *)
Theorem cost_is_the_energy_of_the_state (g : Globals) u :
  g !! "CostAuto2" = Some (VFun Def_CostAuto2) ->
  g !! "CostAutoFA" = Some (VFun Def_CostAutoFA) ->
  g !! "EquationFA" = Some (VFun Def_EquationFA) ->
  (forall d, call (S (S d)) g "CostAuto2" [u] = call (S d) g "EquationFA" [u; u]) /\
  (forall d v, call d g "CostAuto2" [u] = Ok v -> call d g "EquationFA" [u; u] = Ok v).
Proof.
  intros H2 HFA HEq.
  assert (Hstep : forall d, call (S (S d)) g "CostAuto2" [u]
                            = call (S d) g "EquationFA" [u; u]).
  { intros d. rewrite (call_S (S d) g "CostAuto2"), H2.
    rewrite (call_S d g "CostAutoFA"), HFA.
    rewrite (call_S d g "EquationFA"), HEq. reflexivity. }
  split; [exact Hstep|].
  intros [|[|d]] v H.
  - rewrite call_0 in H. discriminate.
  - rewrite call_S, H2, call_0 in H. discriminate.
  - rewrite Hstep in H. apply call_mono. exact H.
Qed.

Lemma cost_is_the_energy_of_the_state_witness :
  call 4 (notebook_globals Toy.mesh) "CostAuto2" [Toy.grad_y2]
  = call 3 (notebook_globals Toy.mesh) "EquationFA" [Toy.grad_y2; Toy.grad_y2].
Proof.
  apply (proj1 (cost_is_the_energy_of_the_state (notebook_globals Toy.mesh) Toy.grad_y2
                  eq_refl eq_refl eq_refl)).
Defined.

(** ** The run of the optimisation cell *)

Lemma record_solve_state nm cfg st :
  Run.record (solve_state nm cfg st) = Run.record st.
Proof. unfold solve_state. destruct (nm_Newton _ _ _ _). reflexivity. Qed.

Lemma record_call_proc nm cfg g name st :
  Run.record (state_of (call_proc nm cfg g name st)) = Run.record st.
Proof. unfold call_proc. destruct (g !! name) as [[q|m|[]]|]; reflexivity. Qed.

Lemma record_update_gfset nm cfg st :
  Run.record (state_of (update_gfset nm cfg st)) = Run.record st.
Proof. unfold update_gfset. destruct (Qeq_bool _ 0); reflexivity. Qed.

Lemma record_descent nm cfg g k st :
  Run.record (state_of (descent nm cfg g k st))
  = (converged st, exports st, Jold st,
     if ShowObj cfg then iteracion st ++ [k] else iteracion st,
     if ShowObj cfg then objetivo st ++ [Jold st] else objetivo st).
Proof.
  unfold descent.
  match goal with
  | |- context [call_proc nm cfg g "SolveAdjointEquation" ?s] =>
      pose proof (record_call_proc nm cfg g "SolveAdjointEquation" s) as H1;
      destruct (call_proc nm cfg g "SolveAdjointEquation" s) as [s1|e s1]
  end; cbn [state_of] in H1.
  - rewrite record_call_proc.
    transitivity (Run.record s1); [reflexivity|]. rewrite H1.
    match goal with
    | |- Run.record (set_fadjoint_vec _ ?s) = _ =>
        transitivity (Run.record s); [reflexivity|]
    end.
    rewrite record_solve_state. destruct (ShowObj cfg); reflexivity.
  - cbn [state_of]. rewrite H1.
    match goal with
    | |- Run.record (set_fadjoint_vec _ ?s) = _ =>
        transitivity (Run.record s); [reflexivity|]
    end.
    rewrite record_solve_state. destruct (ShowObj cfg); reflexivity.
Qed.

Lemma body_without_search nm cfg g k st :
  LineSearch cfg = false ->
  exists o,
    (forall fuel, body fuel nm cfg g k st = Some o) /\
    Run.record (state_of o)
    = (converged st, exports st, Jold st,
       if ShowObj cfg then iteracion st ++ [k] else iteracion st,
       if ShowObj cfg then objetivo st ++ [Jold st] else objetivo st).
Proof.
  intros HLS. unfold body. rewrite HLS.
  pose proof (record_descent nm cfg g k st) as Hd.
  destruct (descent nm cfg g k st) as [st1|e st1]; cbn [state_of] in Hd.
  - pose proof (record_update_gfset nm cfg st1) as Hu.
    destruct (update_gfset nm cfg st1) as [st2|e st2]; cbn [state_of] in Hu.
    + destruct (Integrate_cost nm cfg g "CostAuto2" st2) as [j|e].
      * eexists. split; [intros fuel; reflexivity|]. cbn [state_of].
        transitivity (Run.record st2); [reflexivity|]. rewrite Hu. exact Hd.
      * eexists. split; [intros fuel; reflexivity|]. cbn [state_of].
        rewrite Hu. exact Hd.
    + eexists. split; [intros fuel; reflexivity|]. cbn [state_of].
      rewrite Hu. exact Hd.
  - eexists. split; [intros fuel; reflexivity|]. exact Hd.
Qed.

Lemma loop_without_search nm cfg g ks :
  forall st,
    LineSearch cfg = false -> converged st = false ->
    exists o,
      (forall fuel, loop fuel nm cfg g ks st = Some o) /\
      forall st', o = Done st' ->
        converged st' = false /\
        exports st' = (if VTKexport cfg then exports st + length ks else exports st)%nat /\
        iteracion st' = (if ShowObj cfg then iteracion st ++ ks else iteracion st) /\
        length (objetivo st')
        = (if ShowObj cfg then length (objetivo st) + length ks
           else length (objetivo st))%nat.
Proof.
  induction ks as [|k ks IH]; intros st HLS Hc.
  - exists (Done st). split; [intros fuel; reflexivity|].
    intros st' H. injection H as <-. cbn [length].
    split; [exact Hc|]. split; [destruct (VTKexport cfg); lia|].
    split; [destruct (ShowObj cfg); [rewrite app_nil_r|]; reflexivity|].
    destruct (ShowObj cfg); lia.
  - destruct (body_without_search nm cfg g k st HLS) as (o1 & Hb & Hr).
    destruct o1 as [st1|e st1]; cbn [state_of] in Hr.
    + unfold Run.record in Hr. injection Hr as Hc1 He1 _ Hi1 Ho1.
      assert (Hc2 : converged (accept cfg st1) = false).
      { unfold accept. destruct (VTKexport cfg); cbn; congruence. }
      destruct (IH (accept cfg st1) HLS Hc2) as (o & Hl & Hp).
      exists o. split.
      * intros fuel. cbn [loop]. rewrite Hb, Hc1, Hc. apply Hl.
      * intros st' Ho. destruct (Hp st' Ho) as (P1 & P2 & P3 & P4).
        split; [exact P1|]. cbn [length]. unfold accept in P2, P3, P4.
        split; [|split].
        -- rewrite P2. destruct (VTKexport cfg); cbn; rewrite He1; lia.
        -- rewrite P3. destruct (VTKexport cfg); cbn; rewrite Hi1;
             destruct (ShowObj cfg); try reflexivity;
             rewrite <- app_assoc; reflexivity.
        -- rewrite P4. destruct (VTKexport cfg); cbn; rewrite Ho1;
             destruct (ShowObj cfg); try reflexivity;
             rewrite length_app; cbn; lia.
    + exists (Raised e st1). split.
      * intros fuel. cbn [loop]. rewrite Hb. reflexivity.
      * intros st' H. discriminate H.
Qed.

(** X15. With [LineSearch = False], as the cell sets it, the loop has no
    way to stop early but an exception: the cell needs no line-search pass,
    and when it ends without exception [converged] is still [False], all
    [iter_max] iterations have been recorded, with one objective value each,
    and one frame has been exported before the loop and one per iteration. *)
Theorem without_line_search_all_iterations_run nm cfg g st :
  LineSearch cfg = false ->
  exists o,
    (forall fuel, optimise fuel nm cfg g st = Some o) /\
    forall st', o = Done st' ->
      converged st' = false /\
      (ShowObj cfg = true ->
       iteracion st' = seq 0 (iter_max cfg) /\ length (objetivo st') = iter_max cfg) /\
      (VTKexport cfg = true -> exports st' = (exports st + 1 + iter_max cfg)%nat).
Proof.
  intros HLS. unfold optimise.
  match goal with
  | |- context [Integrate_cost nm cfg g "CostAuto2" ?s] =>
      set (st0 := s); destruct (Integrate_cost nm cfg g "CostAuto2" st0) as [j|e]
  end.
  - match goal with
    | |- context [loop _ nm cfg g _ ?s] => set (st1 := s)
    end.
    assert (Hc : converged st1 = false).
    { unfold st1. destruct (ShowObj cfg); reflexivity. }
    destruct (loop_without_search nm cfg g (seq 0 (iter_max cfg)) st1 HLS Hc)
      as (o & Hl & Hp).
    exists o. split; [exact Hl|]. intros st' Ho.
    destruct (Hp st' Ho) as (P1 & P2 & P3 & P4). rewrite length_seq in P2, P4.
    split; [exact P1|]. split.
    + intros Hshow. rewrite Hshow in P3, P4. unfold st1 in P3, P4.
      rewrite Hshow in P3, P4. cbn in P3, P4. split; [exact P3 | exact P4].
    + intros Hvtk. rewrite Hvtk in P2. rewrite P2.
      assert (He : exports st1 = S (exports st)).
      { unfold st1, st0. rewrite Hvtk.
        transitivity (exports (set_exports (S (exports st)) st)); [|reflexivity].
        destruct (ShowObj cfg); cbn [exports set_objetivo set_iteracion set_converged
                                     set_Jold set_exports];
          unfold solve_state; destruct (nm_Newton _ _ _ _); reflexivity. }
      rewrite He. lia.
  - exists (Raised e st0). split; [intros fuel; reflexivity|].
    intros st' H. discriminate H.
Qed.

Lemma without_line_search_all_iterations_run_witness :
  exists st',
    optimise 0 Toy.numerics Cases.short_config (notebook_globals Toy.mesh) Toy.state
    = Some (Done st') /\
    converged st' = false /\ iteracion st' = [0; 1; 2]%nat /\ exports st' = 4%nat.
Proof.
  destruct (without_line_search_all_iterations_run Toy.numerics Cases.short_config
              (notebook_globals Toy.mesh) Toy.state eq_refl) as (o & Ho & Hp).
  destruct o as [st'|e st'].
  - exists st'. split; [apply Ho|].
    destruct (Hp st' eq_refl) as (Hc & Hi & He).
    split; [exact Hc|]. split; [exact (proj1 (Hi eq_refl)) | exact (He eq_refl)].
  - exfalso. specialize (Ho 0%nat). vm_compute in Ho. discriminate Ho.
Defined.

(** ** What the optimisation cell writes *)

Section Invariant.

Variables (nm : Numerics) (cfg : Config) (g : Globals).
Variable I : gmap nat (list Q) -> Prop.
Hypothesis I_gfu : forall h x, I h -> I (<[gfu cfg := x]> h).
Hypothesis I_gfX : forall h x, I h -> I (<[gfX cfg := x]> h).
Hypothesis I_gfset : forall h x, I h -> I (<[gfset cfg := x]> h).
Hypothesis I_gfp : forall st, I (heap st) -> I (heap (SolveAdjointEquation nm cfg st)).

Lemma inv_solve_state st : I (heap st) -> I (heap (solve_state nm cfg st)).
Proof.
  intros H. unfold solve_state. destruct (nm_Newton _ _ _ _) as [x A].
  cbn [heap set_aAuto_mat store set_heap]. apply I_gfu, I_gfu, H.
Qed.

Lemma inv_call_proc name st :
  I (heap st) -> I (heap (state_of (call_proc nm cfg g name st))).
Proof.
  intros H. unfold call_proc.
  destruct (g !! name) as [[q|m|[]]|]; cbn [state_of]; try exact H.
  - apply I_gfp, H.
  - unfold SolveDeformationEquationAuto. cbn [heap store set_heap]. apply I_gfX, H.
Qed.

Lemma inv_update_gfset st :
  I (heap st) -> I (heap (state_of (update_gfset nm cfg st))).
Proof.
  intros H. unfold update_gfset. destruct (Qeq_bool _ 0); cbn [state_of]; [exact H|].
  cbn [heap store set_heap]. apply I_gfset, I_gfset, I_gfset. exact H.
Qed.

Lemma inv_descent k st :
  I (heap st) -> I (heap (state_of (descent nm cfg g k st))).
Proof.
  intros H. unfold descent.
  match goal with
  | |- context [call_proc nm cfg g "SolveAdjointEquation" ?s] =>
      assert (H1 : I (heap s));
      [| pose proof (inv_call_proc "SolveAdjointEquation" s H1) as H2;
         destruct (call_proc nm cfg g "SolveAdjointEquation" s) as [s1|e s1] ]
  end.
  - cbn [heap set_fadjoint_vec]. apply inv_solve_state.
    destruct (ShowObj cfg); exact H.
  - cbn [state_of] in H2. apply inv_call_proc. exact H2.
  - exact H2.
Qed.

Lemma inv_line_search fuel :
  forall st o,
    line_search fuel nm cfg g st = Some o -> I (heap st) -> I (heap (state_of o)).
Proof.
  induction fuel as [|fuel IH]; intros st o; cbn [line_search];
    destruct (Qgtb (Jnew st) (Jold st) && Qgtb (scale st) (1 # 1000000000000));
    intros H Hst; try discriminate; try (injection H as <-; exact Hst).
  destruct (Qle_bool _ (1 # 10000000)); [injection H as <-; exact Hst|].
  match type of H with
  | context [Integrate_cost nm cfg g "CostAuto" ?s] =>
      assert (Hs : I (heap s))
  end.
  { apply inv_solve_state. cbn [heap set_deformation store set_heap set_scale].
    apply I_gfset, Hst. }
  destruct (Integrate_cost _ _ _ _ _).
  - apply (IH _ _ H). exact Hs.
  - injection H as <-. exact Hs.
Qed.

Lemma inv_body fuel k st o :
  body fuel nm cfg g k st = Some o -> I (heap st) -> I (heap (state_of o)).
Proof.
  intros H Hst. unfold body in H.
  pose proof (inv_descent k st Hst) as Hd.
  destruct (descent nm cfg g k st) as [st1|e st1]; cbn [state_of] in Hd;
    [|injection H as <-; exact Hd].
  pose proof (inv_update_gfset st1 Hd) as Hu.
  destruct (update_gfset nm cfg st1) as [st2|e st2]; cbn [state_of] in Hu;
    [|injection H as <-; exact Hu].
  destruct (Integrate_cost nm cfg g "CostAuto2" st2) as [j|e];
    [|injection H as <-; exact Hu].
  destruct (LineSearch cfg).
  - apply (inv_line_search _ _ _ H). exact Hu.
  - injection H as <-. exact Hu.
Qed.

Lemma inv_loop fuel ks :
  forall st o,
    loop fuel nm cfg g ks st = Some o -> I (heap st) -> I (heap (state_of o)).
Proof.
  induction ks as [|k ks IH]; intros st o; cbn [loop]; intros H Hst.
  - injection H as <-. exact Hst.
  - destruct (body fuel nm cfg g k st) as [o1|] eqn:Hb; [|discriminate].
    pose proof (inv_body _ _ _ _ Hb Hst) as H1.
    destruct o1 as [st1|e st1]; cbn [state_of] in H1; [|injection H as <-; exact H1].
    destruct (converged st1); [injection H as <-; exact H1|].
    apply (IH _ _ H). unfold accept. destruct (VTKexport cfg); exact H1.
Qed.

Lemma inv_optimise fuel st o :
  optimise fuel nm cfg g st = Some o -> I (heap st) -> I (heap (state_of o)).
Proof.
  intros H Hst. revert H. unfold optimise.
  match goal with
  | |- context [Integrate_cost nm cfg g "CostAuto2" ?s] => set (st0 := s)
  end.
  assert (Hs : I (heap st0)).
  { unfold st0. destruct (VTKexport cfg); cbn [heap set_exports]; apply inv_solve_state;
      cbn [heap set_deformation store set_heap]; apply I_gfset, Hst. }
  destruct (Integrate_cost nm cfg g "CostAuto2" st0) as [j|e].
  - intros H. apply (inv_loop _ _ _ _ H). destruct (ShowObj cfg); exact Hs.
  - intros H. injection H as <-. exact Hs.
Qed.

End Invariant.

(** X16. The two halves of an iteration write apart.  The first half (the
    state solve, the adjoint solve and the descent direction) writes [gfu],
    [gfp] and [gfX] and leaves the vector of [gfset] as it is when [gfset]
    is none of them; the update of the deformation writes [gfset] and leaves
    every other grid function, [gfu], [gfp] and [gfX] among them, as it
    is; and a grid function that is none of the four is never written,
    however the run ends.  (The vectors and matrices of the forms, which
    each iteration assembles anew, are not grid functions and are not meant
    here.) *)
Theorem iteration_halves_write_apart nm cfg g :
  (forall k st0,
     gfset cfg <> gfu cfg -> gfset cfg <> gfp cfg -> gfset cfg <> gfX cfg ->
     deref (state_of (descent nm cfg g k st0)) (gfset cfg) = deref st0 (gfset cfg)) /\
  (forall st0 l,
     l <> gfset cfg ->
     deref (state_of (update_gfset nm cfg st0)) l = deref st0 l) /\
  (forall fuel st o l,
     optimise fuel nm cfg g st = Some o ->
     l <> gfu cfg -> l <> gfp cfg -> l <> gfX cfg -> l <> gfset cfg ->
     deref (state_of o) l = deref st l).
Proof.
  split; [|split].
  - intros k st0 Hu' Hp' HX'. unfold deref. f_equal.
    apply (inv_descent nm cfg g (fun h => h !! gfset cfg = heap st0 !! gfset cfg));
      try (intros h x E; rewrite lookup_insert_ne by congruence; exact E);
      [|reflexivity].
    intros st1 E. unfold SolveAdjointEquation. cbn [heap store set_heap].
    rewrite lookup_insert_ne by congruence. exact E.
  - intros st0 l Hl. unfold deref. f_equal. unfold update_gfset.
    destruct (Qeq_bool _ 0); cbn [state_of]; [reflexivity|].
    cbn [heap store set_heap]. rewrite !lookup_insert_ne by congruence. reflexivity.
  - intros fuel st o l H Hu Hp HX Hs. unfold deref. f_equal.
    apply (inv_optimise nm cfg g (fun h => h !! l = heap st !! l))
      with (fuel := fuel) (st := st);
      try (intros h x E; rewrite lookup_insert_ne by congruence; exact E);
      [|exact H|reflexivity].
    intros st0 E. unfold SolveAdjointEquation. cbn [heap store set_heap].
    rewrite lookup_insert_ne by congruence. exact E.
Qed.

Lemma iteration_halves_write_apart_witness :
  (exists o,
     optimise 0 Toy.numerics Cases.short_config (notebook_globals Toy.mesh)
              (store 7 [1; 2] Toy.state) = Some o /\
     deref (state_of o) 7%nat = [1; 2]) /\
  deref (state_of (descent Toy.numerics Cases.short_config (notebook_globals Toy.mesh)
                           0 Toy.state)) 3%nat = zeros 12 /\
  deref (state_of (update_gfset Toy.numerics Cases.short_config
                     (Toy.after_descent Toy.numerics))) 2%nat = Toy.e 9.
Proof.
  destruct (iteration_halves_write_apart Toy.numerics Cases.short_config
              (notebook_globals Toy.mesh)) as (Hd & Hu & Ho).
  split; [|split].
  - destruct (optimise 0 Toy.numerics Cases.short_config (notebook_globals Toy.mesh)
                       (store 7 [1; 2] Toy.state)) as [o|] eqn:E;
      [|vm_compute in E; discriminate E].
    exists o. split; [reflexivity|].
    refine (eq_trans (Ho _ _ _ 7%nat E _ _ _ _) _); [discriminate..|reflexivity].
  - refine (eq_trans (Hd 0%nat Toy.state _ _ _) _); [discriminate..|reflexivity].
  - refine (eq_trans (Hu (Toy.after_descent Toy.numerics) 2%nat _) _); [discriminate|].
    vm_compute. reflexivity.
Defined.

(** X17. The adjoint state stays clamped: [SolveAdjointEquation] adds an
    update that is zero at the constrained degrees of freedom of [fes], and
    nothing else in the cell writes [gfp] when it is an object of its own;
    so through the whole run, however it ends, [gfp] keeps the entry it had
    at every constrained degree of freedom. *)
Theorem adjoint_keeps_its_clamped_entries nm cfg g fuel st o d x :
  optimise fuel nm cfg g st = Some o ->
  gfp cfg <> gfu cfg -> gfp cfg <> gfX cfg -> gfp cfg <> gfset cfg ->
  FreeDofs (fes cfg) !! d = Some false ->
  deref st (gfp cfg) !! d = Some x ->
  deref (state_of o) (gfp cfg) !! d = Some x /\
  deref (SolveAdjointEquation nm cfg st) (gfp cfg) !! d = Some x.
Proof.
  intros H Hu HX Hs Hd Hx.
  assert (Hadj : forall st0, deref st0 (gfp cfg) !! d = Some x ->
                   deref (SolveAdjointEquation nm cfg st0) (gfp cfg) !! d = Some x).
  { intros st0 E. unfold SolveAdjointEquation. rewrite deref_store.
    unfold Inverse_mul. rewrite lookup_vadd, E, (lookup_mask_fixed _ _ _ Hd).
    rewrite Qplus_0_r_eq. reflexivity. }
  split; [|apply Hadj; exact Hx].
  apply (inv_optimise nm cfg g (fun h => default [] (h !! gfp cfg) !! d = Some x))
    with (fuel := fuel) (st := st);
    try (intros h y E; rewrite lookup_insert_ne by congruence; exact E);
    [|exact H|exact Hx].
  intros st0 E. apply Hadj. exact E.
Qed.

Lemma adjoint_keeps_its_clamped_entries_witness :
  exists o,
    optimise 0 Toy.numerics Cases.short_config (notebook_globals Toy.mesh) Toy.state
    = Some o /\
    deref (state_of o) 1%nat !! 3%nat = Some 0.
Proof.
  destruct (optimise 0 Toy.numerics Cases.short_config (notebook_globals Toy.mesh)
                     Toy.state) as [o|] eqn:E;
    [|vm_compute in E; discriminate E].
  exists o. split; [reflexivity|].
  apply (proj1 (adjoint_keeps_its_clamped_entries _ _ _ _ _ _ 3%nat 0 E
                  ltac:(discriminate) ltac:(discriminate) ltac:(discriminate)
                  eq_refl eq_refl)).
Defined.

(** ** How the line search ends *)

Lemma guard_false (st : State) :
  Qgtb (Jnew st) (Jold st) && Qgtb (scale st) (1 # 1000000000000) = false ->
  Jnew st <= Jold st \/ scale st <= 1 # 1000000000000.
Proof.
  unfold Qgtb. intros H. apply andb_false_iff in H as [H|H];
    apply negb_false_iff, Qle_bool_iff in H; [left | right]; exact H.
Qed.

(** X18. When the line search ends without exception it has left [Jold]
    alone and halved [scale] some number [n] of times, and then one of three
    things holds: no pass was made, because the objective did not rise or the
    step was at most [1e-12] to begin with; or the last halving brought the
    step to [1e-7] or below and set [converged]; or the objective of the last
    trial is not above [Jold], the step is still above [1e-7] and
    [converged] is untouched.  After the first pass the test
    [scale > 1e-12] can no longer end the loop. *)
Theorem line_search_ends_in_three_ways nm cfg g fuel :
  forall st st',
    line_search fuel nm cfg g st = Some (Done st') ->
    Jold st' = Jold st /\
    exists n,
      scale st' = halved n (scale st) /\
      ((n = 0%nat /\ st' = st /\
        (Jnew st <= Jold st \/ scale st <= 1 # 1000000000000)) \/
       ((0 < n)%nat /\ converged st' = true /\ scale st' <= 1 # 10000000) \/
       ((0 < n)%nat /\ converged st' = converged st /\
        Jnew st' <= Jold st' /\ ~ scale st' <= 1 # 10000000)).
Proof.
  induction fuel as [|fuel IH]; intros st st'; cbn [line_search];
    destruct (Qgtb (Jnew st) (Jold st) && Qgtb (scale st) (1 # 1000000000000)) eqn:C;
    intros H; try discriminate;
    try (injection H as <-; split; [reflexivity|]; exists 0%nat;
         split; [reflexivity|]; left;
         split; [reflexivity|]; split; [reflexivity|]; apply guard_false; exact C).
  cbn [scale set_scale] in H.
  destruct (Qle_bool (scale st / 2) (1 # 10000000)) eqn:Hs.
  - injection H as <-. split; [reflexivity|]. exists 1%nat.
    split; [reflexivity|]. right. left.
    split; [lia|]. split; [reflexivity|]. apply Qle_bool_iff. exact Hs.
  - match type of H with
    | context [Integrate_cost nm cfg g "CostAuto" ?s] => set (s4 := s) in H
    end.
    destruct (Integrate_cost nm cfg g "CostAuto" s4) as [j|e]; [|discriminate].
    assert (Hrec : Run.record s4 = Run.record st).
    { unfold s4. rewrite record_solve_state. reflexivity. }
    assert (Hscale : scale s4 = scale st / 2).
    { unfold s4. rewrite scale_solve_state. reflexivity. }
    unfold Run.record in Hrec. injection Hrec as Hc4 _ HJ4 _ _.
    destruct (IH _ _ H) as (HJ & n & Hn & Hcases).
    cbn [Jold Jnew scale converged set_Jnew] in HJ, Hn, Hcases.
    split; [congruence|]. exists (S n).
    split; [rewrite halved_succ, <- Hscale; exact Hn|].
    right.
    assert (Hbig : ~ scale s4 <= 1 # 10000000).
    { rewrite Hscale. intros Hle. apply Qle_bool_iff in Hle. congruence. }
    destruct Hcases as [(-> & -> & Hor) | [(Hpos & Hconv & Hle) | (Hpos & Hconv & Hle & Hgt)]].
    + right. cbn [Jold Jnew scale converged set_Jnew] in *.
      split; [lia|]. split; [exact Hc4|]. split; [|exact Hbig].
      destruct Hor as [Hor|Hor]; [exact Hor|].
      exfalso. apply Hbig. apply (Qle_trans _ _ _ Hor). discriminate.
    + left. split; [lia|]. split; [exact Hconv | exact Hle].
    + right. split; [lia|]. split; [congruence|]. split; [exact Hle | exact Hgt].
Qed.

Lemma line_search_ends_in_three_ways_witness :
  exists st',
    line_search 5 Toy.numerics (Toy.config true) Toy.repaired_globals Cases.good_step
    = Some (Done st') /\
    Jold st' = Jold Cases.good_step /\
    exists n,
      scale st' = halved n (scale Cases.good_step) /\
      ((n = 0%nat /\ st' = Cases.good_step /\
        (Jnew Cases.good_step <= Jold Cases.good_step \/
         scale Cases.good_step <= 1 # 1000000000000)) \/
       ((0 < n)%nat /\ converged st' = true /\ scale st' <= 1 # 10000000) \/
       ((0 < n)%nat /\ converged st' = converged Cases.good_step /\
        Jnew st' <= Jold st' /\ ~ scale st' <= 1 # 10000000)).
Proof.
  destruct (line_search 5 Toy.numerics (Toy.config true) Toy.repaired_globals
                        Cases.good_step) as [[st'|e st']|] eqn:E;
    [|vm_compute in E; discriminate E..].
  exists st'. split; [reflexivity|].
  exact (line_search_ends_in_three_ways _ _ _ _ _ _ E).
Defined.

(** ** The exceptions of the cell *)

Lemma Integrate_cost_notebook nm cfg m order dirichlet st :
  fes cfg = VectorH1 m order dirichlet ->
  mesh_dim m = 2%nat \/ mesh_dim m = 3%nat ->
  exists j, Integrate_cost nm cfg (notebook_globals m) "CostAuto2" st = Ok j.
Proof.
  intros Hfes Hdim. unfold Integrate_cost. rewrite Hfes. cbv zeta beta.
  destruct m as [dim names ndof bdofs]. cbn [mesh_dim] in Hdim.
  destruct Hdim as [-> | ->].
  - destruct (call recursion_limit _ "CostAuto2" _) as [t|e] eqn:E.
    + eexists. reflexivity.
    + exfalso. vm_compute in E. discriminate E.
  - destruct (call recursion_limit _ "CostAuto2" _) as [t|e] eqn:E.
    + eexists. reflexivity.
    + exfalso. vm_compute in E. discriminate E.
Qed.

Lemma descent_notebook nm cfg m k st :
  exists st1, descent nm cfg (notebook_globals m) k st = Done st1.
Proof.
  unfold descent, call_proc.
  assert (H1 : notebook_globals m !! "SolveAdjointEquation"
               = Some (VFun Def_SolveAdjointEquation)) by (vm_compute; reflexivity).
  assert (H2 : notebook_globals m !! "SolveDeformationEquationAuto"
               = Some (VFun Def_SolveDeformationEquationAuto))
    by (vm_compute; reflexivity).
  rewrite H1, H2. eexists. reflexivity.
Qed.

Lemma update_gfset_raises_only nm cfg st e st' :
  update_gfset nm cfg st = Raised e st' -> e = ZeroDivisionError.
Proof.
  unfold update_gfset. destruct (Qeq_bool _ 0); intros H; [|discriminate H].
  injection H as <- _. reflexivity.
Qed.

Lemma line_search_raises_only nm cfg m fuel st e st' :
  line_search fuel nm cfg (notebook_globals m) st = Some (Raised e st') ->
  e = NameError "CostAuto".
Proof.
  destruct fuel as [|fuel].
  - cbn [line_search].
    destruct (Qgtb (Jnew st) (Jold st) && Qgtb (scale st) (1 # 1000000000000));
      discriminate.
  - rewrite line_search_notebook.
    destruct (Qgtb (Jnew st) (Jold st) && Qgtb (scale st) (1 # 1000000000000));
      [|discriminate].
    destruct (Qle_bool _ (1 # 10000000)); [discriminate|].
    cbv zeta. intros H. injection H as <- _. reflexivity.
Qed.

Lemma body_raises_only nm cfg m order dirichlet fuel k st e st' :
  fes cfg = VectorH1 m order dirichlet ->
  mesh_dim m = 2%nat \/ mesh_dim m = 3%nat ->
  body fuel nm cfg (notebook_globals m) k st = Some (Raised e st') ->
  e = ZeroDivisionError \/ (LineSearch cfg = true /\ e = NameError "CostAuto").
Proof.
  intros Hfes Hdim. unfold body.
  destruct (descent_notebook nm cfg m k st) as [st1 ->].
  destruct (update_gfset nm cfg st1) as [st2|e2 st2] eqn:U.
  - destruct (Integrate_cost_notebook nm cfg m order dirichlet st2 Hfes Hdim) as [j ->].
    destruct (LineSearch cfg); [|discriminate].
    intros H. right. split; [reflexivity|].
    exact (line_search_raises_only _ _ _ _ _ _ _ H).
  - intros H. injection H as <- _. left.
    exact (update_gfset_raises_only _ _ _ _ _ U).
Qed.



(** ** The parameter sweeps *)

Lemma sigma_expr_ext (eps eps' : CF.Tensor -> result CF.Tensor) lam dim mu gu :
  (forall x, eps x = eps' x) ->
  sigma_expr eps lam dim mu gu = sigma_expr eps' lam dim mu gu.
Proof. intros He. unfold sigma_expr. rewrite (He gu). reflexivity. Qed.

Lemma call_Lambda_sigma (g : Globals) l m dim u :
  g !! "sigma" = Some (VFun (Lambda_sigma l m dim)) ->
  g !! "epsilon" = Some (VFun Lambda_epsilon) ->
  call recursion_limit g "sigma" [u] = sigma_expr CF.epsilon (Ok l) (Ok dim) (Ok m) u.
Proof.
  intros Hs He. unfold recursion_limit. rewrite call_S, Hs.
  apply sigma_expr_ext. intros x. rewrite call_S, He. reflexivity.
Qed.

Lemma call_Lambda_epsilon (g : Globals) u :
  g !! "epsilon" = Some (VFun Lambda_epsilon) ->
  call recursion_limit g "epsilon" [u] = CF.epsilon u.
Proof. intros He. unfold recursion_limit. rewrite call_S, He. reflexivity. Qed.

(** the integrand [solve()] assembles is the one of its own [sigma] and
    [epsilon], whatever else the namespace holds *)
Lemma a_integrand_agree (g g' : Globals) l m dim pu pv :
  Beam.a_integrand
    (<["epsilon" := VFun Lambda_epsilon]> (<["sigma" := VFun (Lambda_sigma l m dim)]> g))
    pu pv
  = Beam.a_integrand
      (<["epsilon" := VFun Lambda_epsilon]> (<["sigma" := VFun (Lambda_sigma l m dim)]> g'))
      pu pv.
Proof.
  unfold Beam.a_integrand.
  rewrite !(call_Lambda_sigma _ l m dim), !call_Lambda_epsilon;
    try reflexivity;
    try (apply lookup_insert_eq);
    rewrite lookup_insert_ne by discriminate; apply lookup_insert_eq.
Qed.

Lemma solve_agree bk (g g' : Globals) s g1 s1 :
  Sweep.extensional bk ->
  g !! "mesh" = g' !! "mesh" ->
  Beam.solve bk g s = Ok (g1, s1) ->
  exists g1' s1',
    Beam.solve bk g' s = Ok (g1', s1') /\
    gf_vec <$> Beam.gfu s1' = gf_vec <$> Beam.gfu s1.
Proof.
  intros Hext Hm.
  destruct s as [m o l mu0 b0 T0 fb xb V0 u0 v0 a0 f0 gf0]. beam_steps.
  destruct xb as [fixed|]; beam_steps; [|discriminate].
  rewrite (a_integrand_agree g' g).
  destruct (Beam.a_integrand _ _ _); beam_steps; [|discriminate].
  destruct (Beam.load_integrand b0 _ _); beam_steps; [|discriminate].
  destruct (Beam.load_integrand T0 _ _); beam_steps; [|discriminate].
  destruct fb as [free|]; beam_steps; [|discriminate].
  unfold Beam.dirichlet_region, lookup_mesh.
  rewrite !lookup_insert_ne by discriminate. rewrite <- Hm.
  destruct (g !! "mesh") as [[q|gm|f]|]; beam_steps; try discriminate.
  intros H. injection H as <- <-. eexists _, _. split; [reflexivity|].
  cbn [Beam.gfu fmap option_fmap option_map gf_vec bf_mat].
  rewrite (Hext _ _ _ (a_integrand_agree g' g l mu0 (mesh_dim m))). reflexivity.
Qed.

Lemma setitem_Some t i j v t' :
  Sweep.setitem t i j v = Some t' ->
  Sweep.getitem t' i j = Some v /\
  (forall i' j', i' <> i \/ j' <> j -> Sweep.getitem t' i' j' = Sweep.getitem t i' j') /\
  map length t' = map length t.
Proof.
  unfold Sweep.setitem, Sweep.getitem. destruct (t !! i) as [row|] eqn:Hi; [|discriminate].
  destruct (decide (j < length row)%nat) as [Hj|]; [|discriminate].
  intros H. injection H as <-.
  pose proof (lookup_lt_Some _ _ _ Hi) as Hlt.
  split; [|split].
  - rewrite list_lookup_insert_eq by exact Hlt.
    apply list_lookup_insert_eq. exact Hj.
  - intros i' j' Hne. destruct (decide (i' = i)) as [->|Hi'].
    + rewrite list_lookup_insert_eq by exact Hlt. rewrite Hi.
      apply list_lookup_insert_ne. destruct Hne; congruence.
    + rewrite list_lookup_insert_ne by congruence. reflexivity.
  - change (length <$> <[i:=<[j:=v]> row]> t = length <$> t).
    rewrite list_fmap_insert, length_insert. apply list_insert_id.
    rewrite list_lookup_fmap, Hi. reflexivity.
Qed.

Lemma inner_cons bk b T free pick lam i_lam mu rest i_mu (g : Globals) t g' t' :
  Sweep.inner bk b T free pick lam i_lam (mu :: rest) i_mu g t = inr (g', t') ->
  exists m g1 s gf v t1,
    g !! "mesh" = Some (VMesh m) /\
    Beam.solve bk (<["mu" := VNum mu]> g) (Sweep.viga m lam mu b T free) = Ok (g1, s) /\
    Beam.gfu s = Some gf /\ pick (gf_vec gf) = Some v /\
    Sweep.setitem t i_lam i_mu v = Some t1 /\
    Sweep.inner bk b T free pick lam i_lam rest (S i_mu) g1 t1 = inr (g', t').
Proof.
  cbn [Sweep.inner].
  destruct (lookup_mesh _ "mesh" "dim") as [m|e] eqn:Hm; [|discriminate].
  apply lookup_mesh_Ok in Hm. rewrite lookup_insert_ne in Hm by discriminate.
  destruct (Beam.solve bk _ _) as [[g1 s]|e] eqn:Hs; [|discriminate].
  destruct (Beam.gfu s) as [gf|] eqn:Hgf; [|discriminate].
  destruct (pick (gf_vec gf)) as [v|] eqn:Hp; [|discriminate].
  destruct (Sweep.setitem t i_lam i_mu v) as [t1|] eqn:Ht; [|discriminate].
  intros H. exists m, g1, s, gf, v, t1.
  split; [exact Hm|]. split; [exact Hs|]. split; [exact Hgf|].
  split; [exact Hp|]. split; [exact Ht | exact H].
Qed.

Lemma solve_keeps_mesh bk (g : Globals) s g1 s1 :
  Beam.solve bk g s = Ok (g1, s1) -> g1 !! "mesh" = g !! "mesh".
Proof.
  intros H. destruct (solve_Ok_inv _ _ _ _ _ H) as (-> & _).
  rewrite !lookup_insert_ne by discriminate. reflexivity.
Qed.

Lemma inner_inv bk b T free pick lam i_lam lmu :
  forall i_mu (g : Globals) t g' t',
    Sweep.inner bk b T free pick lam i_lam lmu i_mu g t = inr (g', t') ->
    g' !! "mesh" = g !! "mesh" /\
    map length t' = map length t /\
    (forall i j, i <> i_lam \/ (j < i_mu)%nat ->
       Sweep.getitem t' i j = Sweep.getitem t i j) /\
    (forall j mu, lmu !! j = Some mu ->
       exists (gk : Globals) m g1 s gf v,
         gk !! "mesh" = g !! "mesh" /\ g !! "mesh" = Some (VMesh m) /\
         Beam.solve bk gk (Sweep.viga m lam mu b T free) = Ok (g1, s) /\
         Beam.gfu s = Some gf /\ pick (gf_vec gf) = Some v /\
         Sweep.getitem t' i_lam (i_mu + j) = Some v).
Proof.
  induction lmu as [|mu0 rest IH]; intros i_mu g t g' t' H.
  - cbn [Sweep.inner] in H. injection H as <- <-.
    split; [reflexivity|]. split; [reflexivity|]. split; [reflexivity|].
    intros j mu Hj. discriminate Hj.
  - apply inner_cons in H as (m & g1 & s & gf & v & t1 & Hm & Hs & Hgf & Hp & Ht & Hrest).
    destruct (IH _ _ _ _ _ Hrest) as (A & B & C & D).
    destruct (setitem_Some _ _ _ _ _ Ht) as (S1 & S2 & S3).
    assert (Hg1 : g1 !! "mesh" = g !! "mesh").
    { rewrite (solve_keeps_mesh _ _ _ _ _ Hs).
      apply lookup_insert_ne. discriminate. }
    split; [congruence|]. split; [congruence|]. split.
    + intros i j Hij. rewrite C by (destruct Hij; [left; assumption | right; lia]).
      apply S2. destruct Hij; [left; assumption | right; lia].
    + intros [|j] mu Hj.
      * cbn in Hj. injection Hj as <-.
        exists (<["mu" := VNum mu0]> g), m, g1, s, gf, v.
        split; [apply lookup_insert_ne; discriminate|].
        split; [exact Hm|]. split; [exact Hs|]. split; [exact Hgf|].
        split; [exact Hp|].
        rewrite Nat.add_0_r, C by (right; lia). exact S1.
      * cbn in Hj. destruct (D j mu Hj) as (gk & m' & g1' & s' & gf' & v' & E1 & E2 & E3 & E4 & E5 & E6).
        exists gk, m', g1', s', gf', v'.
        split; [congruence|]. split; [congruence|]. split; [exact E3|].
        split; [exact E4|]. split; [exact E5|].
        replace (i_mu + S j)%nat with (S i_mu + j)%nat by lia. exact E6.
Qed.

Lemma outer_inv bk b T free pick lmu llam :
  forall i_lam (g : Globals) t g' t',
    Sweep.outer bk b T free pick llam lmu i_lam g t = inr (g', t') ->
    g' !! "mesh" = g !! "mesh" /\
    map length t' = map length t /\
    (forall i j, (i < i_lam)%nat -> Sweep.getitem t' i j = Sweep.getitem t i j) /\
    (forall i j lam mu, llam !! i = Some lam -> lmu !! j = Some mu ->
       exists (gk : Globals) m g1 s gf v,
         gk !! "mesh" = g !! "mesh" /\ g !! "mesh" = Some (VMesh m) /\
         Beam.solve bk gk (Sweep.viga m lam mu b T free) = Ok (g1, s) /\
         Beam.gfu s = Some gf /\ pick (gf_vec gf) = Some v /\
         Sweep.getitem t' (i_lam + i) j = Some v).
Proof.
  induction llam as [|lam0 rest IH]; intros i_lam g t g' t' H.
  - cbn [Sweep.outer] in H. injection H as <- <-.
    split; [reflexivity|]. split; [reflexivity|]. split; [reflexivity|].
    intros i j lam mu Hi. discriminate Hi.
  - cbn [Sweep.outer] in H.
    destruct (Sweep.inner bk b T free pick lam0 i_lam lmu 0 _ t) as [e|[g1 t1]] eqn:Hin;
      [discriminate|].
    destruct (inner_inv _ _ _ _ _ _ _ _ _ _ _ _ _ Hin) as (A1 & B1 & C1 & D1).
    destruct (IH _ _ _ _ _ H) as (A & B & C & D).
    rewrite lookup_insert_ne in A1, D1 by discriminate.
    split; [congruence|]. split; [congruence|]. split.
    + intros i j Hi. rewrite C by lia. apply C1. left. lia.
    + intros [|i] j lam mu Hi Hj.
      * cbn in Hi. injection Hi as <-.
        destruct (D1 j mu Hj) as (gk & m & g2 & s & gf & v & E1 & E2 & E3 & E4 & E5 & E6).
        exists gk, m, g2, s, gf, v.
        split; [exact E1|]. split; [exact E2|]. split; [exact E3|].
        split; [exact E4|]. split; [exact E5|].
        rewrite Nat.add_0_r, C by lia. exact E6.
      * cbn in Hi.
        destruct (D i j lam mu Hi Hj) as (gk & m & g2 & s & gf & v & E1 & E2 & E3 & E4 & E5 & E6).
        exists gk, m, g2, s, gf, v.
        split; [congruence|]. split; [congruence|]. split; [exact E3|].
        split; [exact E4|]. split; [exact E5|].
        replace (i_lam + S i)%nat with (S i_lam + i)%nat by lia. exact E6.
Qed.

(** X20. No pass of a sweep leaks into another: when the cell ends, entry
    [(i, j)] of the array is the entry [min] or [max] picks from the solution
    of the beam with [llam[i]] and [lmu[j]] solved on its own in the
    namespace the cell started from, although every pass rebinds [sigma],
    [epsilon], [lam] and [mu]. *)
Theorem sweep_entries_are_single_solves bk b T free pick llam lmu (g g' : Globals) t :
  Sweep.extensional bk ->
  Sweep.sweep bk b T free pick llam lmu g = inr (g', t) ->
  forall i j lam mu,
    llam !! i = Some lam -> lmu !! j = Some mu ->
    exists m g1 s gf v,
      g !! "mesh" = Some (VMesh m) /\
      Beam.solve bk g (Sweep.viga m lam mu b T free) = Ok (g1, s) /\
      Beam.gfu s = Some gf /\ pick (gf_vec gf) = Some v /\
      Sweep.getitem t i j = Some v.
Proof.
  intros Hext H i j lam mu Hi Hj. unfold Sweep.sweep in H.
  destruct (outer_inv _ _ _ _ _ _ _ _ _ _ _ _ H) as (_ & _ & _ & D).
  destruct (D i j lam mu Hi Hj) as (gk & m & g2 & s & gf & v & E1 & E2 & E3 & E4 & E5 & E6).
  rewrite lookup_insert_ne in E1, E2 by discriminate.
  destruct (solve_agree bk gk g _ _ _ Hext E1 E3) as (g1' & s1' & Hs & Hvec).
  rewrite E4 in Hvec. destruct (Beam.gfu s1') as [gf'|] eqn:Hgf'; [|discriminate].
  cbn in Hvec. injection Hvec as Hvec.
  exists m, g1', s1', gf', v.
  split; [exact E2|]. split; [exact Hs|]. split; [exact Hgf'|].
  split; [rewrite Hvec; exact E5 | exact E6].
Qed.

Lemma toy_backend_extensional : Sweep.extensional Toy.backend.
Proof. intros V f f' _. reflexivity. Qed.

Lemma sweep_entries_are_single_solves_witness :
  exists g' t m g1 s gf v,
    Sweep.own_weight Toy.backend Cases.llam Cases.lmu Cases.brick_globals = inr (g', t) /\
    Cases.brick_globals !! "mesh" = Some (VMesh m) /\
    Beam.solve Toy.backend Cases.brick_globals
               (Sweep.viga m 75000 100000 (fun _ => CF.mkT [3%nat] [0; -3; 0])
                           (fun _ => CF.mkT [3%nat] [0; 0; 0]) "top") = Ok (g1, s) /\
    Beam.gfu s = Some gf /\ Sweep.py_min (gf_vec gf) = Some v /\
    Sweep.getitem t 1 2 = Some v.
Proof.
  destruct (Sweep.own_weight Toy.backend Cases.llam Cases.lmu Cases.brick_globals)
    as [e|[g' t]] eqn:E; [vm_compute in E; discriminate E|].
  destruct (sweep_entries_are_single_solves _ _ _ _ _ _ _ _ _ _
              toy_backend_extensional E 1%nat 2%nat 75000 100000 eq_refl eq_refl)
    as (m & g1 & s & gf & v & H1 & H2 & H3 & H4 & H5).
  exists g', t, m, g1, s, gf, v.
  split; [reflexivity|]. split; [exact H1|]. split; [exact H2|].
  split; [exact H3|]. split; [exact H4 | exact H5].
Defined.

Lemma getitem_bounds t i j v :
  map length t = [3; 3; 3]%nat -> Sweep.getitem t i j = Some v -> (i < 3 /\ j < 3)%nat.
Proof.
  intros Hdim. unfold Sweep.getitem.
  destruct (t !! i) as [row|] eqn:Hi; [|discriminate]. intros Hj.
  assert (Hrow : (length <$> t) !! i = Some (length row))
    by (rewrite list_lookup_fmap, Hi; reflexivity).
  change (length <$> t) with (map length t) in Hrow. rewrite Hdim in Hrow.
  apply lookup_lt_Some in Hj.
  destruct i as [|[|[|i]]]; cbn in Hrow; try discriminate;
    injection Hrow as Hrow; lia.
Qed.

Lemma setitem_fits t i j v :
  map length t = [3; 3; 3]%nat -> (i < 3)%nat -> (j < 3)%nat ->
  exists t1, Sweep.setitem t i j v = Some t1.
Proof.
  intros Hdim Hi Hj. unfold Sweep.setitem.
  destruct t as [|r0 [|r1 [|r2 [|r3 t]]]]; try discriminate Hdim.
  injection Hdim as H0 H1 H2.
  destruct i as [|[|[|i]]]; [| | |lia]; cbn;
    (destruct (decide _) as [|Hn]; [eexists; reflexivity | lia]).
Qed.

Lemma inner_fits bk b T free pick lam i_lam lmu :
  forall i_mu (g : Globals) t,
    map length t = [3; 3; 3]%nat -> (i_lam < 3)%nat -> (i_mu + length lmu <= 3)%nat ->
    Sweep.inner bk b T free pick lam i_lam lmu i_mu g t <> inl Sweep.TableIndexError.
Proof.
  induction lmu as [|mu rest IH]; intros i_mu g t Hdim Hi Hj; cbn [Sweep.inner length] in *;
    [discriminate|].
  destruct (lookup_mesh _ "mesh" "dim") as [m|e]; [|discriminate].
  destruct (Beam.solve bk _ _) as [[g1 s]|e]; [|discriminate].
  destruct (Beam.gfu s) as [gf|]; [|discriminate].
  destruct (pick (gf_vec gf)) as [v|]; [|discriminate].
  assert (Hlt : (i_mu < 3)%nat) by lia.
  destruct (setitem_fits t i_lam i_mu v Hdim Hi Hlt) as [t1 Ht]. rewrite Ht.
  apply IH; [|exact Hi|lia].
  destruct (setitem_Some _ _ _ _ _ Ht) as (_ & _ & ->). exact Hdim.
Qed.

Lemma outer_fits bk b T free pick lmu llam :
  forall i_lam (g : Globals) t,
    map length t = [3; 3; 3]%nat -> (i_lam + length llam <= 3)%nat ->
    (length lmu <= 3)%nat ->
    Sweep.outer bk b T free pick llam lmu i_lam g t <> inl Sweep.TableIndexError.
Proof.
  induction llam as [|lam rest IH]; intros i_lam g t Hdim Hi Hj;
    cbn [Sweep.outer length] in *; [discriminate|].
  destruct (Sweep.inner bk b T free pick lam i_lam lmu 0 _ t) as [e|[g1 t1]] eqn:Hin.
  - intros H. injection H as ->.
    refine (inner_fits bk b T free pick lam i_lam lmu 0%nat _ t Hdim _ _ Hin); cbn; lia.
  - destruct (inner_inv _ _ _ _ _ _ _ _ _ _ _ _ _ Hin) as (_ & B & _).
    apply IH; [congruence | lia | exact Hj].
Qed.

(** X21. The array has three rows and three columns whatever the lists
    hold: a sweep that ends has filled an array of that shape from lists of
    at most three values each, so a fourth value makes the cell fail; and
    with at most three values in each list the cell never raises the
    [IndexError] of the array. *)
Theorem sweep_fits_three_by_three bk b T free pick llam lmu (g : Globals) :
  (forall g' t,
     Sweep.sweep bk b T free pick llam lmu g = inr (g', t) ->
     map length t = [3; 3; 3]%nat /\
     (lmu <> [] -> (length llam <= 3)%nat) /\
     (llam <> [] -> (length lmu <= 3)%nat)) /\
  ((length llam <= 3)%nat -> (length lmu <= 3)%nat ->
   Sweep.sweep bk b T free pick llam lmu g <> inl Sweep.TableIndexError).
Proof.
  split.
  - intros g' t H. unfold Sweep.sweep in H.
    destruct (outer_inv _ _ _ _ _ _ _ _ _ _ _ _ H) as (_ & B & _ & D).
    assert (Hdim : map length t = [3; 3; 3]%nat) by (rewrite B; reflexivity).
    split; [exact Hdim|].
    assert (Hboth : llam <> [] -> lmu <> [] ->
                    (length llam <= 3 /\ length lmu <= 3)%nat).
    { intros Hl Hm.
      assert (Hi : (pred (length llam) < length llam)%nat)
        by (destruct llam; [contradiction | cbn; lia]).
      assert (Hj : (pred (length lmu) < length lmu)%nat)
        by (destruct lmu; [contradiction | cbn; lia]).
      destruct (lookup_lt_is_Some_2 _ _ Hi) as [lam Hlam].
      destruct (lookup_lt_is_Some_2 _ _ Hj) as [mu Hmu].
      destruct (D _ _ _ _ Hlam Hmu) as (gk & m & g2 & s & gf & v & _ & _ & _ & _ & _ & E).
      destruct (getitem_bounds _ _ _ _ Hdim E). lia. }
    split.
    + intros Hm. destruct llam as [|x l] eqn:El; [cbn; lia|].
      rewrite <- El in *. apply Hboth; [rewrite El; discriminate | exact Hm].
    + intros Hl. destruct lmu as [|x l] eqn:El; [cbn; lia|].
      rewrite <- El in *. apply Hboth; [exact Hl | rewrite El; discriminate].
  - intros Hl Hm. unfold Sweep.sweep.
    apply outer_fits; [reflexivity | lia | exact Hm].
Qed.

Lemma sweep_fits_three_by_three_witness :
  Sweep.pulled Toy.backend Cases.llam Cases.lmu Cases.brick_globals
  <> inl Sweep.TableIndexError.
Proof.
  apply (proj2 (sweep_fits_three_by_three Toy.backend _ _ "end" Sweep.py_max
                  Cases.llam Cases.lmu Cases.brick_globals)); cbn; lia.
Defined.

Lemma viga_inputs m lam mu b T free :
  Beam.lam (Sweep.viga m lam mu b T free) = lam /\
  Beam.mu (Sweep.viga m lam mu b T free) = mu /\
  Beam.mesh (Sweep.viga m lam mu b T free) = m.
Proof.
  unfold Sweep.viga, Beam.set_freebnd, Beam.init.
  destruct (decide (mesh_dim m = 3%nat)); [repeat split|].
  destruct (decide (mesh_dim m = 2%nat)); repeat split.
Qed.

Lemma inner_names bk b T free pick lam i_lam lmu :
  forall i_mu (g : Globals) t g' t',
    Sweep.inner bk b T free pick lam i_lam lmu i_mu g t = inr (g', t') ->
    (forall name, name <> "sigma" -> name <> "epsilon" -> name <> "mu" ->
       g' !! name = g !! name) /\
    (forall mu, last lmu = Some mu ->
       exists m, g !! "mesh" = Some (VMesh m) /\
                 g' !! "sigma" = Some (VFun (Lambda_sigma lam mu (mesh_dim m))) /\
                 g' !! "epsilon" = Some (VFun Lambda_epsilon) /\
                 g' !! "mu" = Some (VNum mu)).
Proof.
  induction lmu as [|mu0 rest IH]; intros i_mu g t g' t' H.
  - cbn [Sweep.inner] in H. injection H as <- <-.
    split; [reflexivity|]. intros mu Hl. discriminate Hl.
  - apply inner_cons in H as (m & g1 & s & gf & v & t1 & Hm & Hs & _ & _ & _ & Hrest).
    destruct (IH _ _ _ _ _ Hrest) as (A & B).
    destruct (solve_Ok_inv _ _ _ _ _ Hs) as (Hg1 & _).
    destruct (viga_inputs m lam mu0 b T free) as (Vl & Vm & Vmesh).
    rewrite Vl, Vm, Vmesh in Hg1.
    split.
    + intros name N1 N2 N3. rewrite (A name N1 N2 N3), Hg1.
      rewrite !lookup_insert_ne by congruence. reflexivity.
    + intros mu Hl. destruct rest as [|x r].
      * cbn in Hl. injection Hl as <-.
        cbn [Sweep.inner] in Hrest. injection Hrest as <- _.
        exists m. split; [exact Hm|]. rewrite Hg1.
        split; [rewrite lookup_insert_ne by discriminate; apply lookup_insert_eq|].
        split; [apply lookup_insert_eq|].
        rewrite !lookup_insert_ne by discriminate. apply lookup_insert_eq.
      * rewrite last_cons_cons in Hl.
        destruct (B mu Hl) as (m' & M1 & M2 & M3 & M4).
        exists m'. split; [|split; [exact M2 | split; [exact M3 | exact M4]]].
        rewrite <- M1, Hg1. rewrite !lookup_insert_ne by discriminate. reflexivity.
Qed.

Lemma outer_names bk b T free pick lmu llam :
  forall i_lam (g : Globals) t g' t',
    Sweep.outer bk b T free pick llam lmu i_lam g t = inr (g', t') ->
    (forall name, name <> "sigma" -> name <> "epsilon" -> name <> "mu" ->
       name <> "lam" -> g' !! name = g !! name) /\
    (forall lam mu, last llam = Some lam -> last lmu = Some mu ->
       exists m, g !! "mesh" = Some (VMesh m) /\
                 g' !! "sigma" = Some (VFun (Lambda_sigma lam mu (mesh_dim m))) /\
                 g' !! "epsilon" = Some (VFun Lambda_epsilon) /\
                 g' !! "mu" = Some (VNum mu) /\ g' !! "lam" = Some (VNum lam)).
Proof.
  induction llam as [|lam0 rest IH]; intros i_lam g t g' t' H.
  - cbn [Sweep.outer] in H. injection H as <- <-.
    split; [reflexivity|]. intros lam mu Hl. discriminate Hl.
  - cbn [Sweep.outer] in H.
    destruct (Sweep.inner bk b T free pick lam0 i_lam lmu 0 _ t) as [e|[g1 t1]] eqn:Hin;
      [discriminate|].
    destruct (inner_names _ _ _ _ _ _ _ _ _ _ _ _ _ Hin) as (A1 & B1).
    destruct (IH _ _ _ _ _ H) as (A & B).
    split.
    + intros name N1 N2 N3 N4. rewrite (A name N1 N2 N3 N4), (A1 name N1 N2 N3).
      apply lookup_insert_ne. congruence.
    + intros lam mu Hl Hm. destruct rest as [|x r].
      * cbn in Hl. injection Hl as <-.
        cbn [Sweep.outer] in H. injection H as <- _.
        destruct (B1 mu Hm) as (m & M1 & M2 & M3 & M4).
        rewrite lookup_insert_ne in M1 by discriminate.
        exists m. split; [exact M1|]. split; [exact M2|]. split; [exact M3|].
        split; [exact M4|].
        rewrite A1 by discriminate. apply lookup_insert_eq.
      * rewrite last_cons_cons in Hl.
        destruct (B lam mu Hl Hm) as (m & M1 & M2).
        exists m. split; [|exact M2].
        rewrite <- M1, A1 by discriminate. symmetry. apply lookup_insert_ne. discriminate.
Qed.

(** X22. What a sweep leaves in the namespace: [sigma] is the law of the
    last pair of parameters, closed over the last instance, [epsilon] is the
    strain, [lam], [mu] and [order] hold the last values, and every name
    the cell does not assign is bound as before. *)
Theorem sweep_leaves_the_last_law bk b T free pick llam lmu (g g' : Globals) t lam mu :
  Sweep.sweep bk b T free pick llam lmu g = inr (g', t) ->
  last llam = Some lam -> last lmu = Some mu ->
  (exists m, g !! "mesh" = Some (VMesh m) /\
             g' !! "sigma" = Some (VFun (Lambda_sigma lam mu (mesh_dim m)))) /\
  g' !! "epsilon" = Some (VFun Lambda_epsilon) /\
  g' !! "lam" = Some (VNum lam) /\ g' !! "mu" = Some (VNum mu) /\
  g' !! "order" = Some (VNum 2) /\
  (forall name, name ∉ Sweep.assigned -> g' !! name = g !! name).
Proof.
  intros H Hl Hm. unfold Sweep.sweep in H.
  destruct (outer_names _ _ _ _ _ _ _ _ _ _ _ _ H) as (A & B).
  destruct (B lam mu Hl Hm) as (m & M1 & M2 & M3 & M4 & M5).
  rewrite lookup_insert_ne in M1 by discriminate.
  split; [exists m; split; [exact M1 | exact M2]|].
  split; [exact M3|]. split; [exact M5|]. split; [exact M4|]. split.
  - rewrite A by discriminate. apply lookup_insert_eq.
  - intros name Hname.
    assert (Hne : forall x, x ∈ Sweep.assigned -> name <> x)
      by (intros x Hx ->; contradiction).
    assert (Hmem : forall x, bool_decide (x ∈ Sweep.assigned) = true -> x ∈ Sweep.assigned)
      by (intros x Hx; apply bool_decide_eq_true in Hx; exact Hx).
    rewrite (A name (Hne "sigma" (Hmem "sigma" eq_refl))
               (Hne "epsilon" (Hmem "epsilon" eq_refl))
               (Hne "mu" (Hmem "mu" eq_refl)) (Hne "lam" (Hmem "lam" eq_refl))).
    apply lookup_insert_ne. intros E. apply (Hne "order" (Hmem "order" eq_refl)).
    symmetry. exact E.
Qed.

Lemma sweep_leaves_the_last_law_witness :
  exists g' t,
    Sweep.own_weight Toy.backend Cases.llam Cases.lmu Cases.brick_globals = inr (g', t) /\
    g' !! "sigma" = Some (VFun (Lambda_sigma 90000 100000 3)) /\
    g' !! "lam" = Some (VNum 90000) /\ g' !! "mu" = Some (VNum 100000).
Proof.
  destruct (Sweep.own_weight Toy.backend Cases.llam Cases.lmu Cases.brick_globals)
    as [e|[g' t]] eqn:E; [vm_compute in E; discriminate E|].
  destruct (sweep_leaves_the_last_law _ _ _ _ _ _ _ _ _ _ 90000 100000 E eq_refl eq_refl)
    as ((m & M1 & M2) & _ & M3 & M4 & _).
  exists g', t. split; [reflexivity|].
  assert (Hm : m = Toy.brick).
  { assert (M : Cases.brick_globals !! "mesh" = Some (VMesh Toy.brick)) by reflexivity.
    rewrite M in M1. injection M1 as <-. reflexivity. }
  subst m. split; [exact M2|]. split; [exact M3 | exact M4].
Defined.
